(** * improve-ai/gym: reward assignment and firehose ingest workers

    A shallow embedding of [src/assign_rewards/join_rewards.py] and
    [src/ingest_firehose/worker.py], and the properties of the shard
    assigner, the time-windowed attributor and the ingest orchestrator. *)

From Stdlib Require Import ZArith Ascii String List Lia Bool FinFun Sorted PrimFloat FloatOps SpecFloat.
From Stdlib Require OrderedTypeEx.
From stdpp Require Import base strings gmap list.

Local Open Scope Z_scope.

(** ** Python values, exceptions and results *)

Module Py.

(** The exceptions the two modules can raise.  [InvalidTypeError] and
    [UpdateListenersError] are the classes of the repository's [exceptions]
    module; the others are built in. *)
Inductive exn : Type :=
  | TypeError
  | ValueError
  | KeyError
  | IndexError
  | AttributeError
  | OverflowError
  | ZeroDivisionError
  | InvalidTypeError
  | UpdateListenersError.

(** A call either returns a value or raises. *)
Inductive result (A : Type) : Type :=
  | Ok (a : A)
  | Raise (e : exn).
Arguments Ok {A} a.
Arguments Raise {A} e.

Definition bind {A B : Type} (r : result A) (k : A -> result B) : result B :=
  match r with
  | Ok a => k a
  | Raise e => Raise e
  end.

Notation "'let*' x ':=' r 'in' k" := (bind r (fun x => k))
  (at level 10, x name, r at level 100, k at level 200).

(** The values a record loaded from a JSON line can hold, and the
    [datetime.datetime] objects [strptime] makes of its timestamps.  A
    datetime is the integer count of its microseconds since [datetime.min];
    a [timedelta] is a difference of such counts.  Floats are IEEE binary64, as in CPython.  A
    [VDict] lists the items of a [dict] in their order, each key once. *)
#[warnings="-register-all"] Inductive val : Type :=
  | VNone
  | VBool (b : bool)
  | VInt (z : Z)
  | VFloat (f : float)
  | VStr (s : string)
  | VList (l : list val)
  | VDict (d : list (string * val))
  | VDatetime (t : Z).

(** [float(z)] for an [int]: round to nearest even, [OverflowError] when the
    result does not fit a double. *)
Definition float_of_Z (z : Z) : float :=
  SF2Prim (binary_normalize prec emax z 0 false).

Definition is_infinite (f : float) : bool :=
  PrimFloat.eqb (PrimFloat.abs f) infinity.

Definition float_of_int (z : Z) : result float :=
  let f := float_of_Z z in
  if is_infinite f then Raise OverflowError else Ok f.

End Py.

Import Py.

(** ** The shard assigner: [identify_files_to_process] *)

Module Shard.

(** *** [int(s, 16)] *)

Definition ascii_code (c : ascii) : Z := Z.of_N (N_of_ascii c).

Definition hex_digit (c : ascii) : option Z :=
  let n := ascii_code c in
  if (48 <=? n) && (n <=? 57) then Some (n - 48)
  else if (97 <=? n) && (n <=? 102) then Some (n - 87)
  else if (65 <=? n) && (n <=? 70) then Some (n - 55)
  else None.

Definition is_hex (c : ascii) : bool :=
  match hex_digit c with Some _ => true | None => false end.

(** The white space [int] skips at both ends of an ASCII string: tab, line
    feed, vertical tab, form feed, carriage return and space. *)
Definition is_space (c : ascii) : bool :=
  let n := ascii_code c in
  ((9 <=? n) && (n <=? 13)) || (n =? 32).

Definition is_underscore (c : ascii) : bool := ascii_code c =? 95.

Fixpoint lstrip (s : list ascii) : list ascii :=
  match s with
  | c :: s' => if is_space c then lstrip s' else s
  | [] => []
  end.

Definition strip (s : list ascii) : list ascii :=
  rev (lstrip (rev (lstrip s))).

(** Digits, with single underscores between them; [prev_us] says that the
    previous character was an underscore. *)
Fixpoint hex_digits (prev_us : bool) (acc : Z) (s : list ascii) : option Z :=
  match s with
  | [] => if prev_us then None else Some acc
  | c :: s' =>
      if is_underscore c then
        if prev_us then None else hex_digits true acc s'
      else
        match hex_digit c with
        | Some d => hex_digits false (16 * acc + d) s'
        | None => None
        end
  end.

(** The digits must start with a digit. *)
Definition hex_number (s : list ascii) : option Z :=
  match s with
  | [] => None
  | c :: _ => if is_underscore c then None else hex_digits false 0 s
  end.

(** An optional [0x] or [0X], which one underscore may follow. *)
Definition hex_prefixed_number (s : list ascii) : option Z :=
  match s with
  | z :: x :: s' =>
      if (ascii_code z =? 48) && ((ascii_code x =? 120) || (ascii_code x =? 88)) then
        match s' with
        | u :: s'' => if is_underscore u then hex_number s'' else hex_number s'
        | [] => None
        end
      else hex_number s
  | _ => hex_number s
  end.

Definition hex_signed_number (s : list ascii) : option Z :=
  match s with
  | c :: s' =>
      if ascii_code c =? 43 then hex_prefixed_number s'
      else if ascii_code c =? 45 then
        match hex_prefixed_number s' with Some v => Some (- v) | None => None end
      else hex_prefixed_number s
  | [] => None
  end.

(** [int(s, 16)] on an ASCII string: [ValueError] on anything but a
    hexadecimal literal.  On other strings [int] also reads the decimal
    digits and skips the white space of Unicode, which are not modelled:
    what is proved of a string that [int] does not read is proved of ASCII
    strings. *)
Definition int16 (s : string) : result Z :=
  match hex_signed_number (strip (list_ascii_of_string s)) with
  | Some v => Ok v
  | None => Raise ValueError
  end.

(** *** The directory and the glob *)

(** [input_dir] is the listing of the input folder: the names of its
    entries, in the order the file system yields them. *)
Definition directory : Type := list string.

Definition glob_suffix : string := ".jsonl.gz".

Fixpoint has_suffix (suf s : string) : bool :=
  if (String.length s <? String.length suf)%nat then false
  else if String.eqb s suf then true
  else match s with
       | String _ s' => has_suffix suf s'
       | EmptyString => false
       end.

(** [input_dir.glob('*.jsonl.gz')] *)
Definition glob (input_dir : directory) : list string :=
  List.filter (has_suffix glob_suffix) input_dir.

(** [f.name[:16]]: the first 16 characters of the name, which are its
    first 16 bytes when these are ASCII. *)
Definition name_prefix (name : string) : string := substring 0 16 name.

(** The first 16 bytes of a name are ASCII characters. *)
Definition ascii_prefixed (name : string) : bool :=
  forallb (fun c => ascii_code c <? 128) (list_ascii_of_string (name_prefix name)).

(** [int % node_count] and the comparison with [node_id]. *)
Definition py_mod (a n : Z) : result Z :=
  if n =? 0 then Raise ZeroDivisionError else Ok (a mod n).

(** The loop of [identify_files_to_process] over the globbed files;
    [files_to_process] is appended to at its end. *)
Fixpoint identify_loop (files : list string) (node_id node_count : Z)
    (files_to_process : list string) : result (list string) :=
  match files with
  | [] => Ok files_to_process
  | f :: rest =>
      let* v := int16 (name_prefix f) in
      let* r := py_mod v node_count in
      if r =? node_id
      then identify_loop rest node_id node_count (files_to_process ++ [f])
      else identify_loop rest node_id node_count files_to_process
  end.

Definition identify_files_to_process (input_dir : directory)
    (node_id node_count : Z) : result (list string) :=
  identify_loop (glob input_dir) node_id node_count [].

(** A name begins with 16 hexadecimal characters. *)
Definition hex_prefixed (name : string) : bool :=
  let p := list_ascii_of_string (name_prefix name) in
  (length p =? 16)%nat && forallb is_hex p.

(** The node ids of a cluster of [node_count] nodes: [0 .. node_count-1]. *)
Definition node_ids (node_count : Z) : list Z :=
  map Z.of_nat (seq 0 (Z.to_nat node_count)).

(** The shard of a file: [int(f.name[:16], 16) % node_count]. *)
Definition shard_of (node_count : Z) (f : string) : result Z :=
  let* v := int16 (name_prefix f) in py_mod v node_count.

Definition owned_by (node_count node_id : Z) (f : string) : bool :=
  match shard_of node_count f with
  | Ok r => r =? node_id
  | Raise _ => false
  end.

Definition all_hex (s : list ascii) : Prop := List.Forall (fun c => is_hex c = true) s.

(** *** Files for the examples *)

(** Six files whose prefixes are 0 .. 5, split among three nodes. *)
Definition six_files : directory :=
  [ "0000000000000000a.jsonl.gz"; "0000000000000001b.jsonl.gz";
    "0000000000000002c.jsonl.gz"; "0000000000000003d.jsonl.gz";
    "0000000000000004e.jsonl.gz"; "0000000000000005f.jsonl.gz";
    "README.txt" ]%string.

(** The six files and one whose name has no hexadecimal prefix. *)
Definition six_files_and_notes : directory :=
  six_files ++ ["notes.jsonl.gz"%string].

(** The same, with that file first. *)
Definition notes_first : directory := "notes.jsonl.gz"%string :: six_files.

(** Two more files, of prefixes 7 and 10. *)
Definition two_more_files : directory :=
  [ "0000000000000007g.jsonl.gz"; "000000000000000ah.jsonl.gz" ]%string.

End Shard.

(** ** The time-windowed attributor: [update_listeners] and
    [assign_rewards_to_decisions] *)

Module JoinRewards.

(** A record is the [dict] of one JSON line.  Records are objects: the
    lists of decisions, the listener lists and the returned list hold
    references to them, and [update_listeners] writes to them in place.  A
    reference is a [loc] and the objects live in a [heap]. *)
Abbreviation record := (gmap string val).
Definition loc : Type := nat.
Definition heap : Type := loc -> record.

Definition heap_set (h : heap) (l : loc) (d : record) : heap :=
  fun l' => if Nat.eqb l' l then d else h l'.

(** The names [join_rewards.py] imports from [config], which is not among
    the sources: constants, and the parser that [DATETIME_FORMAT] fixes
    ([None] for a string that does not match the format).  [REWARD_WINDOW]
    is a whole number of seconds. *)
Record env : Type := {
  DEFAULT_REWARD_KEY : val;
  DEFAULT_EVENTS_REWARD_VALUE : val;
  DEFAULT_REWARD_VALUE : val;
  REWARD_WINDOW : Z;
  DATETIME_FORMAT : string -> option Z
}.

(** What a call that returns [None] leaves: nothing, or the exception. *)
Abbreviation outcome := (option exn).



(** *** Values *)

(** [isinstance(v, int) or isinstance(v, float)]; [bool] is an [int]. *)
Definition is_number (v : val) : bool :=
  match v with
  | VInt _ | VBool _ | VFloat _ => true
  | _ => false
  end.

(** [float(v)], which [update_listeners] reaches with a number only. *)
Definition to_float (v : val) : result float :=
  match v with
  | VFloat f => Ok f
  | VInt z => float_of_int z
  | VBool b => Ok (if b then 1%float else 0%float)
  | _ => Raise TypeError
  end.

(** [v + f] for a float [f]. *)
Definition add_float (v : val) (f : float) : result val :=
  match v with
  | VFloat a => Ok (VFloat (a + f)%float)
  | VInt z => let* a := float_of_int z in Ok (VFloat (a + f)%float)
  | VBool b => Ok (VFloat ((if b then 1 else 0) + f)%float)
  | _ => Raise TypeError
  end.

(** The keys of a [dict]: hashable values up to [==].  Numbers that are
    equal are one key ([True == 1 == 1.0]); a NaN equals no key. *)
Inductive key : Type :=
  | KNone
  | KInt (z : Z)
  | KFloat (f : float)
  | KStr (s : string)
  | KDatetime (t : Z).

Definition float_key (f : float) : key :=
  match Prim2SF f with
  | S754_zero _ => KInt 0
  | S754_finite s m e =>
      let z := if s then Z.neg m else Z.pos m in
      if 0 <=? e then KInt (z * 2 ^ e)
      else if Z.pos m mod 2 ^ (- e) =? 0 then KInt (z / 2 ^ (- e))
      else KFloat f
  | _ => KFloat f
  end.

(** [hash(v)]: [TypeError] for a list or a dict. *)
Definition hash_key (v : val) : result key :=
  match v with
  | VNone => Ok KNone
  | VBool b => Ok (KInt (if b then 1 else 0))
  | VInt z => Ok (KInt z)
  | VFloat f => Ok (float_key f)
  | VStr s => Ok (KStr s)
  | VDatetime t => Ok (KDatetime t)
  | VList _ | VDict _ => Raise TypeError
  end.

Definition key_eqb (a b : key) : bool :=
  match a, b with
  | KNone, KNone => true
  | KInt x, KInt y => x =? y
  | KFloat x, KFloat y => PrimFloat.eqb x y
  | KStr x, KStr y => String.eqb x y
  | KDatetime x, KDatetime y => x =? y
  | _, _ => false
  end.

(** [decision_records_by_reward_key]: a [dict] from reward keys to listener
    lists, in insertion order. *)
Definition listener_map : Type := list (key * list loc).

Fixpoint map_get (m : listener_map) (k : key) : option (list loc) :=
  match m with
  | [] => None
  | (k', ls) :: m' => if key_eqb k' k then Some ls else map_get m' k
  end.

(** [m[k] = ls]: in place for a key that is there, at the end otherwise. *)
Fixpoint map_set (m : listener_map) (k : key) (ls : list loc) : listener_map :=
  match m with
  | [] => [(k, ls)]
  | (k', ls') :: m' =>
      if key_eqb k' k then (k', ls) :: m' else (k', ls') :: map_set m' k ls
  end.

(** The keys of the map, in insertion order. *)
Definition keys (m : listener_map) : list key := map fst m.

(** *** Relations between heaps *)

(** Two heaps whose records have the same fields, [reward] apart. *)
Definition same_fields (h h' : heap) : Prop :=
  forall l field, field <> "reward"%string -> h' l !! field = h l !! field.

(** Two heaps that hold the same records at the references [S]. *)
Definition agree (S : loc -> Prop) (h1 h2 : heap) : Prop :=
  forall l, S l -> h1 l = h2 l.

(** Two runs that leave the same list or map, end the same way, and leave
    heaps that agree. *)
Definition alike {A : Type} (S : loc -> Prop) (x y : heap * A * outcome) : Prop :=
  snd (fst x) = snd (fst y) /\ snd x = snd y /\ agree S (fst (fst x)) (fst (fst y)).

(** The listeners of a map are among the references [S]. *)
Definition map_in (S : loc -> Prop) (m : listener_map) : Prop :=
  List.Forall (fun e => List.Forall S (snd e)) m.

(** The listeners of each key of a map stand in the relation [P] to the
    key. *)
Definition map_keyed (P : key -> loc -> Prop) (m : listener_map) : Prop :=
  List.Forall (fun e => List.Forall (P (fst e)) (snd e)) m.

(** The listeners of a map, the lists of all its keys together. *)
Definition members (m : listener_map) : list loc := concat (map snd m).

(** No key of the map equals a later one: a [dict] holds a key once. *)
Definition keys_distinct (m : listener_map) : Prop :=
  ForallOrdPairs (fun k k' => key_eqb k k' = false) (keys m).

(** The records that follow [l] in a list. *)
Fixpoint after (l : loc) (records : list loc) : list loc :=
  match records with
  | [] => []
  | r :: rest => if Nat.eqb r l then rest else after l rest
  end.

Section WithEnv.

Variable E : env.

(** [window = timedelta(seconds=REWARD_WINDOW)], in microseconds.  The
    timestamps are taken far enough from [datetime.max] for the sum of a
    timestamp and the window to be a [datetime]: where it is not, Python
    raises [OverflowError], which is not modelled, and what is proved of a
    call that has to return asks for the sum to be in the range of
    [is_datetime]. *)
Definition window : Z := REWARD_WINDOW E * 1000000.

(** [datetime.strptime(d['timestamp'], DATETIME_FORMAT)] *)
Definition strptime (d : record) : result Z :=
  match d !! "timestamp" with
  | None => Raise KeyError
  | Some (VStr s) =>
      match DATETIME_FORMAT E s with
      | Some t => Ok t
      | None => Raise ValueError
      end
  | Some _ => Raise TypeError
  end.

(** *** [update_listeners] *)

(** [listener['reward'] = listener.get('reward', DEFAULT_REWARD_VALUE) + float(reward)] *)
Definition add_reward (d : record) (reward : val) : result record :=
  let* f := to_float reward in
  let* r := add_float (default (DEFAULT_REWARD_VALUE E) (d !! "reward")) f in
  Ok (<["reward" := r]> d).

(** The body of the [try]: [for i in range(len(listeners)-1, -1, -1)], with
    [n] the number of indices still to visit, so that the index visited is
    [n - 1]. *)
Fixpoint update_loop (n : nat) (h : heap) (listeners : list loc)
    (record_timestamp : Z) (reward : val) : heap * list loc * outcome :=
  match n with
  | O => (h, listeners, None)
  | S i =>
      match listeners !! i with
      | None => (h, listeners, Some IndexError)
      | Some listener =>
          match strptime (h listener) with
          | Raise e => (h, listeners, Some e)
          | Ok listener_timestamp =>
              if listener_timestamp + window <? record_timestamp then
                update_loop i h (delete i listeners) record_timestamp reward
              else
                match add_reward (h listener) reward with
                | Raise e => (h, listeners, Some e)
                | Ok d =>
                    update_loop i (heap_set h listener d) listeners
                      record_timestamp reward
                end
          end
      end
  end.

(** [listeners] is a list of records by its type, so that the first
    [isinstance] check cannot fail; the two others can.  Whatever the loop
    raises becomes [UpdateListenersError]. *)
Definition update_listeners (h : heap) (listeners : list loc)
    (record_timestamp reward : val) : heap * list loc * outcome :=
  match record_timestamp with
  | VDatetime t =>
      if is_number reward then
        match update_loop (length listeners) h listeners t reward with
        | (h', listeners', None) => (h', listeners', None)
        | (h', listeners', Some _) => (h', listeners', Some UpdateListenersError)
        end
      else (h, listeners, Some TypeError)
  | _ => (h, listeners, Some TypeError)
  end.

(** A listener whose window is over at [record_timestamp]:
    [listener.timestamp + W < t]. *)
Definition expired (h : heap) (record_timestamp : Z) (listener : loc) : bool :=
  match strptime (h listener) with
  | Ok listener_timestamp => listener_timestamp + window <? record_timestamp
  | Raise _ => false
  end.

(** The window-update procedure in the words of the spec: from the tail of
    the list to its head, a listener with [timestamp + W < t] is removed,
    and any other has the contribution added to its reward.  It is
    [update_loop] without the indices. *)
Fixpoint window_update (h : heap) (listeners : list loc)
    (record_timestamp : Z) (reward : val) : heap * list loc * outcome :=
  match listeners with
  | [] => (h, [], None)
  | listener :: rest =>
      match window_update h rest record_timestamp reward with
      | (h', rest', Some e) => (h', listener :: rest', Some e)
      | (h', rest', None) =>
          match strptime (h' listener) with
          | Raise e => (h', listener :: rest', Some e)
          | Ok listener_timestamp =>
              if listener_timestamp + window <? record_timestamp then
                (h', rest', None)
              else
                match add_reward (h' listener) reward with
                | Raise e => (h', listener :: rest', Some e)
                | Ok d => (heap_set h' listener d, listener :: rest', None)
                end
          end
      end
  end.

(** [n] contributions of [reward] to one record. *)
Fixpoint credit (reward : val) (n : nat) (d : record) : result record :=
  match n with
  | O => Ok d
  | S n' => let* d' := credit reward n' d in add_reward d' reward
  end.

(** Contributions that arrive one after the other for one listener list,
    in any order of their timestamps; a call that raises ends them. *)
Fixpoint update_many (h : heap) (listeners : list loc)
    (contributions : list (val * val)) : heap * list loc * outcome :=
  match contributions with
  | [] => (h, listeners, None)
  | (record_timestamp, reward) :: rest =>
      match update_listeners h listeners record_timestamp reward with
      | (h', listeners', None) => update_many h' listeners' rest
      | (h', listeners', Some e) => (h', listeners', Some e)
      end
  end.

(** *** [assign_rewards_to_decisions] *)

(** Modelled from the spec: [utils.sort_records_by_timestamp], which is not
    among the sources.  The spec has it sort the combined records ascending
    by timestamp with a stable sort; the timestamp is the parsed one, and a
    record whose timestamp cannot be read makes the sort raise.  A record
    is inserted before the later records of the same timestamp. *)
Fixpoint insert_by_timestamp (t : Z) (r : loc) (sorted : list (Z * loc))
    : list (Z * loc) :=
  match sorted with
  | [] => [(t, r)]
  | (t', r') :: rest =>
      if t <=? t' then (t, r) :: sorted
      else (t', r') :: insert_by_timestamp t r rest
  end.

Fixpoint timestamps (h : heap) (records : list loc) : result (list (Z * loc)) :=
  match records with
  | [] => Ok []
  | r :: rest =>
      let* t := strptime (h r) in
      let* ts := timestamps h rest in
      Ok ((t, r) :: ts)
  end.

Definition sort_records_by_timestamp (h : heap) (records : list loc)
    : result (list loc) :=
  let* ts := timestamps h records in
  Ok (map snd (fold_right (fun p acc => insert_by_timestamp (fst p) (snd p) acc) [] ts)).

(** [record.get('type') == tag] *)
Definition has_type (d : record) (tag : string) : bool :=
  match d !! "type" with
  | Some (VStr s) => String.eqb s tag
  | _ => false
  end.

(** The type of a record is one of the three that the pass knows. *)
Definition known_type (d : record) : bool :=
  has_type d "decision" || has_type d "rewards" || has_type d "event".

(** The key a decision record joins:
    [hash(record.get('reward_key', DEFAULT_REWARD_KEY))]. *)
Definition decision_key (d : record) : result key :=
  hash_key (default (DEFAULT_REWARD_KEY E) (d !! "reward_key")).

(** The branch of a decision record: it joins the listeners of its key. *)
Definition on_decision (h : heap) (m : listener_map) (r : loc)
    : listener_map * outcome :=
  match decision_key (h r) with
  | Raise e => (m, Some e)
  | Ok k =>
      let listeners := default [] (map_get m k) in
      (map_set m k (listeners ++ [r]), None)
  end.

(** One pair of [record['rewards'].items()].  The list that
    [update_listeners] changes in place is the list of the map when the key
    is there, and a new empty list otherwise. *)
Definition on_reward_pair (h : heap) (m : listener_map) (record_timestamp : val)
    (reward_key : string) (reward : val) : heap * listener_map * outcome :=
  let listeners := default [] (map_get m (KStr reward_key)) in
  match update_listeners h listeners record_timestamp reward with
  | (h', listeners', out) =>
      (h',
       match map_get m (KStr reward_key) with
       | Some _ => map_set m (KStr reward_key) listeners'
       | None => m
       end,
       out)
  end.

Fixpoint rewards_loop (h : heap) (m : listener_map) (record_timestamp : val)
    (items : list (string * val)) : heap * listener_map * outcome :=
  match items with
  | [] => (h, m, None)
  | (reward_key, reward) :: rest =>
      match on_reward_pair h m record_timestamp reward_key reward with
      | (h', m', None) => rewards_loop h' m' record_timestamp rest
      | (h', m', Some e) => (h', m', Some e)
      end
  end.

(** The branch of a rewards record. *)
Definition on_rewards (h : heap) (m : listener_map) (r : loc)
    : heap * listener_map * outcome :=
  match strptime (h r) with
  | Raise e => (h, m, Some e)
  | Ok t =>
      match h r !! "rewards" with
      | None => (h, m, Some KeyError)
      | Some (VDict items) => rewards_loop h m (VDatetime t) items
      | Some _ => (h, m, Some AttributeError)
      end
  end.

(** [record.get('properties', {'properties': {}}).get('value', DEFAULT_EVENTS_REWARD_VALUE)] *)
Fixpoint items_get (items : list (string * val)) (k : string) : option val :=
  match items with
  | [] => None
  | (k', v) :: rest => if String.eqb k' k then Some v else items_get rest k
  end.

Definition event_value (d : record) : result val :=
  match default (VDict [("properties"%string, VDict [])]) (d !! "properties") with
  | VDict items => Ok (default (DEFAULT_EVENTS_REWARD_VALUE E) (items_get items "value"))
  | _ => Raise AttributeError
  end.

(** [for reward_key, listeners in decision_records_by_reward_key.items()] *)
Fixpoint event_loop (h : heap) (entries : listener_map)
    (record_timestamp reward : val) : heap * listener_map * outcome :=
  match entries with
  | [] => (h, [], None)
  | (k, listeners) :: rest =>
      match update_listeners h listeners record_timestamp reward with
      | (h', listeners', Some e) => (h', (k, listeners') :: rest, Some e)
      | (h', listeners', None) =>
          match event_loop h' rest record_timestamp reward with
          | (h'', rest', out) => (h'', (k, listeners') :: rest', out)
          end
      end
  end.

(** The branch of an event record. *)
Definition on_event (h : heap) (m : listener_map) (r : loc)
    : heap * listener_map * outcome :=
  match event_value (h r) with
  | Raise e => (h, m, Some e)
  | Ok reward =>
      match strptime (h r) with
      | Raise e => (h, m, Some e)
      | Ok t => event_loop h m (VDatetime t) reward
      end
  end.

(** The body of [for record in records]. *)
Definition on_record (h : heap) (m : listener_map) (r : loc)
    : heap * listener_map * outcome :=
  if has_type (h r) "decision" then
    match on_decision h m r with (m', out) => (h, m', out) end
  else if has_type (h r) "rewards" then on_rewards h m r
  else if has_type (h r) "event" then on_event h m r
  else (h, m, Some InvalidTypeError).

Fixpoint merge_pass (h : heap) (m : listener_map) (records : list loc)
    : heap * listener_map * outcome :=
  match records with
  | [] => (h, m, None)
  | r :: rest =>
      match on_record h m r with
      | (h', m', None) => merge_pass h' m' rest
      | (h', m', Some e) => (h', m', Some e)
      end
  end.

(** The call leaves the heap it has written to, and returns
    [decision_records] or raises. *)
Definition assign_rewards_to_decisions (h : heap)
    (decision_records reward_records event_records : list loc)
    : heap * result (list loc) :=
  let records := decision_records ++ reward_records ++ event_records in
  match sort_records_by_timestamp h records with
  | Raise e => (h, Raise e)
  | Ok sorted =>
      match merge_pass h [] sorted with
      | (h', _, None) => (h', Ok decision_records)
      | (h', _, Some e) => (h', Raise e)
      end
  end.

(** The record [l] is a decision among [seen] that has joined the
    listeners of the key [k]: [k] is its reward key, up to [==]. *)
Definition joined (h : heap) (seen : list loc) (k : key) (l : loc) : Prop :=
  In l seen /\ has_type (h l) "decision" = true /\
  exists k0, decision_key (h l) = Ok k0 /\ (k = k0 \/ key_eqb k k0 = true).

(** The record [r] can contribute to the decision [l]: it has a timestamp
    at which the window of [l] is not over, and it is a rewards record with
    the reward key of [l] among the keys of its rewards, or an event. *)
Definition rewarded_by (h : heap) (r l : loc) : Prop :=
  exists t, strptime (h r) = Ok t /\ expired h t l = false /\
    ((has_type (h r) "rewards" = true /\
      exists items k v, h r !! "rewards" = Some (VDict items) /\ In (k, v) items /\
                        decision_key (h l) = Ok (KStr k))
     \/ has_type (h r) "event" = true).

(** *** The pass, decision by decision *)

(** The rewards in [rewards], added one after the other. *)
Fixpoint credit_all (rewards : list val) (d : record) : result record :=
  match rewards with
  | [] => Ok d
  | reward :: rest => let* d' := add_reward d reward in credit_all rest d'
  end.

(** What one pair of a rewards record at [t] is worth to the decision [l]:
    its value when the window of [l] is not over and the key of the pair
    is the reward key of [l]. *)
Definition pair_contribution (h : heap) (t : Z) (l : loc) (item : string * val)
    : list val :=
  if expired h t l then []
  else match decision_key (h l) with
       | Ok (KStr k) => if String.eqb (fst item) k then [snd item] else []
       | _ => []
       end.

(** What the record [r] is worth to the decision [l]: the values of its
    pairs for a rewards record, its value for an event, while the window
    of [l] is not over. *)
Definition contribution (h : heap) (r l : loc) : list val :=
  if has_type (h r) "decision" then []
  else if has_type (h r) "rewards" then
    match strptime (h r), h r !! "rewards" with
    | Ok t, Some (VDict items) => flat_map (pair_contribution h t l) items
    | _, _ => []
    end
  else if has_type (h r) "event" then
    match event_value (h r), strptime (h r) with
    | Ok reward, Ok t => if expired h t l then [] else [reward]
    | _, _ => []
    end
  else [].

(** What the records that follow [l] are worth to it, in their order. *)
Definition contributions (h : heap) (records : list loc) (l : loc) : list val :=
  flat_map (fun r => contribution h r l) (after l records).

(** The order in which [sort_records_by_timestamp] leaves the records. *)
Definition not_later (h : heap) (r r' : loc) : Prop :=
  forall t t', strptime (h r) = Ok t -> strptime (h r') = Ok t' -> t <= t'.

(** No record of [rest] is earlier than [t0]. *)
Definition settled (h : heap) (rest : list loc) (t0 : Z) : Prop :=
  forall r t, In r rest -> strptime (h r) = Ok t -> t0 <= t.

(** What holds between two records of the pass, with [seen] behind and
    [rest] ahead: the map holds each decision seen once, under its key,
    unless its window is over for every record ahead. *)
Record pass_invariant (h : heap) (seen rest : list loc) (h1 : heap)
    (m1 : listener_map) : Prop := {
  inv_fields : same_fields h h1;
  inv_keys : keys_distinct m1;
  inv_joined : map_keyed (joined h seen) m1;
  inv_once : List.NoDup (members m1);
  inv_open : forall l,
    In l seen -> has_type (h l) "decision" = true ->
    In l (members m1) \/ exists t0, expired h t0 l = true /\ settled h rest t0
}.

End WithEnv.

(** *** Records for the examples *)

(** A format for the examples: a timestamp is a number of seconds in
    decimal digits. *)
Fixpoint decimal (acc : Z) (s : string) : option Z :=
  match s with
  | EmptyString => Some acc
  | String c s' =>
      let n := Shard.ascii_code c in
      if (48 <=? n) && (n <=? 57) then decimal (10 * acc + (n - 48)) s' else None
  end.

Definition seconds_format (s : string) : option Z :=
  match s with
  | EmptyString => None
  | _ => match decimal 0 s with Some n => Some (n * 1000000) | None => None end
  end.

(** The defaults of the spec's scenarios: reward 0, window 10 seconds. *)
Definition example_env : env := {|
  DEFAULT_REWARD_KEY := VStr "reward";
  DEFAULT_EVENTS_REWARD_VALUE := VFloat 0.5;
  DEFAULT_REWARD_VALUE := VInt 0;
  REWARD_WINDOW := 10;
  DATETIME_FORMAT := seconds_format
|}.

Definition decision_record (reward_key timestamp : string) : record :=
  {[ "type" := VStr "decision"; "reward_key" := VStr reward_key;
     "timestamp" := VStr timestamp ]}.

Definition rewards_record (timestamp : string) (rewards : list (string * val))
    : record :=
  {[ "type" := VStr "rewards"; "timestamp" := VStr timestamp;
     "rewards" := VDict rewards ]}.

Definition event_record (timestamp : string) (value : val) : record :=
  {[ "type" := VStr "event"; "timestamp" := VStr timestamp;
     "properties" := VDict [("value"%string, value)] ]}.

(** A heap that holds the given records at [0], [1], ... *)
Definition heap_of (records : list record) : heap :=
  fun l => default ∅ (records !! l).

(** Two listeners of one key, at 100 s and at 101 s, and a contribution of
    2 at 110.5 s: the window of 10 s is over for the first and not for the
    second. *)
Definition two_listeners : heap :=
  heap_of [decision_record "k" "100"; decision_record "k" "101"].

Definition two_listeners_updated : heap * list loc * outcome :=
  update_listeners example_env two_listeners [0; 1]%nat (VDatetime 110500000) (VInt 2).

(** A decision of key [k] at 100 s, and a reward of 2 for [k] at 105 s. *)
Definition decision_and_reward : heap :=
  heap_of [decision_record "k" "100"; rewards_record "105" [("k"%string, VInt 2)]].

Definition first_run : heap * result (list loc) :=
  assign_rewards_to_decisions example_env decision_and_reward [0%nat] [1%nat] [].

Definition second_run : heap * result (list loc) :=
  assign_rewards_to_decisions example_env (fst first_run) [0%nat] [1%nat] [].

(** The same two records, in a heap that holds a third. *)
Definition decision_and_reward_reloaded : heap :=
  heap_of [decision_record "k" "100"; rewards_record "105" [("k"%string, VInt 2)];
           event_record "200" (VInt 7)].

(** The decision and the reward, and a record of type [click] at 103 s. *)
Definition click_record : record :=
  {[ "type" := VStr "click"; "timestamp" := VStr "103" ]}.

Definition with_click : heap :=
  heap_of [decision_record "k" "100"; rewards_record "105" [("k"%string, VInt 2)];
           click_record].

(** A reward that is a string at 101 s, before the [click] record. *)
Definition with_click_and_string : heap :=
  heap_of [decision_record "k" "100"; rewards_record "101" [("k"%string, VStr "2")];
           click_record].

(** Two decisions of key [k] at 0 s and 1 s and an event of value 3 at 2 s,
    as they are when the pass reaches the event; the key [gone] has lost
    all its listeners. *)
Definition two_decisions_and_event : heap :=
  heap_of [decision_record "k" "0"; decision_record "k" "1"; event_record "2" (VInt 3)].

Definition open_listeners : listener_map :=
  [(KStr "gone", []); (KStr "k", [0; 1]%nat)].

Definition event_merged : heap * listener_map * outcome :=
  on_event example_env two_decisions_and_event open_listeners 2%nat.

(** An event whose [properties] are [null]. *)
Definition null_properties_event : heap :=
  heap_of [ {[ "type" := VStr "event"; "timestamp" := VStr "2";
               "properties" := VNone ]} ].

(** An event whose value is a string, and a map whose one key has lost all
    its listeners. *)
Definition string_event : heap := heap_of [event_record "2" (VStr "3")].

Definition no_listeners : listener_map := [(KStr "gone", [])].

(** A decision of key [gone] at 0 s, a reward for it at 100 s, after its
    window, and an event at 200 s whose value is a string. *)
Definition expired_then_string_event : heap :=
  heap_of [decision_record "gone" "0";
           rewards_record "100" [("gone"%string, VInt 1)];
           event_record "200" (VStr "3")].

(** A decision of key [k] at 100 s and, at 105 s, a reward that is a string
    for the key [other]. *)
Definition string_reward_for_other : heap :=
  heap_of [decision_record "k" "100";
           rewards_record "105" [("other"%string, VStr "2")]].

(** One decision of key [k], merged. *)
Definition one_decision : heap := heap_of [decision_record "k" "100"].

Definition one_decision_merged : heap * listener_map * outcome :=
  merge_pass example_env one_decision [] [0%nat].

Definition decision_and_reward_merged : heap * listener_map * outcome :=
  merge_pass example_env decision_and_reward [] [0; 1]%nat.

(** An [int] too large for a float: [float(2 ** 1024)] raises
    [OverflowError]. *)
Definition huge_reward : val := VInt (2 ^ 1024).

(** The two listeners after a contribution of 1 at 105 s, and then after a
    contribution of 2 at 110.5 s. *)
Definition two_listeners_first : heap * list loc * outcome :=
  update_listeners example_env two_listeners [0; 1]%nat (VDatetime 105000000) (VInt 1).

Definition two_listeners_second : heap * list loc * outcome :=
  update_listeners example_env (fst (fst two_listeners_first))
    (snd (fst two_listeners_first)) (VDatetime 110500000) (VInt 2).

End JoinRewards.

(** ** The ingest orchestrator: [worker] and [process_decisions] *)

Module IngestFirehose.

(** [worker] is followed from its [with] block on, for the partitions that
    [load_groups] and [partitions_from_firehose_record_group] have made.
    The threads of the pool, the main thread and the signal handler are the
    steps of a transition system, and a run is a schedule of steps.  The
    pool is that of [concurrent.futures]: a unit that raises, [SystemExit]
    included, keeps its exception for the main thread, which raises it when
    it takes the result of the unit.  The test of [SIGTERM] and the call of
    [process] are two steps of a pool thread, and the signal handler can
    run between them.  [process] and
    [repair_overlapping_keys] are not among the sources: they are steps
    that return, or for [process] raise. *)

(** A [RewardedDecisionPartition], as far as [worker] uses it: its model
    name, and the key that tells it from the other partitions. *)
Record partition : Type := {
  model_name : string;
  s3_key : string
}.

(** [sorted(decision_partitions, key=sort_key)]: stable, by model name. *)
Fixpoint insert_by_name (p : partition) (sorted : list partition) : list partition :=
  match sorted with
  | [] => [p]
  | q :: rest =>
      if String.leb (model_name p) (model_name q) then p :: sorted
      else q :: insert_by_name p rest
  end.

Definition sorted (decision_partitions : list partition) : list partition :=
  fold_right insert_by_name [] decision_partitions.

(** [itertools.groupby(_, sort_key)]: the runs of one model name. *)
Fixpoint groupby (ps : list partition) : list (string * list partition) :=
  match ps with
  | [] => []
  | p :: rest =>
      match groupby rest with
      | (name, g) :: gs =>
          if String.eqb (model_name p) name then (name, p :: g) :: gs
          else (model_name p, [p]) :: (name, g) :: gs
      | [] => [(model_name p, [p])]
      end
  end.

Definition groups (decision_partitions : list partition)
    : list (string * list partition) :=
  groupby (sorted decision_partitions).

(** The order of the model names. *)
Definition name_le (p q : partition) : Prop :=
  String.leb (model_name p) (model_name q) = true.

(** A unit is one call [process_decisions(decision_partition)] that
    [executor.map] has submitted to the pool: waiting for a thread; past
    the test of [SIGTERM], which it has read as [False], and before the
    call of [process]; in [process]; returned from [process]; left by
    [sys.exit()]; left by an exception of [process]; cancelled. *)
Inductive unit_state : Type :=
  | Pending
  | Checked
  | Running
  | Processed
  | Exited
  | Failed
  | Cancelled.

(** Where the main thread is in [worker]: before the [with] block; in
    [list(executor.map(..))], about to take the result of unit [i];
    leaving the [with] block, normally or with the exception of a unit; in
    the loop over the groups, with the groups still to repair; returned;
    left by an exception. *)
Inductive phase : Type :=
  | Entering
  | Mapping (i : nat)
  | Leaving
  | Unwinding (system_exit : bool)
  | Repairing (rest : list (string * list partition))
  | Finished
  | Terminated (system_exit : bool).

(** What the run does that the claims speak of. *)
Inductive event : Type :=
  | Process (u : nat)
  | ProcessReturn (u : nat)
  | SysExit (u : nat)
  | Repair (name : string) (model_decision_partitions : list partition).

Record state : Type := {
  SIGTERM : bool;
  units : list unit_state;
  main : phase;
  trace : list event
}.

(** The steps of the threads and of the environment.
    - [Signal]: [signal_handler] runs.
    - [Enter]: the main thread makes the pool, which raises [ValueError]
      for a count of 0, and [executor.map] submits every unit.
    - [Start u]: a pool thread calls [process_decisions] on unit [u]; it
      reads [SIGTERM] and raises [SystemExit] when it is set.
    - [Call u]: the thread, past the test, calls [process]; the signal
      handler can have run since the test.
    - [Return u], [Fail u]: [process] returns, or raises.
    - [Collect]: the main thread, in [list(executor.map(..))], takes the
      result of the next unit; an exception of the unit is raised in the
      main thread, and the units not started are cancelled.
    - [Join]: the [with] block is left, once no unit is running.
    - [RepairNext]: the body of the [for] loop over the groups.
    - [Finish]: the loop is over and [worker] returns. *)
Inductive action : Type :=
  | Signal
  | Enter
  | Start (u : nat)
  | Call (u : nat)
  | Return (u : nat)
  | Fail (u : nat)
  | Collect
  | Join
  | RepairNext
  | Finish.

(** The unit holds a thread of the pool. *)
Definition is_running (st : unit_state) : bool :=
  match st with Checked | Running => true | _ => false end.

Definition running (us : list unit_state) : nat :=
  length (List.filter is_running us).

Definition cancel_pending (us : list unit_state) : list unit_state :=
  map (fun st => match st with Pending => Cancelled | _ => st end) us.

(** The calls of [repair_overlapping_keys] of a trace, in order. *)
Fixpoint repairs (tr : list event) : list (string * list partition) :=
  match tr with
  | [] => []
  | Repair name g :: rest => (name, g) :: repairs rest
  | _ :: rest => repairs rest
  end.

Definition repair_events (gs : list (string * list partition)) : list event :=
  map (fun g => Repair (fst g) (snd g)) gs.

(** Every unit has been processed. *)
Definition all_processed (us : list unit_state) : Prop :=
  forall u, (u < length us)%nat -> us !! u = Some Processed.

(** The calls of [process] on unit [u] of a trace. *)
Fixpoint processes (tr : list event) (u : nat) : nat :=
  match tr with
  | [] => 0
  | Process v :: rest => (if Nat.eqb v u then 1 else 0) + processes rest u
  | _ :: rest => processes rest u
  end.

(** [process] has been called on a unit in this state. *)
Definition has_started (st : unit_state) : bool :=
  match st with
  | Running | Processed | Failed => true
  | Pending | Checked | Exited | Cancelled => false
  end.

Definition started (st : option unit_state) : nat :=
  match st with
  | Some st => if has_started st then 1 else 0
  | None => 0
  end.

Section WithCount.

(** [THREAD_WORKER_COUNT] *)
Variable THREAD_WORKER_COUNT : nat.

Variable decision_partitions : list partition.

(** The state in which [worker] reaches the [with] block. *)
Definition init : state := {|
  SIGTERM := false;
  units := [];
  main := Entering;
  trace := []
|}.

(** [signal_handler]: [SIGTERM = True]. *)
Definition signal_handler (s : state) : state :=
  {| SIGTERM := true; units := units s; main := main s; trace := trace s |}.

(** [process_decisions] for unit [u], up to the call of [process]: the
    test [if SIGTERM], and [sys.exit()] when the flag is set. *)
Definition process_decisions (u : nat) (s : state) : state :=
  if SIGTERM s then
    {| SIGTERM := SIGTERM s; units := <[u := Exited]> (units s);
       main := main s; trace := trace s ++ [SysExit u] |}
  else
    {| SIGTERM := SIGTERM s; units := <[u := Checked]> (units s);
       main := main s; trace := trace s |}.

(** The last statement of [process_decisions]: the call
    [decision_partition.process()], whatever [SIGTERM] is by then. *)
Definition call_process (u : nat) (s : state) : state :=
  {| SIGTERM := SIGTERM s; units := <[u := Running]> (units s);
     main := main s; trace := trace s ++ [Process u] |}.

(** The steps of the main thread in [worker]. *)
Definition worker (a : action) (s : state) : option state :=
  match a with
  | Enter =>
      match main s with
      | Entering =>
          if (THREAD_WORKER_COUNT =? 0)%nat then
            Some {| SIGTERM := SIGTERM s; units := units s; main := Terminated false;
                    trace := trace s |}
          else
            Some {| SIGTERM := SIGTERM s;
                    units := replicate (length decision_partitions) Pending;
                    main := Mapping 0; trace := trace s |}
      | _ => None
      end
  | Collect =>
      match main s with
      | Mapping i =>
          match units s !! i with
          | None =>
              Some {| SIGTERM := SIGTERM s; units := units s; main := Leaving;
                      trace := trace s |}
          | Some Processed =>
              Some {| SIGTERM := SIGTERM s; units := units s; main := Mapping (S i);
                      trace := trace s |}
          | Some Exited =>
              Some {| SIGTERM := SIGTERM s; units := cancel_pending (units s);
                      main := Unwinding true; trace := trace s |}
          | Some Failed =>
              Some {| SIGTERM := SIGTERM s; units := cancel_pending (units s);
                      main := Unwinding false; trace := trace s |}
          | Some _ => None
          end
      | _ => None
      end
  | Join =>
      if (running (units s) =? 0)%nat then
        match main s with
        | Leaving =>
            Some {| SIGTERM := SIGTERM s; units := units s;
                    main := Repairing (groups decision_partitions); trace := trace s |}
        | Unwinding e =>
            Some {| SIGTERM := SIGTERM s; units := units s; main := Terminated e;
                    trace := trace s |}
        | _ => None
        end
      else None
  | RepairNext =>
      match main s with
      | Repairing ((name, g) :: rest) =>
          Some {| SIGTERM := SIGTERM s; units := units s; main := Repairing rest;
                  trace := trace s ++ [Repair name g] |}
      | _ => None
      end
  | Finish =>
      match main s with
      | Repairing [] =>
          Some {| SIGTERM := SIGTERM s; units := units s; main := Finished;
                  trace := trace s |}
      | _ => None
      end
  | _ => None
  end.

(** One step of the run: of the signal handler, of a pool thread, which
    takes a unit when fewer than [THREAD_WORKER_COUNT] are running, or of
    the main thread. *)
Definition step (a : action) (s : state) : option state :=
  match a with
  | Signal => Some (signal_handler s)
  | Start u =>
      match units s !! u with
      | Some Pending =>
          if (running (units s) <? THREAD_WORKER_COUNT)%nat
          then Some (process_decisions u s)
          else None
      | _ => None
      end
  | Call u =>
      match units s !! u with
      | Some Checked => Some (call_process u s)
      | _ => None
      end
  | Return u =>
      match units s !! u with
      | Some Running =>
          Some {| SIGTERM := SIGTERM s; units := <[u := Processed]> (units s);
                  main := main s; trace := trace s ++ [ProcessReturn u] |}
      | _ => None
      end
  | Fail u =>
      match units s !! u with
      | Some Running =>
          Some {| SIGTERM := SIGTERM s; units := <[u := Failed]> (units s);
                  main := main s; trace := trace s |}
      | _ => None
      end
  | Enter | Collect | Join | RepairNext | Finish => worker a s
  end.

(** A run under a schedule; [None] when a step of the schedule cannot be
    taken. *)
Fixpoint run (schedule : list action) (s : state) : option state :=
  match schedule with
  | [] => Some s
  | a :: rest =>
      match step a s with
      | Some s' => run rest s'
      | None => None
      end
  end.

(** What holds of every state of a run: calls of [repair_overlapping_keys]
    are made in the phase of the repairs only, one group after the other,
    and that phase is entered with every unit processed. *)
Record invariant (s : state) : Prop := {
  inv_returned : forall u,
    units s !! u = Some Processed -> In (ProcessReturn u) (trace s);
  inv_exited : forall u,
    In (SysExit u) (trace s) -> units s !! u = Some Exited /\ SIGTERM s = true;
  inv_main :
    match main s with
    | Entering => units s = [] /\ trace s = []
    | Mapping i =>
        length (units s) = length decision_partitions /\
        repairs (trace s) = [] /\
        forall u, (u < i)%nat -> units s !! u = Some Processed
    | Leaving =>
        length (units s) = length decision_partitions /\
        repairs (trace s) = [] /\ all_processed (units s)
    | Unwinding _ | Terminated _ => repairs (trace s) = []
    | Repairing rest =>
        length (units s) = length decision_partitions /\
        all_processed (units s) /\
        exists done before,
          groups decision_partitions = done ++ rest /\
          trace s = before ++ repair_events done /\ repairs before = []
    | Finished =>
        length (units s) = length decision_partitions /\
        all_processed (units s) /\
        exists before,
          trace s = before ++ repair_events (groups decision_partitions) /\
          repairs before = []
    end
}.

End WithCount.

(** The schedule of one thread that takes the units in their order, without
    a signal. *)
Definition sequential_schedule (n : nat) (gs : list (string * list partition))
    : list action :=
  [Enter]
  ++ concat (map (fun u => [Start u; Call u; Return u; Collect]) (seq 0 n))
  ++ [Collect; Join]
  ++ replicate (length gs) RepairNext
  ++ [Finish].

(** *** A run for the examples *)

Definition three_partitions : list partition :=
  [ {| model_name := "songs"; s3_key := "a" |};
    {| model_name := "ads"; s3_key := "b" |};
    {| model_name := "songs"; s3_key := "c" |} ].

(** Two threads; the signal comes while the last unit runs, and no unit
    reads it. *)
Definition full_schedule : list action :=
  [ Enter; Start 0%nat; Call 0%nat; Start 1%nat; Call 1%nat; Return 1%nat;
    Start 2%nat; Call 2%nat; Signal; Return 0%nat;
    Collect; Collect; Return 2%nat; Collect; Collect; Join;
    RepairNext; RepairNext; Finish ].

(** The signal comes before the last unit starts. *)
Definition cancelled_schedule : list action :=
  [ Enter; Start 0%nat; Call 0%nat; Start 1%nat; Call 1%nat; Return 1%nat; Signal;
    Start 2%nat; Return 0%nat; Collect; Collect; Collect; Join ].

Definition finished_state : state := {|
  SIGTERM := true;
  units := [Processed; Processed; Processed];
  main := Finished;
  trace :=
    [ Process 0; Process 1; ProcessReturn 1; Process 2; ProcessReturn 0;
      ProcessReturn 2;
      Repair "ads" [ {| model_name := "ads"; s3_key := "b" |} ];
      Repair "songs" [ {| model_name := "songs"; s3_key := "a" |};
                       {| model_name := "songs"; s3_key := "c" |} ] ]
|}.

Definition cancelled_state : state := {|
  SIGTERM := true;
  units := [Processed; Processed; Exited];
  main := Terminated true;
  trace := [ Process 0; Process 1; ProcessReturn 1; SysExit 2; ProcessReturn 0 ]
|}.

(** The signal has come while unit 1 is between the test of the flag and
    the call of [process], and unit 2 waits. *)
Definition signalled_state : state := {|
  SIGTERM := true;
  units := [Processed; Checked; Pending];
  main := Mapping 0;
  trace := [ Process 0; ProcessReturn 0 ]
|}.

Definition signalled_schedule : list action :=
  [ Call 1%nat; Return 1%nat; Start 2%nat; Collect; Collect; Collect; Join ].

Definition signalled_end : state := {|
  SIGTERM := true;
  units := [Processed; Processed; Exited];
  main := Terminated true;
  trace := [ Process 0; ProcessReturn 0; Process 1; ProcessReturn 1; SysExit 2 ]
|}.

(** A run that reaches [signalled_state]. *)
Definition late_signal_schedule : list action :=
  [ Enter; Start 0%nat; Call 0%nat; Return 0%nat; Start 1%nat; Signal ].

End IngestFirehose.

(** ** Properties of the shard assigner *)

Module ShardFacts.
Import Shard.

Lemma is_hex_not_space (c : ascii) : is_hex c = true -> is_space c = false.
Proof. destruct c as [[] [] [] [] [] [] [] []]; vm_compute; congruence. Qed.

Lemma is_hex_not_underscore (c : ascii) : is_hex c = true -> is_underscore c = false.
Proof. destruct c as [[] [] [] [] [] [] [] []]; vm_compute; congruence. Qed.

Lemma is_hex_not_sign (c : ascii) :
  is_hex c = true -> (ascii_code c =? 43) = false /\ (ascii_code c =? 45) = false.
Proof. destruct c as [[] [] [] [] [] [] [] []]; vm_compute; intuition congruence. Qed.

Lemma is_hex_not_x (c : ascii) :
  is_hex c = true -> (ascii_code c =? 120) || (ascii_code c =? 88) = false.
Proof. destruct c as [[] [] [] [] [] [] [] []]; vm_compute; congruence. Qed.

Lemma is_hex_digit (c : ascii) : is_hex c = true -> exists d, hex_digit c = Some d.
Proof. unfold is_hex. destruct (hex_digit c); [eauto | discriminate]. Qed.

Lemma lstrip_hex (s : list ascii) : all_hex s -> lstrip s = s.
Proof.
  intros H. destruct H as [|c s Hc _]; [reflexivity|].
  simpl. now rewrite (is_hex_not_space c Hc).
Qed.

Lemma strip_hex (s : list ascii) : all_hex s -> strip s = s.
Proof.
  intros H. unfold strip. rewrite (lstrip_hex s H).
  rewrite lstrip_hex by (now apply List.Forall_rev).
  apply rev_involutive.
Qed.

Lemma hex_digits_hex (s : list ascii) :
  all_hex s -> forall acc, exists v, hex_digits false acc s = Some v.
Proof.
  induction 1 as [|c s Hc _ IH]; intros acc; simpl; [eauto|].
  rewrite (is_hex_not_underscore c Hc).
  destruct (is_hex_digit c Hc) as [d ->]. apply IH.
Qed.

Lemma hex_signed_number_hex (s : list ascii) :
  all_hex s -> s <> [] -> exists v, hex_signed_number s = Some v.
Proof.
  intros H Hne. destruct H as [|c s Hc Hs]; [congruence|].
  assert (Hnum : exists v, hex_number (c :: s) = Some v).
  { unfold hex_number. rewrite (is_hex_not_underscore c Hc).
    apply hex_digits_hex. now constructor. }
  assert (Hpre : hex_prefixed_number (c :: s) = hex_number (c :: s)).
  { unfold hex_prefixed_number. destruct Hs as [|x s' Hx _]; [reflexivity|].
    rewrite (is_hex_not_x x Hx), andb_false_r. reflexivity. }
  unfold hex_signed_number.
  destruct (is_hex_not_sign c Hc) as [-> ->]. now rewrite Hpre.
Qed.

(** On a name that begins with 16 hexadecimal characters, [int] returns. *)
Lemma int16_hex_prefixed (f : string) :
  hex_prefixed f = true -> exists v, int16 (name_prefix f) = Ok v.
Proof.
  unfold hex_prefixed, int16. intros H.
  apply andb_prop in H as [Hlen Hall].
  apply Nat.eqb_eq in Hlen.
  assert (Hhex : all_hex (list_ascii_of_string (name_prefix f))).
  { apply List.Forall_forall. exact (proj1 (List.forallb_forall _ _) Hall). }
  rewrite (strip_hex _ Hhex).
  destruct (hex_signed_number_hex _ Hhex) as [v ->]; [|eauto].
  intros E. rewrite E in Hlen. discriminate.
Qed.

(** The loop returns the files it owns, in listing order, whenever every
    file has a shard. *)
Lemma identify_loop_filter (files : list string) (node_id node_count : Z) :
  (forall f, In f files -> exists r, shard_of node_count f = Ok r) ->
  forall acc,
    identify_loop files node_id node_count acc
    = Ok (acc ++ List.filter (owned_by node_count node_id) files).
Proof.
  induction files as [|f rest IH]; intros Hall acc; simpl.
  - now rewrite app_nil_r.
  - destruct (Hall f (or_introl eq_refl)) as [r Hr].
    unfold owned_by at 1. unfold shard_of in Hr.
    destruct (int16 (name_prefix f)) as [v|e] eqn:Ev; simpl in *; [|discriminate].
    unfold shard_of. rewrite Ev. simpl. rewrite Hr. simpl.
    destruct (r =? node_id).
    + rewrite IH by (intros; apply Hall; now right).
      now rewrite <- app_assoc.
    + apply IH. intros; apply Hall; now right.
Qed.

Lemma filter_complement_perm {A : Type} (p : A -> bool) (l : list A) :
  Permutation (List.filter p l ++ List.filter (fun x => negb (p x)) l) l.
Proof.
  induction l as [|x l IH]; simpl; [constructor|].
  destruct (p x); simpl.
  - now constructor.
  - symmetry. apply Permutation_cons_app. now symmetry.
Qed.

Lemma filter_disjoint {A : Type} (p q : A -> bool) (l : list A) :
  (forall x, In x l -> p x = true -> q x = true -> False) ->
  List.filter p l = List.filter p (List.filter (fun x => negb (q x)) l).
Proof.
  induction l as [|x l IH]; intros H; simpl; [reflexivity|].
  assert (IH' := IH (fun y Hy => H y (or_intror Hy))).
  destruct (p x) eqn:Ep, (q x) eqn:Eq; simpl; rewrite ?Ep.
  - destruct (H x (or_introl eq_refl) Ep Eq).
  - now f_equal.
  - exact IH'.
  - exact IH'.
Qed.

(** Splitting a list among owners: when every element has exactly one
    owner among [ns], the owners' shares put together are the list. *)
Lemma shares_perm {A : Type} (p : Z -> A -> bool) (ns : list Z) :
  List.NoDup ns ->
  forall l : list A,
    (forall x, In x l -> exists n, In n ns /\ forall m, p m x = true <-> m = n) ->
    Permutation (concat (map (fun n => List.filter (p n) l) ns)) l.
Proof.
  induction 1 as [|n ns Hn Hnd IH]; intros l Hown; simpl.
  - destruct l as [|x l]; [constructor|].
    destruct (Hown x (or_introl eq_refl)) as (n & [] & _).
  - set (l' := List.filter (fun x => negb (p n x)) l).
    assert (Hl' : forall x, In x l' -> In x l /\ p n x = false).
    { intros x Hx. apply filter_In in Hx as [Hx Hp].
      split; [exact Hx|]. now destruct (p n x). }
    assert (Hsame : map (fun m => List.filter (p m) l) ns
                    = map (fun m => List.filter (p m) l') ns).
    { apply map_ext_in. intros m Hm. apply filter_disjoint.
      intros x Hx Em En.
      destruct (Hown x Hx) as (k & _ & Hk).
      apply Hk in Em. apply Hk in En. subst. contradiction. }
    rewrite Hsame.
    rewrite (IH l').
    + apply filter_complement_perm.
    + intros x Hx. destruct (Hl' x Hx) as [Hin Hp].
      destruct (Hown x Hin) as (k & [Hk|Hk] & Huniq).
      * subst k. rewrite (proj2 (Huniq n) eq_refl) in Hp. discriminate.
      * exists k. split; [exact Hk | exact Huniq].
Qed.

Lemma node_ids_NoDup (node_count : Z) : List.NoDup (node_ids node_count).
Proof.
  unfold node_ids. apply Injective_map_NoDup.
  - intros a b. apply Nat2Z.inj.
  - apply seq_NoDup.
Qed.

Lemma node_ids_In (node_count n : Z) : In n (node_ids node_count) <-> 0 <= n < node_count.
Proof.
  unfold node_ids. rewrite in_map_iff. split.
  - intros (k & <- & Hk). apply in_seq in Hk. lia.
  - intros Hn. exists (Z.to_nat n). split; [lia|]. apply in_seq. lia.
Qed.

Lemma shard_of_hex_prefixed (node_count : Z) (f : string) :
  node_count <> 0 -> hex_prefixed f = true ->
  exists v, int16 (name_prefix f) = Ok v /\ shard_of node_count f = Ok (v mod node_count).
Proof.
  intros HC Hf. destruct (int16_hex_prefixed f Hf) as [v Hv].
  exists v. split; [exact Hv|].
  unfold shard_of, py_mod. rewrite Hv. simpl.
  destruct (node_count =? 0) eqn:E; [|reflexivity].
  apply Z.eqb_eq in E. contradiction.
Qed.

Lemma owned_by_spec (node_count node_id : Z) (f : string) :
  node_count <> 0 ->
  owned_by node_count node_id f = true <->
  exists v, int16 (name_prefix f) = Ok v /\ v mod node_count = node_id.
Proof.
  intros HC. unfold owned_by, shard_of, py_mod.
  destruct (node_count =? 0) eqn:E; [apply Z.eqb_eq in E; contradiction|].
  destruct (int16 (name_prefix f)) as [v|e]; simpl.
  - rewrite Z.eqb_eq. split.
    + intros <-. eauto.
    + intros (w & [= <-] & Hw). exact Hw.
  - split; [discriminate|]. intros (w & Hw & _). discriminate.
Qed.

(** C1.  For a node count [C > 0] and input files whose names begin with 16
    hexadecimal characters, every call of [identify_files_to_process]
    returns; a file is in the share of node [n] exactly when the integer of
    its first 16 characters is [n] modulo [C]; every file is in the share
    of exactly one node, whose id lies in [0 .. C-1]; and the shares of the
    nodes [0 .. C-1] put together are the input files, each as often as it
    is listed. *)
Theorem identify_files_partition (input_dir : directory) (node_count : Z) :
  0 < node_count ->
  (forall f, In f (glob input_dir) -> hex_prefixed f = true) ->
  exists share : Z -> list string,
    (forall node_id,
        identify_files_to_process input_dir node_id node_count = Ok (share node_id)) /\
    (forall f node_id,
        In f (share node_id) <->
        In f (glob input_dir) /\
        exists v, int16 (name_prefix f) = Ok v /\ v mod node_count = node_id) /\
    (forall f, In f (glob input_dir) ->
        exists node_id, 0 <= node_id < node_count /\ In f (share node_id) /\
                        forall n, In f (share n) -> n = node_id) /\
    Permutation (concat (map share (node_ids node_count))) (glob input_dir).
Proof.
  intros HC Hhex.
  assert (HC0 : node_count <> 0) by lia.
  exists (fun n => List.filter (owned_by node_count n) (glob input_dir)).
  assert (Hshare : forall f n,
             In f (List.filter (owned_by node_count n) (glob input_dir)) <->
             In f (glob input_dir) /\
             exists v, int16 (name_prefix f) = Ok v /\ v mod node_count = n).
  { intros f n. rewrite filter_In, (owned_by_spec _ _ _ HC0). reflexivity. }
  assert (Hone : forall f, In f (glob input_dir) ->
             exists n, 0 <= n < node_count /\
                       forall m, owned_by node_count m f = true <-> m = n).
  { intros f Hf.
    destruct (shard_of_hex_prefixed node_count f HC0 (Hhex f Hf)) as (v & Hv & _).
    exists (v mod node_count). split; [apply Z.mod_pos_bound; lia|].
    intros m. rewrite (owned_by_spec _ _ _ HC0). split.
    - intros (w & Hw & <-). congruence.
    - intros ->. eauto. }
  split; [|split; [|split]].
  - intros node_id. unfold identify_files_to_process.
    rewrite identify_loop_filter; [reflexivity|].
    intros f Hf.
    destruct (shard_of_hex_prefixed node_count f HC0 (Hhex f Hf)) as (v & _ & Hv).
    eauto.
  - apply Hshare.
  - intros f Hf. destruct (Hone f Hf) as (n & Hn & Huniq).
    exists n. split; [exact Hn|]. split.
    + apply filter_In. split; [exact Hf|]. now apply Huniq.
    + intros m Hm. apply filter_In in Hm as [_ Hm]. now apply Huniq.
  - apply shares_perm; [apply node_ids_NoDup|].
    intros f Hf. destruct (Hone f Hf) as (n & Hn & Huniq).
    exists n. split; [now apply node_ids_In | exact Huniq].
Qed.

Lemma identify_files_partition_witness :
  exists share : Z -> list string,
    (forall node_id,
        identify_files_to_process six_files node_id 3 = Ok (share node_id)) /\
    (forall f node_id,
        In f (share node_id) <->
        In f (glob six_files) /\
        exists v, int16 (name_prefix f) = Ok v /\ v mod 3 = node_id) /\
    (forall f, In f (glob six_files) ->
        exists node_id, 0 <= node_id < 3 /\ In f (share node_id) /\
                        forall n, In f (share n) -> n = node_id) /\
    Permutation (concat (map share (node_ids 3))) (glob six_files).
Proof.
  apply (identify_files_partition six_files 3).
  - lia.
  - intros f Hf. vm_compute in Hf.
    repeat (destruct Hf as [<-|Hf]; [reflexivity|]). destruct Hf.
Defined.

Example identify_six_files_node1 :
  identify_files_to_process six_files 1 3
  = Ok ["0000000000000001b.jsonl.gz"; "0000000000000004e.jsonl.gz"]%string.
Proof. reflexivity. Qed.

(** C5, the claim as stated fails: with [node_count = -3] the call returns
    files, and with no input file it returns the empty list even for
    [node_count = 0]. *)
Lemma nonpositive_count_returns :
  ~ (forall (input_dir : directory) (node_id node_count : Z),
        node_count <= 0 ->
        exists e, identify_files_to_process input_dir node_id node_count = Raise e).
Proof.
  intros H. destruct (H six_files 0 (-3) ltac:(lia)) as [e He].
  vm_compute in He. discriminate.
Qed.

Example identify_negative_count :
  identify_files_to_process six_files (-2) (-3)
  = Ok ["0000000000000001b.jsonl.gz"; "0000000000000004e.jsonl.gz"]%string.
Proof. reflexivity. Qed.

Example identify_zero_count_no_files :
  identify_files_to_process ["README.txt"%string] 0 0 = Ok [].
Proof. reflexivity. Qed.

(** C5, amended.  The code has no check of [node_count].  With
    [node_count = 0] and at least one input file the call raises at the
    first file and returns no file: [ZeroDivisionError] from the modulo
    when the first 16 characters of its name read as a hexadecimal number,
    [ValueError] when they are ASCII characters that do not.  With
    [node_count = 0] and no input file it returns the empty list, and with
    [node_count < 0] and names that begin with 16 hexadecimal characters
    it returns the files whose shard is [node_id]. *)
Theorem identify_nonpositive_count (input_dir : directory) (node_id node_count : Z) :
  node_count <= 0 ->
  (node_count = 0 ->
     forall f rest, glob input_dir = f :: rest ->
       ((exists v, int16 (name_prefix f) = Ok v) ->
          identify_files_to_process input_dir node_id node_count
          = Raise ZeroDivisionError) /\
       (ascii_prefixed f = true -> (forall v, int16 (name_prefix f) <> Ok v) ->
          identify_files_to_process input_dir node_id node_count
          = Raise ValueError)) /\
  (node_count = 0 -> glob input_dir = [] ->
     identify_files_to_process input_dir node_id node_count = Ok []) /\
  (node_count < 0 ->
     (forall f, In f (glob input_dir) -> hex_prefixed f = true) ->
     identify_files_to_process input_dir node_id node_count
     = Ok (List.filter (owned_by node_count node_id) (glob input_dir))).
Proof.
  intros _. unfold identify_files_to_process. split; [|split].
  - intros -> f rest ->. simpl. split.
    + intros [v ->]. reflexivity.
    + intros _ Hbad. destruct (int16 (name_prefix f)) as [v|e] eqn:Ev.
      * destruct (Hbad v eq_refl).
      * unfold int16 in Ev. destruct (hex_signed_number _); [discriminate|].
        injection Ev as <-. reflexivity.
  - intros _ ->. reflexivity.
  - intros Hneg Hhex. rewrite identify_loop_filter; [reflexivity|].
    intros f Hf.
    destruct (shard_of_hex_prefixed node_count f ltac:(lia) (Hhex f Hf))
      as (v & _ & Hv).
    eauto.
Qed.

Lemma six_files_hex_prefixed (f : string) :
  In f (glob six_files) -> hex_prefixed f = true.
Proof.
  intros Hf. vm_compute in Hf.
  repeat (destruct Hf as [<-|Hf]; [reflexivity|]). destruct Hf.
Qed.

Lemma identify_nonpositive_count_witness :
  identify_files_to_process six_files 1 0 = Raise ZeroDivisionError /\
  identify_files_to_process notes_first 1 0 = Raise ValueError /\
  identify_files_to_process ["README.txt"%string] 1 0 = Ok [] /\
  identify_files_to_process six_files 0 (-3)
  = Ok (List.filter (owned_by (-3) 0) (glob six_files)).
Proof.
  split; [|split; [|split]].
  - apply (proj1 (proj1 (identify_nonpositive_count six_files 1 0 ltac:(lia))
                    eq_refl _ _ eq_refl)).
    exists 0. reflexivity.
  - apply (proj2 (proj1 (identify_nonpositive_count notes_first 1 0 ltac:(lia))
                    eq_refl _ _ eq_refl)).
    + reflexivity.
    + intros v H. vm_compute in H. discriminate.
  - apply (proj1 (proj2 (identify_nonpositive_count ["README.txt"%string] 1 0
                           ltac:(lia)))); reflexivity.
  - apply (proj2 (proj2 (identify_nonpositive_count six_files 0 (-3) ltac:(lia)))).
    + lia.
    + exact six_files_hex_prefixed.
Defined.

Example identify_zero_count :
  identify_files_to_process six_files 1 0 = Raise ZeroDivisionError.
Proof. reflexivity. Qed.

End ShardFacts.

(** ** Properties of the window update *)

Module UpdateFacts.
Import JoinRewards.

Section WithEnv.

Variable E : env.

Lemma heap_set_same (h : heap) (l : loc) (d : record) : heap_set h l d l = d.
Proof. unfold heap_set. now rewrite Nat.eqb_refl. Qed.

Lemma heap_set_other (h : heap) (l l' : loc) (d : record) :
  l' <> l -> heap_set h l d l' = h l'.
Proof. intros H. unfold heap_set. now apply Nat.eqb_neq in H as ->. Qed.

(** [add_reward] writes the field [reward] and no other. *)
Lemma add_reward_fields (d d' : record) (reward : val) (field : string) :
  add_reward E d reward = Ok d' -> field <> "reward"%string -> d' !! field = d !! field.
Proof.
  unfold add_reward. intros H Hf.
  destruct (to_float reward) as [f|]; simpl in H; [|discriminate].
  destruct (add_float _ f) as [r|]; simpl in H; [|discriminate].
  injection H as <-. now rewrite lookup_insert_ne.
Qed.

Lemma add_reward_strptime (d d' : record) (reward : val) :
  add_reward E d reward = Ok d' -> strptime E d' = strptime E d.
Proof.
  intros H. unfold strptime.
  now rewrite (add_reward_fields d d' reward "timestamp" H).
Qed.

Lemma delete_app_l {A : Type} (suf : list A) :
  forall (ls : list A) (n : nat),
    (n < length ls)%nat -> delete n (ls ++ suf) = delete n ls ++ suf.
Proof.
  induction ls as [|y ls IH]; intros [|n] Hn; simpl in *; try lia; [reflexivity|].
  f_equal. apply IH. lia.
Qed.

Lemma delete_snoc {A : Type} (x : A) (pre : list A) :
  delete (length pre) (pre ++ [x]) = pre.
Proof. induction pre as [|y pre IH]; simpl; [reflexivity | now f_equal]. Qed.

(** The loop visits the first [n] indices only. *)
Lemma update_loop_app (t : Z) (reward : val) (suf : list loc) :
  forall (n : nat) (ls : list loc) (h : heap),
    (n <= length ls)%nat ->
    update_loop E n h (ls ++ suf) t reward
    = match update_loop E n h ls t reward with
      | (h', ls', out) => (h', ls' ++ suf, out)
      end.
Proof.
  induction n as [|n IH]; intros ls h Hn; simpl; [reflexivity|].
  rewrite lookup_app_l by lia.
  destruct (ls !! n) as [x|] eqn:Ex; [|reflexivity].
  destruct (strptime E (h x)) as [lt|e]; [|reflexivity].
  destruct (lt + window E <? t).
  - rewrite delete_app_l by lia.
    apply IH. rewrite length_delete by eauto. lia.
  - destruct (add_reward E (h x) reward) as [d|e]; [|reflexivity].
    apply IH. lia.
Qed.

(** The window update, with the last listener taken first. *)
Lemma window_update_snoc (t : Z) (reward : val) (x : loc) :
  forall (pre : list loc) (h : heap),
    window_update E h (pre ++ [x]) t reward
    = match strptime E (h x) with
      | Raise e => (h, pre ++ [x], Some e)
      | Ok lt =>
          if lt + window E <? t then window_update E h pre t reward
          else match add_reward E (h x) reward with
               | Raise e => (h, pre ++ [x], Some e)
               | Ok d =>
                   match window_update E (heap_set h x d) pre t reward with
                   | (h', pre', out) => (h', pre' ++ [x], out)
                   end
               end
      end.
Proof.
  induction pre as [|l pre IH]; intros h.
  - simpl. destruct (strptime E (h x)) as [lt|e]; [|reflexivity].
    destruct (lt + window E <? t); [reflexivity|].
    now destruct (add_reward E (h x) reward).
  - change ((l :: pre) ++ [x]) with (l :: (pre ++ [x])).
    cbn [window_update]. rewrite IH.
    destruct (strptime E (h x)) as [lt|e]; [|reflexivity].
    destruct (lt + window E <? t); [reflexivity|].
    destruct (add_reward E (h x) reward) as [d|e]; [|reflexivity].
    destruct (window_update E (heap_set h x d) pre t reward) as [[h' pre'] [e|]];
      [reflexivity|].
    destruct (strptime E (h' l)) as [lt'|e]; [|reflexivity].
    destruct (lt' + window E <? t); [reflexivity|].
    now destruct (add_reward E (h' l) reward).
Qed.

(** The loop over the indices is the window update of the spec. *)
Lemma update_loop_window (t : Z) (reward : val) :
  forall (ls : list loc) (h : heap),
    update_loop E (length ls) h ls t reward = window_update E h ls t reward.
Proof.
  induction ls as [|x pre IH] using rev_ind; intros h; [reflexivity|].
  rewrite window_update_snoc, length_app, Nat.add_1_r. cbn [update_loop].
  rewrite lookup_app_r, Nat.sub_diag by lia. cbn [lookup list_lookup].
  destruct (strptime E (h x)) as [lt|e]; [|reflexivity].
  destruct (lt + window E <? t).
  - rewrite delete_snoc. apply IH.
  - destruct (add_reward E (h x) reward) as [d|e]; [|reflexivity].
    rewrite update_loop_app by lia. now rewrite IH.
Qed.

Lemma strptime_fields (d d' : record) :
  d' !! "timestamp" = d !! "timestamp" -> strptime E d' = strptime E d.
Proof. unfold strptime. now intros ->. Qed.

(** What the window update does in every case, also when it raises: it
    writes the field [reward] only, it writes to listeners of the list
    only, and it leaves a sublist. *)
Lemma window_update_frame (t : Z) (reward : val) :
  forall (ls : list loc) (h h' : heap) (ls' : list loc) (out : outcome),
    window_update E h ls t reward = (h', ls', out) ->
    (forall l field, field <> "reward"%string -> h' l !! field = h l !! field) /\
    (forall l, ~ In l ls -> h' l = h l) /\
    sublist ls' ls.
Proof.
  induction ls as [|x rest IH]; intros h h' ls' out H; simpl in H.
  - injection H as <- <- <-. repeat split; constructor.
  - destruct (window_update E h rest t reward) as [[h1 rest'] out1] eqn:E1.
    destruct (IH _ _ _ _ E1) as (Hf & Hu & Hs).
    assert (Hu' : forall l, ~ In l (x :: rest) -> h1 l = h l).
    { intros l Hl. apply Hu. intros Hin. apply Hl. now right. }
    assert (Hskip : sublist rest' (x :: rest)) by now apply sublist_cons.
    assert (Hkeep : sublist (x :: rest') (x :: rest)) by now apply sublist_skip.
    destruct out1 as [e|]; [injection H as <- <- <-; auto|].
    destruct (strptime E (h1 x)) as [lt|e]; [|injection H as <- <- <-; auto].
    destruct (lt + window E <? t); [injection H as <- <- <-; auto|].
    destruct (add_reward E (h1 x) reward) as [d|e] eqn:Ed;
      injection H as <- <- <-; auto.
    split; [|split; [|exact Hkeep]].
    + intros l field Hfield. destruct (Nat.eq_dec l x) as [->|Hne].
      * rewrite heap_set_same, (add_reward_fields _ _ _ _ Ed Hfield). now apply Hf.
      * rewrite heap_set_other by exact Hne. now apply Hf.
    + intros l Hl. rewrite heap_set_other; [now apply Hu'|].
      intros ->. apply Hl. now left.
Qed.

(** One contribution is one [add_reward]. *)
Lemma credit_once (reward : val) (d : record) :
  credit E reward 1 d = add_reward E d reward.
Proof. reflexivity. Qed.

Lemma credit_ok_S (reward : val) (n : nat) (d d1 d2 : record) :
  credit E reward n d = Ok d1 -> add_reward E d1 reward = Ok d2 ->
  credit E reward (S n) d = Ok d2.
Proof. intros H1 H2. simpl. now rewrite H1. Qed.

(** What the window update does when it returns: the listeners that are
    left are those that had not expired, in their order, and a record has
    received the contribution once for each time it is left in the list. *)
Lemma window_update_returns (t : Z) (reward : val) :
  forall (ls : list loc) (h h' : heap) (ls' : list loc),
    window_update E h ls t reward = (h', ls', None) ->
    ls' = List.filter (fun l => negb (expired E h t l)) ls /\
    forall l, credit E reward (count_occ Nat.eq_dec ls' l) (h l) = Ok (h' l).
Proof.
  induction ls as [|x rest IH]; intros h h' ls' H; simpl in H.
  - injection H as <- <-. split; reflexivity.
  - destruct (window_update E h rest t reward) as [[h1 rest'] [e|]] eqn:E1;
      [discriminate|].
    destruct (IH _ _ _ E1) as (Hl & Hc).
    destruct (window_update_frame _ _ _ _ _ _ _ E1) as (Hf & _ & _).
    assert (Ht : strptime E (h1 x) = strptime E (h x)).
    { apply strptime_fields. now apply Hf. }
    simpl. unfold expired at 1. rewrite <- Ht.
    destruct (strptime E (h1 x)) as [lt|e]; [|discriminate].
    destruct (lt + window E <? t); simpl.
    + injection H as <- <-. split; [exact Hl | exact Hc].
    + destruct (add_reward E (h1 x) reward) as [d|e] eqn:Ed; [|discriminate].
      injection H as <- <-. split; [now f_equal|].
      intros l. simpl. destruct (Nat.eq_dec x l) as [<-|Hne].
      * rewrite heap_set_same. exact (credit_ok_S _ _ _ _ _ (Hc x) Ed).
      * rewrite heap_set_other by congruence. apply Hc.
Qed.

(** [update_listeners] by its cases. *)
Lemma update_listeners_cases (h : heap) (ls : list loc) (ts reward : val) :
  (exists t, ts = VDatetime t /\ is_number reward = true /\
     match window_update E h ls t reward with
     | (h', ls', None) => update_listeners E h ls ts reward = (h', ls', None)
     | (h', ls', Some _) =>
         update_listeners E h ls ts reward = (h', ls', Some UpdateListenersError)
     end) \/
  (((forall t, ts <> VDatetime t) \/ is_number reward = false) /\
   update_listeners E h ls ts reward = (h, ls, Some TypeError)).
Proof.
  unfold update_listeners.
  destruct ts; try (right; split; [left; congruence | reflexivity]).
  destruct (is_number reward) eqn:Hn; [|right; split; [now right | reflexivity]].
  left. exists t. split; [reflexivity|]. split; [reflexivity|].
  rewrite update_loop_window.
  now destruct (window_update E h ls t reward) as [[h' ls'] [e|]].
Qed.

Lemma update_listeners_returns (h h' : heap) (ls ls' : list loc) (ts reward : val) :
  update_listeners E h ls ts reward = (h', ls', None) ->
  exists t, ts = VDatetime t /\ is_number reward = true /\
            window_update E h ls t reward = (h', ls', None).
Proof.
  intros H. destruct (update_listeners_cases h ls ts reward) as [(t & -> & Hn & Hw)|[_ Hw]].
  - exists t. split; [reflexivity|]. split; [exact Hn|].
    destruct (window_update E h ls t reward) as [[h1 ls1] [e|]];
      rewrite Hw in H; [discriminate|]. now injection H as <- <-.
  - rewrite Hw in H. discriminate.
Qed.

(** In every case the call writes the field [reward] only, of listeners of
    the list only, and leaves a sublist. *)
Lemma update_listeners_frame (h h' : heap) (ls ls' : list loc) (ts reward : val)
    (out : outcome) :
  update_listeners E h ls ts reward = (h', ls', out) ->
  (forall l field, field <> "reward"%string -> h' l !! field = h l !! field) /\
  (forall l, ~ In l ls -> h' l = h l) /\
  sublist ls' ls.
Proof.
  intros H. destruct (update_listeners_cases h ls ts reward) as [(t & -> & Hn & Hw)|[_ Hw]].
  - destruct (window_update E h ls t reward) as [[h1 ls1] out1] eqn:E1.
    apply window_update_frame in E1.
    destruct out1; rewrite Hw in H; injection H as <- <- <-; exact E1.
  - rewrite Hw in H. injection H as <- <- <-. repeat split; reflexivity.
Qed.




Lemma sublist_In (ls' ls : list loc) (l : loc) :
  sublist ls' ls -> In l ls' -> In l ls.
Proof.
  intros Hs Hl. apply list_elem_of_In. apply list_elem_of_In in Hl.
  exact (elem_of_sublist _ _ _ Hl Hs).
Qed.

Lemma count_occ_filter (p : loc -> bool) (l : loc) (ls : list loc) :
  count_occ Nat.eq_dec (List.filter p ls) l
  = if p l then count_occ Nat.eq_dec ls l else 0%nat.
Proof.
  induction ls as [|x ls IH]; simpl; [now destruct (p l)|].
  destruct (Nat.eq_dec x l) as [->|Hne].
  - destruct (p l) eqn:Ep; simpl; [|exact IH].
    destruct (Nat.eq_dec l l); [now f_equal | congruence].
  - destruct (p x); simpl; [|exact IH].
    destruct (Nat.eq_dec x l); [congruence | exact IH].
Qed.

(** A listener that is not in the list stays out of it and is not written
    to, whatever contributions follow and however they end. *)
Lemma update_many_absent (l : loc) (contributions : list (val * val)) :
  forall (h h' : heap) (ls ls' : list loc) (out : outcome),
    update_many E h ls contributions = (h', ls', out) ->
    ~ In l ls -> ~ In l ls' /\ h' l = h l.
Proof.
  induction contributions as [|[ts reward] rest IH]; intros h h' ls ls' out H Hl;
    simpl in H.
  - injection H as <- <- <-. now split.
  - destruct (update_listeners E h ls ts reward) as [[h1 ls1] out1] eqn:E1.
    destruct (update_listeners_frame _ _ _ _ _ _ _ E1) as (_ & Hu & Hs).
    assert (Hl1 : ~ In l ls1) by (intros Hin; apply Hl; exact (sublist_In _ _ _ Hs Hin)).
    destruct out1 as [e|].
    + injection H as <- <- <-. split; [exact Hl1 | now apply Hu].
    + destruct (IH _ _ _ _ _ H Hl1) as [Hout Hh]. split; [exact Hout|].
      rewrite Hh. now apply Hu.
Qed.

(** What [float(v)] is when [to_float] returns. *)
Lemma to_float_value (v : val) (x : float) :
  to_float v = Ok x ->
  match v with
  | VFloat y => x = y
  | VInt z => x = float_of_Z z /\ is_infinite x = false
  | VBool b => x = (if b then 1 else 0)%float
  | _ => False
  end.
Proof.
  destruct v as [|b|z|y| | | |]; simpl; try discriminate.
  - now intros [= <-].
  - unfold float_of_int. destruct (is_infinite (float_of_Z z)) eqn:Ei; [discriminate|].
    intros [= <-]. now split.
  - now intros [= <-].
Qed.

(** What contributions make of a record: its reward, or the default, as
    a float, with the contribution as a float added each time. *)
Lemma credit_value (reward : val) (n : nat) :
  forall d d' : record,
    credit E reward (S n) d = Ok d' ->
    exists a f,
      to_float (default (DEFAULT_REWARD_VALUE E) (d !! "reward")) = Ok a /\
      to_float reward = Ok f /\
      d' = <["reward" := VFloat (Nat.iter (S n) (fun x => (x + f)%float) a)]> d.
Proof.
  induction n as [|n IH]; intros d d' H.
  - rewrite credit_once in H. unfold add_reward in H.
    destruct (to_float reward) as [f|] eqn:Ef; simpl in H; [|discriminate].
    destruct (default _ (d !! "reward")) as [|b|z|a| | | |]; simpl in H;
      try discriminate.
    + injection H as <-. exists (if b then 1 else 0)%float, f. auto.
    + simpl. destruct (float_of_int z) as [a|]; simpl in H; [|discriminate].
      injection H as <-. exists a, f. auto.
    + injection H as <-. exists a, f. auto.
  - change (credit E reward (S (S n)) d)
      with (bind (credit E reward (S n) d) (fun d1 => add_reward E d1 reward)) in H.
    destruct (credit E reward (S n) d) as [d1|] eqn:E1; simpl in H; [|discriminate].
    destruct (IH d d1 E1) as (a & f & Ha & Hf & ->).
    exists a, f. split; [exact Ha|]. split; [exact Hf|].
    unfold add_reward in H. rewrite Hf, lookup_insert_eq in H. simpl in H.
    injection H as <-. now rewrite insert_insert_eq.
Qed.

(** C2, amended.  In a call of [update_listeners] that returns, for a
    listener of the list with timestamp [t0] and a contribution at [t]:
    when [t <= t0 + W] the listener stays in the list and the reward of its
    record is the reward it had, or the default, as a float, with the
    contribution as a float added once for each time the listener is in
    the list, its other fields being as before (the float of a float is
    itself, of an [int] the nearest float, which is finite, of a [bool] 1
    or 0); when [t > t0 + W] the
    listener is out of the list and its record is as before, and after any
    further contributions to that list, of any timestamps and in any
    order, it is still out of the list and its record is still as
    before. *)
Theorem update_listeners_window (h h' : heap) (ls ls' : list loc) (t : Z)
    (reward : val) (l : loc) (t0 : Z) :
  update_listeners E h ls (VDatetime t) reward = (h', ls', None) ->
  In l ls ->
  strptime E (h l) = Ok t0 ->
  let float_is (v : val) (x : float) :=
    match v with
    | VFloat y => x = y
    | VInt z => x = float_of_Z z /\ is_infinite x = false
    | VBool b => x = (if b then 1 else 0)%float
    | _ => False
    end in
  (t <= t0 + window E ->
     In l ls' /\
     exists a f,
       float_is (default (DEFAULT_REWARD_VALUE E) (h l !! "reward")) a /\
       float_is reward f /\
       h' l = <["reward" :=
                 VFloat (Nat.iter (count_occ Nat.eq_dec ls l)
                           (fun x => (x + f)%float) a)]> (h l)) /\
  (t0 + window E < t ->
     ~ In l ls' /\ h' l = h l /\
     forall contributions h'' ls'' out,
       update_many E h' ls' contributions = (h'', ls'', out) ->
       ~ In l ls'' /\ h'' l = h l).
Proof.
  intros H Hl Ht float_is.
  apply update_listeners_returns in H as (t' & [= <-] & _ & Hw).
  destruct (window_update_returns _ _ _ _ _ _ Hw) as (Hls & Hc).
  assert (Hexp : expired E h t l = (t0 + window E <? t)).
  { unfold expired. now rewrite Ht. }
  assert (Hcount := Hc l). rewrite Hls, count_occ_filter, Hexp in Hcount.
  split; intros Hwin.
  - apply Z.ltb_ge in Hwin. rewrite Hwin in *. simpl in Hcount.
    split; [rewrite Hls; apply filter_In; split; [exact Hl | now rewrite Hexp]|].
    apply (count_occ_In Nat.eq_dec) in Hl.
    destruct (count_occ Nat.eq_dec ls l) as [|n]; [lia|].
    destruct (credit_value _ _ _ _ Hcount) as (a & f & Ha & Hf & Heq).
    exists a, f. split; [exact (to_float_value _ _ Ha)|].
    split; [exact (to_float_value _ _ Hf) | exact Heq].
  - apply Z.ltb_lt in Hwin. rewrite Hwin in *. simpl in Hcount.
    assert (Hout : ~ In l ls').
    { rewrite Hls. intros Hin. apply filter_In in Hin as [_ Hin].
      rewrite Hexp in Hin. discriminate. }
    assert (Hh : h' l = h l) by congruence.
    split; [exact Hout|]. split; [exact Hh|].
    intros cs h'' ls'' out Hmany.
    destruct (update_many_absent l cs _ _ _ _ _ Hmany Hout) as [Hout' Hh'].
    split; [exact Hout' | congruence].
Qed.

(** C10.  In a call of [update_listeners] that returns, the listeners that
    are left are a sublist of the listeners given, in their order, and
    every field but [reward] of every record is as before. *)
Theorem update_listeners_survivors (h h' : heap) (ls ls' : list loc)
    (ts reward : val) :
  update_listeners E h ls ts reward = (h', ls', None) ->
  sublist ls' ls /\
  forall l field, field <> "reward"%string -> h' l !! field = h l !! field.
Proof.
  intros H. destruct (update_listeners_frame _ _ _ _ _ _ _ H) as (Hf & _ & Hs).
  split; [exact Hs | exact Hf].
Qed.

(** C6, amended.  A contribution that is not a number, or a timestamp that
    is not a [datetime], makes [update_listeners] raise [TypeError], as its
    docstring says, before it reads a listener: the list and the records
    are as before.  With a number and a [datetime] the call returns or
    raises [UpdateListenersError], which stands for whatever fails inside
    the loop. *)
Theorem update_listeners_type_error (h : heap) (ls : list loc) (ts reward : val) :
  (is_number reward = false \/ (forall t, ts <> VDatetime t) ->
   update_listeners E h ls ts reward = (h, ls, Some TypeError)) /\
  (is_number reward = true -> (exists t, ts = VDatetime t) ->
   snd (update_listeners E h ls ts reward) = None \/
   snd (update_listeners E h ls ts reward) = Some UpdateListenersError).
Proof.
  destruct (update_listeners_cases h ls ts reward) as [(t & -> & Hn & Hw)|[Hbad Hw]].
  - split.
    + intros [H|H]; [congruence | now destruct (H t)].
    + intros _ _.
      destruct (window_update E h ls t reward) as [[h' ls'] [e|]]; rewrite Hw; auto.
  - split; [intros _; exact Hw|].
    intros Hn [t ->]. destruct Hbad as [H|H]; [now destruct (H t) | congruence].
Qed.

End WithEnv.

Example two_listeners_updated_list : snd (fst two_listeners_updated) = [1%nat].
Proof. reflexivity. Qed.

Example two_listeners_updated_reward :
  fst (fst two_listeners_updated) 1%nat !! "reward" = Some (VFloat 2).
Proof. reflexivity. Qed.

Lemma two_listeners_updated_eq :
  update_listeners example_env two_listeners [0; 1]%nat (VDatetime 110500000) (VInt 2)
  = (fst (fst two_listeners_updated), snd (fst two_listeners_updated), None).
Proof. reflexivity. Defined.

(** C2, the claim as stated fails: a contribution that is a number too
    large for a float makes the call raise at the last listener, whose
    window is open, and the first listener, whose window is over, stays in
    the list. *)
Lemma update_listeners_window_overflow :
  ~ (forall (E : env) (h : heap) (ls : list loc) (t : Z) (reward : val) (l : loc)
            (t0 : Z),
        is_number reward = true ->
        In l ls ->
        strptime E (h l) = Ok t0 ->
        (t <= t0 + window E ->
           In l (snd (fst (update_listeners E h ls (VDatetime t) reward))) /\
           fst (fst (update_listeners E h ls (VDatetime t) reward)) l <> h l) /\
        (t0 + window E < t ->
           ~ In l (snd (fst (update_listeners E h ls (VDatetime t) reward))))).
Proof.
  intros H.
  destruct (H example_env two_listeners [0; 1]%nat 110500000 huge_reward 0%nat
              100000000 eq_refl (or_introl eq_refl) eq_refl) as [_ Hgone].
  apply Hgone; [vm_compute; reflexivity|].
  vm_compute. now left.
Qed.

(** In its window, the same number leaves the rewards as they were. *)
Example update_listeners_overflow_in_window :
  update_listeners example_env two_listeners [0; 1]%nat (VDatetime 105000000)
    huge_reward
  = (two_listeners, [0; 1]%nat, Some UpdateListenersError).
Proof. reflexivity. Qed.

Lemma update_listeners_window_witness :
  (In 1%nat (snd (fst two_listeners_updated)) /\
   exists a f,
     (a = float_of_Z 0 /\ is_infinite a = false) /\
     (f = float_of_Z 2 /\ is_infinite f = false) /\
     fst (fst two_listeners_updated) 1%nat
     = <["reward" :=
          VFloat (Nat.iter (count_occ Nat.eq_dec [0; 1]%nat 1%nat)
                    (fun x => (x + f)%float) a)]> (two_listeners 1%nat)) /\
  (~ In 0%nat (snd (fst two_listeners_updated)) /\
   fst (fst two_listeners_updated) 0%nat = two_listeners 0%nat /\
   forall contributions h'' ls'' out,
     update_many example_env (fst (fst two_listeners_updated))
       (snd (fst two_listeners_updated)) contributions = (h'', ls'', out) ->
     ~ In 0%nat ls'' /\ h'' 0%nat = two_listeners 0%nat).
Proof.
  split.
  - apply (proj1 (update_listeners_window example_env two_listeners _ [0; 1]%nat _
                    110500000 (VInt 2) 1%nat 101000000 two_listeners_updated_eq
                    (or_intror (or_introl eq_refl)) eq_refl)).
    vm_compute. discriminate.
  - apply (proj2 (update_listeners_window example_env two_listeners _ [0; 1]%nat _
                    110500000 (VInt 2) 0%nat 100000000 two_listeners_updated_eq
                    (or_introl eq_refl) eq_refl)).
    vm_compute. reflexivity.
Defined.

Lemma update_listeners_survivors_witness :
  sublist (snd (fst two_listeners_updated)) [0; 1]%nat /\
  forall l field, field <> "reward"%string ->
    fst (fst two_listeners_updated) l !! field = two_listeners l !! field.
Proof.
  apply (update_listeners_survivors example_env two_listeners _ [0; 1]%nat _
           (VDatetime 110500000) (VInt 2)).
  exact two_listeners_updated_eq.
Defined.

(** C6, the claim as stated fails: a contribution that is a string raises
    [TypeError], not [UpdateListenersError]. *)
Lemma update_listeners_string_reward :
  ~ (forall (E : env) (h : heap) (ls : list loc) (ts reward : val),
        is_number reward = false \/ (forall t, ts <> VDatetime t) ->
        snd (update_listeners E h ls ts reward) = Some UpdateListenersError).
Proof.
  intros H.
  specialize (H example_env two_listeners [0; 1]%nat (VDatetime 105000000)
                (VStr "2") (or_introl eq_refl)).
  vm_compute in H. discriminate.
Qed.

Lemma update_listeners_type_error_witness :
  update_listeners example_env two_listeners [0; 1]%nat (VDatetime 105000000) (VStr "2")
  = (two_listeners, [0; 1]%nat, Some TypeError).
Proof.
  apply (proj1 (update_listeners_type_error example_env two_listeners [0; 1]%nat
                  (VDatetime 105000000) (VStr "2"))).
  left. reflexivity.
Defined.

(** A listener without a timestamp: the loop raises [KeyError], and the
    call [UpdateListenersError]. *)
Example update_listeners_no_timestamp :
  snd (update_listeners example_env (heap_of [∅]) [0%nat] (VDatetime 0) (VInt 1))
  = Some UpdateListenersError.
Proof. reflexivity. Qed.

End UpdateFacts.

(** ** Properties of the merge pass *)

Module MergeFacts.
Import JoinRewards UpdateFacts.

Lemma same_fields_refl (h : heap) : same_fields h h.
Proof. now intros l field _. Qed.

Lemma same_fields_trans (h1 h2 h3 : heap) :
  same_fields h1 h2 -> same_fields h2 h3 -> same_fields h1 h3.
Proof. intros H12 H23 l field Hf. rewrite (H23 l field Hf). now apply H12. Qed.

Lemma same_fields_has_type (h h' : heap) (l : loc) (tag : string) :
  same_fields h h' -> has_type (h' l) tag = has_type (h l) tag.
Proof. intros H. unfold has_type. now rewrite (H l "type"). Qed.

Lemma key_eqb_str (k : key) (s : string) : key_eqb k (KStr s) = true <-> k = KStr s.
Proof.
  destruct k; simpl; try (split; [discriminate|congruence]).
  rewrite String.eqb_eq. split; congruence.
Qed.

Lemma map_get_str_None (m : listener_map) (s : string) :
  map_get m (KStr s) = None <-> ~ In (KStr s) (keys m).
Proof.
  induction m as [|[k ls] m IH]; simpl; [tauto|].
  destruct (key_eqb k (KStr s)) eqn:Ek.
  - apply key_eqb_str in Ek. split; [discriminate | intros H; destruct H; now left].
  - rewrite IH. split; [|tauto].
    intros H [Hk|Hin]; [|tauto].
    apply key_eqb_str in Hk. congruence.
Qed.

Lemma map_set_keys_present (m : listener_map) (k : key) (ls0 ls : list loc) :
  map_get m k = Some ls0 -> keys (map_set m k ls) = keys m.
Proof.
  induction m as [|[k' ls'] m IH]; simpl; [discriminate|].
  destruct (key_eqb k' k); simpl; [reflexivity|].
  intros H. f_equal. now apply IH.
Qed.

Lemma map_set_keys (m : listener_map) (k k' : key) (ls : list loc) :
  In k' (keys (map_set m k ls)) -> k' = k \/ In k' (keys m).
Proof.
  induction m as [|[k0 ls0] m IH]; simpl.
  - intros [H|[]]. now left.
  - destruct (key_eqb k0 k); simpl; [tauto|].
    intros [H|H]; [tauto|]. destruct (IH H); tauto.
Qed.

Section WithEnv.

Variable E : env.

Lemma same_fields_strptime (h h' : heap) (l : loc) :
  same_fields h h' -> strptime E (h' l) = strptime E (h l).
Proof. intros H. apply strptime_fields. now apply H. Qed.

Lemma same_fields_decision_key (h h' : heap) (l : loc) :
  same_fields h h' -> decision_key E (h' l) = decision_key E (h l).
Proof. intros H. unfold decision_key. now rewrite (H l "reward_key"). Qed.

Lemma on_reward_pair_frame (h h' : heap) (m m' : listener_map) (ts : val)
    (reward_key : string) (reward : val) (out : outcome) :
  on_reward_pair E h m ts reward_key reward = (h', m', out) ->
  same_fields h h' /\ keys m' = keys m.
Proof.
  unfold on_reward_pair. intros H.
  destruct (update_listeners E h _ ts reward) as [[h1 ls1] out1] eqn:E1.
  injection H as <- <- <-.
  destruct (update_listeners_frame _ _ _ _ _ _ _ _ E1) as (Hf & _ & _).
  split; [exact Hf|].
  destruct (map_get m (KStr reward_key)) as [ls0|] eqn:Eg; [|reflexivity].
  exact (map_set_keys_present _ _ _ _ Eg).
Qed.

Lemma rewards_loop_frame (ts : val) (items : list (string * val)) :
  forall (h h' : heap) (m m' : listener_map) (out : outcome),
    rewards_loop E h m ts items = (h', m', out) ->
    same_fields h h' /\ keys m' = keys m.
Proof.
  induction items as [|[k v] rest IH]; intros h h' m m' out H; simpl in H.
  - injection H as <- <- <-. split; [apply same_fields_refl | reflexivity].
  - destruct (on_reward_pair E h m ts k v) as [[h1 m1] out1] eqn:E1.
    destruct (on_reward_pair_frame _ _ _ _ _ _ _ _ E1) as [Hf Hk].
    destruct out1 as [e|].
    + injection H as <- <- <-. now split.
    + destruct (IH _ _ _ _ _ H) as [Hf' Hk']. split.
      * exact (same_fields_trans _ _ _ Hf Hf').
      * congruence.
Qed.

Lemma event_loop_frame (ts reward : val) :
  forall (m : listener_map) (h h' : heap) (m' : listener_map) (out : outcome),
    event_loop E h m ts reward = (h', m', out) ->
    same_fields h h' /\ keys m' = keys m.
Proof.
  induction m as [|[k ls] rest IH]; intros h h' m' out H; simpl in H.
  - injection H as <- <- <-. split; [apply same_fields_refl | reflexivity].
  - destruct (update_listeners E h ls ts reward) as [[h1 ls1] out1] eqn:E1.
    destruct (update_listeners_frame _ _ _ _ _ _ _ _ E1) as (Hf & _ & _).
    destruct out1 as [e|].
    + injection H as <- <- <-. now split.
    + destruct (event_loop E h1 rest ts reward) as [[h2 rest'] out2] eqn:E2.
      injection H as <- <- <-.
      destruct (IH _ _ _ _ E2) as [Hf' Hk]. split.
      * exact (same_fields_trans _ _ _ Hf Hf').
      * unfold keys in *. simpl. now f_equal.
Qed.

(** A record of the pass writes [reward] fields only, and a key that it
    adds to the map is the key of a decision record. *)
Lemma on_record_frame (h h' : heap) (m m' : listener_map) (r : loc) (out : outcome) :
  on_record E h m r = (h', m', out) ->
  same_fields h h' /\
  forall k, In k (keys m') ->
    In k (keys m) \/ (has_type (h r) "decision" = true /\ decision_key E (h r) = Ok k).
Proof.
  unfold on_record. intros H.
  destruct (has_type (h r) "decision") eqn:Td.
  - unfold on_decision in H.
    destruct (decision_key E (h r)) as [k0|e] eqn:Ek; injection H as <- <- <-;
      (split; [apply same_fields_refl|]); intros k Hk; [|now left].
    destruct (map_set_keys _ _ _ _ Hk) as [->|Hin]; [now right | now left].
  - destruct (has_type (h r) "rewards").
    + unfold on_rewards in H.
      destruct (strptime E (h r)) as [t|e];
        [|injection H as <- <- <-; split; [apply same_fields_refl | now left]].
      destruct (h r !! "rewards") as [[]|];
        try (injection H as <- <- <-; split; [apply same_fields_refl | now left]).
      destruct (rewards_loop_frame _ _ _ _ _ _ _ H) as [Hf Hk].
      split; [exact Hf|]. intros k. rewrite Hk. now left.
    + destruct (has_type (h r) "event");
        [|injection H as <- <- <-; split; [apply same_fields_refl | now left]].
      unfold on_event in H.
      destruct (event_value E (h r)) as [v|e];
        [|injection H as <- <- <-; split; [apply same_fields_refl | now left]].
      destruct (strptime E (h r)) as [t|e];
        [|injection H as <- <- <-; split; [apply same_fields_refl | now left]].
      destruct (event_loop_frame _ _ _ _ _ _ _ H) as [Hf Hk].
      split; [exact Hf|]. intros k. rewrite Hk. now left.
Qed.

Lemma merge_pass_frame (records : list loc) :
  forall (h h' : heap) (m m' : listener_map) (out : outcome),
    merge_pass E h m records = (h', m', out) ->
    same_fields h h' /\
    forall k, In k (keys m') ->
      In k (keys m) \/
      exists r, In r records /\ has_type (h r) "decision" = true /\
                decision_key E (h r) = Ok k.
Proof.
  induction records as [|r rest IH]; intros h h' m m' out H; simpl in H.
  - injection H as <- <- <-. split; [apply same_fields_refl | now left].
  - destruct (on_record E h m r) as [[h1 m1] out1] eqn:E1.
    destruct (on_record_frame _ _ _ _ _ _ E1) as [Hf Hk].
    assert (Hstep : forall k, In k (keys m1) ->
              In k (keys m) \/
              exists r0, In r0 (r :: rest) /\ has_type (h r0) "decision" = true /\
                         decision_key E (h r0) = Ok k).
    { intros k Hin. destruct (Hk k Hin) as [?|[? ?]]; [now left|].
      right. exists r. simpl. auto. }
    destruct out1 as [e|]; [injection H as <- <- <-; now split|].
    destruct (IH _ _ _ _ _ H) as [Hf' Hk']. split.
    + exact (same_fields_trans _ _ _ Hf Hf').
    + intros k Hin. destruct (Hk' k Hin) as [Hin1|(r0 & Hr0 & Ht & Hd)].
      * now apply Hstep.
      * right. exists r0. split; [now right|].
        rewrite <- (same_fields_has_type h h1 r0 _ Hf).
        rewrite <- (same_fields_decision_key h h1 r0 Hf). now split.
Qed.

Lemma same_fields_expired (h h' : heap) (t : Z) (l : loc) :
  same_fields h h' -> expired E h' t l = expired E h t l.
Proof. intros H. unfold expired. now rewrite (same_fields_strptime h h' l H). Qed.

Lemma credit_add (reward : val) (n k : nat) (d d1 d2 : record) :
  credit E reward n d = Ok d1 -> credit E reward k d1 = Ok d2 ->
  credit E reward (n + k) d = Ok d2.
Proof.
  intros Hn. revert d2. induction k as [|k IH]; intros d2 Hk; simpl in Hk.
  - rewrite Nat.add_0_r. congruence.
  - rewrite Nat.add_succ_r. simpl.
    destruct (credit E reward k d1) as [d'|e]; simpl in Hk; [|discriminate].
    now rewrite (IH d' eq_refl).
Qed.

(** On an empty list a contribution that is a number does nothing. *)
Lemma update_listeners_nil (h : heap) (t : Z) (reward : val) :
  is_number reward = true ->
  update_listeners E h [] (VDatetime t) reward = (h, [], None).
Proof. intros H. unfold update_listeners. now rewrite H. Qed.

(** A contribution that is not a number raises at the first list it
    meets, whatever the list. *)
Lemma on_reward_pair_not_number (h : heap) (m : listener_map) (t : Z)
    (reward_key : string) (reward : val) :
  is_number reward = false ->
  snd (on_reward_pair E h m (VDatetime t) reward_key reward) = Some TypeError.
Proof. intros H. unfold on_reward_pair, update_listeners. now rewrite H. Qed.

Lemma event_loop_not_number (h : heap) (m : listener_map) (t : Z) (reward : val) :
  is_number reward = false -> m <> [] ->
  event_loop E h m (VDatetime t) reward = (h, m, Some TypeError).
Proof.
  intros H Hm. destruct m as [|[k ls] rest]; [congruence|].
  cbn [event_loop]. unfold update_listeners. now rewrite H.
Qed.

(** C9, amended.  After the records [seen], none of which is a decision of
    the key [reward_key], a pair of that key and a number in a rewards
    record does nothing: the key is not in the listener map, the map and
    every record are as before, and nothing is raised.  (A reward that is
    not a number raises [TypeError], whatever the listeners.) *)
Theorem reward_pair_unseen_key (h h1 : heap) (m1 : listener_map) (seen : list loc)
    (t : Z) (reward_key : string) (reward : val) :
  merge_pass E h [] seen = (h1, m1, None) ->
  (forall r, In r seen -> has_type (h r) "decision" = true ->
             decision_key E (h r) <> Ok (KStr reward_key)) ->
  is_number reward = true ->
  map_get m1 (KStr reward_key) = None /\
  on_reward_pair E h1 m1 (VDatetime t) reward_key reward = (h1, m1, None).
Proof.
  intros Hpass Hseen Hnum.
  assert (Hget : map_get m1 (KStr reward_key) = None).
  { apply map_get_str_None. intros Hin.
    destruct (merge_pass_frame _ _ _ _ _ _ Hpass) as [_ Hk].
    destruct (Hk _ Hin) as [[]|(r & Hr & Ht & Hd)].
    exact (Hseen r Hr Ht Hd). }
  split; [exact Hget|].
  unfold on_reward_pair, update_listeners. rewrite Hget, Hnum. reflexivity.
Qed.

(** What the loop of an event does when it returns: every key is still in
    the map, in its place, with the listeners of its list that had not
    expired, and a record has received the contribution once for each time
    it is left in a list. *)
Lemma event_loop_returns (t : Z) (reward : val) :
  forall (m : listener_map) (h h' : heap) (m' : listener_map),
    event_loop E h m (VDatetime t) reward = (h', m', None) ->
    Forall2 (fun e e' => fst e' = fst e /\
               snd e' = List.filter (fun l => negb (expired E h t l)) (snd e)) m m' /\
    forall l, credit E reward (count_occ Nat.eq_dec (concat (map snd m')) l) (h l)
              = Ok (h' l).
Proof.
  induction m as [|[k ls] rest IH]; intros h h' m' H; cbn [event_loop] in H.
  - injection H as <- <-. split; [constructor | reflexivity].
  - destruct (update_listeners E h ls (VDatetime t) reward) as [[h1 ls1] [e|]] eqn:E1;
      [discriminate|].
    destruct (event_loop E h1 rest (VDatetime t) reward) as [[h2 rest'] out2] eqn:E2.
    injection H as <- <- ->.
    destruct (update_listeners_frame _ _ _ _ _ _ _ _ E1) as (Hf & _ & _).
    apply update_listeners_returns in E1 as (t' & [= <-] & _ & Hw).
    destruct (window_update_returns _ _ _ _ _ _ _ Hw) as (Hls & Hc).
    destruct (IH _ _ _ E2) as (Hall & Hc'). split.
    + constructor; [now split|].
      eapply Forall2_impl; [exact Hall|].
      intros e e' [He1 He2]. split; [exact He1|]. rewrite He2.
      apply filter_ext. intros l. now rewrite (same_fields_expired h h1 t l Hf).
    + intros l. simpl. rewrite count_occ_app.
      exact (credit_add _ _ _ _ _ _ (Hc l) (Hc' l)).
Qed.

(** C7, amended.  For an event record with a timestamp, the value
    contributed is [properties.value], or the default event value when the
    record has no [properties] or these have no [value]; it goes through
    [update_listeners] to the list of every key of the listener map: when
    the branch returns, every key is still in the map with the listeners
    of its list that had not expired, and every record has received the
    value once for each time it is left in a list.  When the value is a
    number, the update of a key whose list is empty does nothing and raises
    nothing.  (A value that is not a number raises [TypeError] at the first
    key, whatever its list.) *)
Theorem event_fans_out (h h' : heap) (m m' : listener_map) (r : loc) (t : Z)
    (reward : val) :
  event_value E (h r) = Ok reward ->
  strptime E (h r) = Ok t ->
  is_number reward = true ->
  on_event E h m r = (h', m', None) ->
  reward = match h r !! "properties" with
           | Some (VDict items) =>
               default (DEFAULT_EVENTS_REWARD_VALUE E) (items_get items "value")
           | _ => DEFAULT_EVENTS_REWARD_VALUE E
           end /\
  on_event E h m r = event_loop E h m (VDatetime t) reward /\
  Forall2 (fun e e' => fst e' = fst e /\
             snd e' = List.filter (fun l => negb (expired E h t l)) (snd e)) m m' /\
  (forall l, credit E reward (count_occ Nat.eq_dec (concat (map snd m')) l) (h l)
             = Ok (h' l)) /\
  (forall h0, update_listeners E h0 [] (VDatetime t) reward = (h0, [], None)).
Proof.
  intros Hv Ht Hnum H.
  assert (Hloop : on_event E h m r = event_loop E h m (VDatetime t) reward).
  { unfold on_event. now rewrite Hv, Ht. }
  split.
  { unfold event_value in Hv. destruct (h r !! "properties") as [[]|]; simpl in Hv;
      congruence. }
  split; [exact Hloop|].
  rewrite Hloop in H.
  destruct (event_loop_returns _ _ _ _ _ _ H) as [Hall Hc].
  split; [exact Hall|]. split; [exact Hc|].
  intros h0. now apply update_listeners_nil.
Qed.

Lemma insert_by_timestamp_perm (t : Z) (r : loc) (sorted : list (Z * loc)) :
  Permutation (insert_by_timestamp t r sorted) ((t, r) :: sorted).
Proof.
  induction sorted as [|[t' r'] rest IH]; simpl; [reflexivity|].
  destruct (t <=? t'); [reflexivity|].
  rewrite IH. apply perm_swap.
Qed.

Lemma timestamps_snd (h : heap) :
  forall (records : list loc) (ts : list (Z * loc)),
    timestamps E h records = Ok ts -> map snd ts = records.
Proof.
  induction records as [|r rest IH]; intros ts H; simpl in H.
  - now injection H as <-.
  - destruct (strptime E (h r)) as [t|e]; simpl in H; [|discriminate].
    destruct (timestamps E h rest) as [ts'|e]; simpl in H; [|discriminate].
    injection H as <-. simpl. f_equal. now apply IH.
Qed.

(** The sort leaves the records it was given, each as often. *)
Lemma sort_records_perm (h : heap) (records sorted : list loc) :
  sort_records_by_timestamp E h records = Ok sorted -> Permutation sorted records.
Proof.
  unfold sort_records_by_timestamp. intros H.
  destruct (timestamps E h records) as [ts|e] eqn:Ets; simpl in H; [|discriminate].
  injection H as <-. rewrite <- (timestamps_snd _ _ _ Ets).
  apply Permutation_map. clear Ets.
  induction ts as [|[t r] ts IH]; simpl; [reflexivity|].
  rewrite insert_by_timestamp_perm. now constructor.
Qed.

Lemma same_fields_known_type (h h' : heap) (l : loc) :
  same_fields h h' -> known_type (h' l) = known_type (h l).
Proof.
  intros H. unfold known_type. now rewrite !(same_fields_has_type h h' l _ H).
Qed.

Lemma on_record_unknown (h : heap) (m : listener_map) (r : loc) :
  known_type (h r) = false -> on_record E h m r = (h, m, Some InvalidTypeError).
Proof.
  unfold known_type, on_record. intros H.
  apply orb_false_elim in H as [H He]. apply orb_false_elim in H as [Hd Hr].
  now rewrite Hd, Hr, He.
Qed.

Lemma merge_pass_app (pre post : list loc) :
  forall (h : heap) (m : listener_map),
    merge_pass E h m (pre ++ post)
    = match merge_pass E h m pre with
      | (h1, m1, None) => merge_pass E h1 m1 post
      | (h1, m1, Some e) => (h1, m1, Some e)
      end.
Proof.
  induction pre as [|r pre IH]; intros h m; simpl; [reflexivity|].
  destruct (on_record E h m r) as [[h1 m1] [e|]]; [reflexivity | apply IH].
Qed.

(** A pass over records one of which has an unknown type raises. *)
Lemma merge_pass_unknown (records : list loc) :
  forall (h h' : heap) (m m' : listener_map) (out : outcome) (bad : loc),
    In bad records -> known_type (h bad) = false ->
    merge_pass E h m records = (h', m', out) -> out <> None.
Proof.
  induction records as [|r rest IH]; intros h h' m m' out bad Hin Hbad H;
    [destruct Hin|].
  simpl in H. destruct (on_record E h m r) as [[h1 m1] out1] eqn:E1.
  destruct out1 as [e|]; [injection H as <- <- <-; discriminate|].
  destruct (on_record_frame _ _ _ _ _ _ E1) as [Hf _].
  destruct Hin as [->|Hin].
  - rewrite (on_record_unknown h m bad Hbad) in E1. discriminate.
  - apply (IH _ _ _ _ _ bad Hin) in H; [exact H|].
    now rewrite (same_fields_known_type h h1 bad Hf).
Qed.

(** C4, amended.  When a record of the input has a type that is none of
    [decision], [rewards] and [event], the call raises and returns no
    decisions, whatever was merged before; it raises [InvalidTypeError] at
    the first such record in timestamp order, when the records before it
    have been merged without an error.  (An error of the sort or of a
    record before it is the one that is raised otherwise.) *)
Theorem assign_rewards_invalid_type (h : heap) (decision_records reward_records
    event_records : list loc) (bad : loc) :
  In bad (decision_records ++ reward_records ++ event_records) ->
  known_type (h bad) = false ->
  (exists e, snd (assign_rewards_to_decisions E h decision_records reward_records
                    event_records) = Raise e) /\
  (forall pre b post h1 m1,
      sort_records_by_timestamp E h
        (decision_records ++ reward_records ++ event_records)
      = Ok (pre ++ b :: post) ->
      known_type (h b) = false ->
      merge_pass E h [] pre = (h1, m1, None) ->
      assign_rewards_to_decisions E h decision_records reward_records event_records
      = (h1, Raise InvalidTypeError)).
Proof.
  intros Hin Hbad. unfold assign_rewards_to_decisions. split.
  - destruct (sort_records_by_timestamp E h _) as [sorted|e] eqn:Es; [|eauto].
    assert (Hin' : In bad sorted).
    { eapply Permutation_in; [|exact Hin]. symmetry. exact (sort_records_perm _ _ _ Es). }
    destruct (merge_pass E h [] sorted) as [[h' m'] out] eqn:Em.
    destruct out as [e|]; [eauto|].
    now destruct (merge_pass_unknown _ _ _ _ _ _ bad Hin' Hbad Em).
  - intros pre b post h1 m1 Hs Hb Hpre. rewrite Hs, merge_pass_app, Hpre.
    destruct (merge_pass_frame _ _ _ _ _ _ Hpre) as [Hf _].
    simpl. rewrite on_record_unknown; [reflexivity|].
    now rewrite (same_fields_known_type h h1 b Hf).
Qed.

(** *** The call reads and writes the records it is given, and no other *)

Lemma agree_heap_set (S : loc -> Prop) (h1 h2 : heap) (l : loc) (d : record) :
  agree S h1 h2 -> agree S (heap_set h1 l d) (heap_set h2 l d).
Proof.
  intros H l' Hl'. unfold heap_set. destruct (Nat.eqb l' l); [reflexivity | now apply H].
Qed.

Lemma Forall_sublist (S : loc -> Prop) (ls ls' : list loc) :
  sublist ls' ls -> List.Forall S ls -> List.Forall S ls'.
Proof.
  intros Hs Hall. apply List.Forall_forall. intros l Hl.
  apply (proj1 (List.Forall_forall _ _) Hall). exact (sublist_In _ _ _ Hs Hl).
Qed.

Lemma map_in_get (S : loc -> Prop) (m : listener_map) (k : key) :
  map_in S m -> List.Forall S (default [] (map_get m k)).
Proof.
  induction 1 as [|[k' ls] m Hls _ IH]; simpl; [constructor|].
  destruct (key_eqb k' k); [exact Hls | exact IH].
Qed.

Lemma map_in_set (S : loc -> Prop) (m : listener_map) (k : key) (ls : list loc) :
  map_in S m -> List.Forall S ls -> map_in S (map_set m k ls).
Proof.
  intros Hm Hls. induction Hm as [|[k' ls'] m Hls' Hm IH]; simpl.
  - repeat constructor. exact Hls.
  - destruct (key_eqb k' k); constructor; auto.
Qed.

Lemma window_update_agree (S : loc -> Prop) (t : Z) (reward : val) :
  forall (ls : list loc) (h1 h2 : heap),
    agree S h1 h2 -> List.Forall S ls ->
    alike S (window_update E h1 ls t reward) (window_update E h2 ls t reward).
Proof.
  induction ls as [|x rest IH]; intros h1 h2 Ha Hls; simpl.
  - now repeat split.
  - apply List.Forall_cons_iff in Hls as [Hx Hrest].
    destruct (IH h1 h2 Ha Hrest) as (Hl & Ho & Ha').
    destruct (window_update E h1 rest t reward) as [[h1' r1] o1].
    destruct (window_update E h2 rest t reward) as [[h2' r2] o2].
    simpl in Hl, Ho, Ha'. subst r2 o2.
    destruct o1 as [e|]; [now repeat split|].
    rewrite <- (Ha' x Hx).
    destruct (strptime E (h1' x)) as [lt|e]; [|now repeat split].
    destruct (lt + window E <? t); [now repeat split|].
    destruct (add_reward E (h1' x) reward) as [d|e]; [|now repeat split].
    repeat split. now apply agree_heap_set.
Qed.

Lemma update_listeners_agree (S : loc -> Prop) (ts reward : val) (ls : list loc)
    (h1 h2 : heap) :
  agree S h1 h2 -> List.Forall S ls ->
  alike S (update_listeners E h1 ls ts reward) (update_listeners E h2 ls ts reward).
Proof.
  intros Ha Hls. unfold update_listeners.
  destruct ts; try now repeat split.
  destruct (is_number reward); [|now repeat split].
  rewrite !update_loop_window.
  destruct (window_update_agree S t reward ls h1 h2 Ha Hls) as (Hl & Ho & Ha').
  destruct (window_update E h1 ls t reward) as [[h1' r1] o1].
  destruct (window_update E h2 ls t reward) as [[h2' r2] o2].
  simpl in Hl, Ho, Ha'. subst r2 o2. now destruct o1; repeat split.
Qed.

Lemma on_reward_pair_agree (S : loc -> Prop) (ts : val) (reward_key : string)
    (reward : val) (m : listener_map) (h1 h2 : heap) :
  agree S h1 h2 -> map_in S m ->
  alike S (on_reward_pair E h1 m ts reward_key reward)
          (on_reward_pair E h2 m ts reward_key reward) /\
  map_in S (snd (fst (on_reward_pair E h1 m ts reward_key reward))).
Proof.
  intros Ha Hm. unfold on_reward_pair.
  assert (Hls := map_in_get S m (KStr reward_key) Hm).
  destruct (update_listeners_agree S ts reward _ h1 h2 Ha Hls) as (Hl & Ho & Ha').
  destruct (update_listeners E h1 _ ts reward) as [[h1' r1] o1] eqn:E1.
  destruct (update_listeners E h2 _ ts reward) as [[h2' r2] o2].
  simpl in Hl, Ho, Ha'. subst r2 o2.
  destruct (update_listeners_frame _ _ _ _ _ _ _ _ E1) as (_ & _ & Hs).
  split; [now repeat split|]. simpl.
  destruct (map_get m (KStr reward_key)); [|exact Hm].
  apply map_in_set; [exact Hm|]. exact (Forall_sublist _ _ _ Hs Hls).
Qed.

Lemma rewards_loop_agree (S : loc -> Prop) (ts : val) (items : list (string * val)) :
  forall (m : listener_map) (h1 h2 : heap),
    agree S h1 h2 -> map_in S m ->
    alike S (rewards_loop E h1 m ts items) (rewards_loop E h2 m ts items) /\
    map_in S (snd (fst (rewards_loop E h1 m ts items))).
Proof.
  induction items as [|[k v] rest IH]; intros m h1 h2 Ha Hm; simpl.
  - now repeat split.
  - destruct (on_reward_pair_agree S ts k v m h1 h2 Ha Hm) as [(Hl & Ho & Ha') Hm'].
    destruct (on_reward_pair E h1 m ts k v) as [[h1' m1] o1].
    destruct (on_reward_pair E h2 m ts k v) as [[h2' m2] o2].
    simpl in Hl, Ho, Ha', Hm'. subst m2 o2.
    destruct o1 as [e|]; [now repeat split|]. now apply IH.
Qed.

Lemma event_loop_agree (S : loc -> Prop) (ts reward : val) :
  forall (m : listener_map) (h1 h2 : heap),
    agree S h1 h2 -> map_in S m ->
    alike S (event_loop E h1 m ts reward) (event_loop E h2 m ts reward) /\
    map_in S (snd (fst (event_loop E h1 m ts reward))).
Proof.
  induction m as [|[k ls] rest IH]; intros h1 h2 Ha Hm; cbn [event_loop].
  - split; [now repeat split | constructor].
  - apply List.Forall_cons_iff in Hm as [Hls Hrest]. simpl in Hls.
    destruct (update_listeners_agree S ts reward ls h1 h2 Ha Hls) as (Hl & Ho & Ha').
    destruct (update_listeners E h1 ls ts reward) as [[h1' r1] o1] eqn:E1.
    destruct (update_listeners E h2 ls ts reward) as [[h2' r2] o2].
    simpl in Hl, Ho, Ha'. subst r2 o2.
    destruct (update_listeners_frame _ _ _ _ _ _ _ _ E1) as (_ & _ & Hs).
    assert (Hr1 := Forall_sublist _ _ _ Hs Hls).
    destruct o1 as [e|].
    + split; [now repeat split|]. simpl. now constructor.
    + destruct (IH h1' h2' Ha' Hrest) as [(Hl & Ho & Ha'') Hm'].
      destruct (event_loop E h1' rest ts reward) as [[h1'' m1] o1].
      destruct (event_loop E h2' rest ts reward) as [[h2'' m2] o2].
      simpl in Hl, Ho, Ha'', Hm'. subst m2 o2.
      split; [now repeat split|]. simpl. now constructor.
Qed.

Lemma on_record_agree (S : loc -> Prop) (m : listener_map) (r : loc) (h1 h2 : heap) :
  agree S h1 h2 -> map_in S m -> S r ->
  alike S (on_record E h1 m r) (on_record E h2 m r) /\
  map_in S (snd (fst (on_record E h1 m r))).
Proof.
  intros Ha Hm Hr. unfold on_record, on_decision, on_rewards, on_event.
  rewrite <- (Ha r Hr).
  destruct (has_type (h1 r) "decision").
  - destruct (decision_key E (h1 r)) as [k|e]; (split; [now repeat split|]); simpl;
      [|exact Hm].
    apply map_in_set; [exact Hm|]. apply List.Forall_app. split.
    + now apply map_in_get.
    + now repeat constructor.
  - destruct (has_type (h1 r) "rewards").
    + destruct (strptime E (h1 r)) as [t|e]; [|now repeat split].
      destruct (h1 r !! "rewards") as [[]|]; try now repeat split.
      now apply rewards_loop_agree.
    + destruct (has_type (h1 r) "event"); [|now repeat split].
      destruct (event_value E (h1 r)) as [v|e]; [|now repeat split].
      destruct (strptime E (h1 r)) as [t|e]; [|now repeat split].
      now apply event_loop_agree.
Qed.

Lemma merge_pass_agree (S : loc -> Prop) (records : list loc) :
  forall (m : listener_map) (h1 h2 : heap),
    agree S h1 h2 -> map_in S m -> List.Forall S records ->
    alike S (merge_pass E h1 m records) (merge_pass E h2 m records).
Proof.
  induction records as [|r rest IH]; intros m h1 h2 Ha Hm Hrs; simpl.
  - now repeat split.
  - apply List.Forall_cons_iff in Hrs as [Hr Hrest].
    destruct (on_record_agree S m r h1 h2 Ha Hm Hr) as [(Hl & Ho & Ha') Hm'].
    destruct (on_record E h1 m r) as [[h1' m1] o1].
    destruct (on_record E h2 m r) as [[h2' m2] o2].
    simpl in Hl, Ho, Ha', Hm'. subst m2 o2.
    destruct o1 as [e|]; [now repeat split|]. now apply IH.
Qed.

Lemma timestamps_agree (S : loc -> Prop) (h1 h2 : heap) :
  agree S h1 h2 ->
  forall records, List.Forall S records ->
    timestamps E h1 records = timestamps E h2 records.
Proof.
  intros Ha. induction 1 as [|r rest Hr _ IH]; simpl; [reflexivity|].
  now rewrite (Ha r Hr), IH.
Qed.

(** C3, amended.  The call reads and writes the records it is given and
    no other: on two heaps that hold the same records at the references of
    the three collections, it returns or raises the same, and leaves the
    same records there, so the same rewards.  (Called again on the
    decisions it has rewarded, it adds the contributions to the rewards it
    finds.) *)
Theorem assign_rewards_same_contents (h1 h2 : heap) (decision_records
    reward_records event_records : list loc) :
  (forall r, In r (decision_records ++ reward_records ++ event_records) ->
             h1 r = h2 r) ->
  snd (assign_rewards_to_decisions E h1 decision_records reward_records event_records)
  = snd (assign_rewards_to_decisions E h2 decision_records reward_records event_records) /\
  forall r, In r (decision_records ++ reward_records ++ event_records) ->
    fst (assign_rewards_to_decisions E h1 decision_records reward_records event_records) r
    = fst (assign_rewards_to_decisions E h2 decision_records reward_records event_records) r.
Proof.
  intros Hsame. unfold assign_rewards_to_decisions.
  set (records := decision_records ++ reward_records ++ event_records) in *.
  set (S := fun r => In r records).
  assert (Ha : agree S h1 h2) by exact Hsame.
  assert (Hrs : List.Forall S records) by (apply List.Forall_forall; auto).
  unfold sort_records_by_timestamp.
  rewrite <- (timestamps_agree S h1 h2 Ha records Hrs).
  destruct (timestamps E h1 records) as [ts|e] eqn:Ets; simpl; [|split; auto].
  set (sorted := map snd _).
  assert (Hsorted : List.Forall S sorted).
  { apply List.Forall_forall. intros r Hr. unfold S.
    eapply Permutation_in; [|exact Hr].
    apply (sort_records_perm h1). unfold sort_records_by_timestamp.
    now rewrite Ets. }
  destruct (merge_pass_agree S sorted [] h1 h2 Ha (List.Forall_nil _) Hsorted)
    as (_ & Ho & Ha').
  destruct (merge_pass E h1 [] sorted) as [[h1' m1] o1].
  destruct (merge_pass E h2 [] sorted) as [[h2' m2] o2].
  simpl in Ho, Ha'. subst o2.
  destruct o1; simpl; (split; [reflexivity | exact Ha']).
Qed.

End WithEnv.

(** The scenarios of the spec. *)
Example decision_rewarded_in_window :
  fst first_run 0%nat !! "reward" = Some (VFloat 2) /\ snd first_run = Ok [0%nat].
Proof. split; reflexivity. Qed.

Example decision_not_rewarded_after_window :
  let h := heap_of [decision_record "k" "100";
                    rewards_record "111" [("k"%string, VInt 5)]] in
  fst (assign_rewards_to_decisions example_env h [0%nat] [1%nat] []) 0%nat !! "reward"
  = None.
Proof. reflexivity. Qed.

Example event_rewards_both_decisions :
  let out := assign_rewards_to_decisions example_env two_decisions_and_event
               [0; 1]%nat [] [2%nat] in
  fst out 0%nat !! "reward" = Some (VFloat 3) /\
  fst out 1%nat !! "reward" = Some (VFloat 3).
Proof. split; reflexivity. Qed.

(** The second call adds the reward of 2 to the 2 that the first has left. *)
Example second_run_adds_again :
  fst second_run 0%nat !! "reward" = Some (VFloat 4).
Proof. reflexivity. Qed.

(** C3, the claim as stated fails: the decision has the reward 2 after one
    call and 4 after two. *)
Lemma assign_rewards_twice_differs :
  ~ (forall (E : env) (h : heap) (decision_records reward_records event_records
               : list loc) (d : loc),
        In d decision_records ->
        let once :=
          assign_rewards_to_decisions E h decision_records reward_records
            event_records in
        let twice :=
          assign_rewards_to_decisions E (fst once) decision_records reward_records
            event_records in
        fst twice d !! "reward" = fst once d !! "reward").
Proof.
  intros H.
  specialize (H example_env decision_and_reward [0%nat] [1%nat] [] 0%nat
                (or_introl eq_refl)).
  apply (f_equal (fun o => match o with
                          | Some (VFloat x) => PrimFloat.eqb x 2
                          | _ => false
                          end)) in H.
  vm_compute in H. discriminate.
Qed.

Lemma assign_rewards_same_contents_witness :
  snd (assign_rewards_to_decisions example_env decision_and_reward [0%nat] [1%nat] [])
  = snd (assign_rewards_to_decisions example_env decision_and_reward_reloaded
           [0%nat] [1%nat] []) /\
  forall r, In r ([0%nat] ++ [1%nat] ++ []) ->
    fst (assign_rewards_to_decisions example_env decision_and_reward
           [0%nat] [1%nat] []) r
    = fst (assign_rewards_to_decisions example_env decision_and_reward_reloaded
             [0%nat] [1%nat] []) r.
Proof.
  apply (assign_rewards_same_contents example_env decision_and_reward
           decision_and_reward_reloaded [0%nat] [1%nat] []).
  intros r [<-|[<-|[]]]; reflexivity.
Defined.

Example assign_rewards_click :
  snd (assign_rewards_to_decisions example_env with_click [0%nat] [1%nat] [2%nat])
  = Raise InvalidTypeError.
Proof. reflexivity. Qed.

(** C4, the claim as stated fails: a reward that is a string, in a record
    before the one of unknown type, makes the call raise [TypeError]. *)
Lemma assign_rewards_string_before_click :
  ~ (forall (E : env) (h : heap) (decision_records reward_records event_records
               : list loc) (bad : loc),
        In bad (decision_records ++ reward_records ++ event_records) ->
        known_type (h bad) = false ->
        snd (assign_rewards_to_decisions E h decision_records reward_records
               event_records) = Raise InvalidTypeError).
Proof.
  intros H.
  specialize (H example_env with_click_and_string [0%nat] [1%nat] [2%nat] 2%nat).
  assert (Hraise : snd (assign_rewards_to_decisions example_env
                          with_click_and_string [0%nat] [1%nat] [2%nat])
                   = Raise TypeError) by reflexivity.
  rewrite Hraise in H. discriminate H; [simpl; auto | reflexivity].
Qed.

Lemma assign_rewards_invalid_type_witness :
  (exists e, snd (assign_rewards_to_decisions example_env with_click
                    [0%nat] [1%nat] [2%nat]) = Raise e) /\
  (forall pre b post h1 m1,
      sort_records_by_timestamp example_env with_click ([0%nat] ++ [1%nat] ++ [2%nat])
      = Ok (pre ++ b :: post) ->
      known_type (with_click b) = false ->
      merge_pass example_env with_click [] pre = (h1, m1, None) ->
      assign_rewards_to_decisions example_env with_click [0%nat] [1%nat] [2%nat]
      = (h1, Raise InvalidTypeError)).
Proof.
  apply (assign_rewards_invalid_type example_env with_click [0%nat] [1%nat] [2%nat]
           2%nat).
  - simpl. auto.
  - reflexivity.
Defined.

Lemma event_merged_eq :
  on_event example_env two_decisions_and_event open_listeners 2%nat
  = (fst (fst event_merged), snd (fst event_merged), None).
Proof. reflexivity. Defined.

Example event_merged_map :
  snd (fst event_merged) = [(KStr "gone", []); (KStr "k", [0; 1]%nat)].
Proof. reflexivity. Qed.

Lemma event_fans_out_witness :
  VInt 3 = match two_decisions_and_event 2%nat !! "properties" with
           | Some (VDict items) =>
               default (DEFAULT_EVENTS_REWARD_VALUE example_env)
                 (items_get items "value")
           | _ => DEFAULT_EVENTS_REWARD_VALUE example_env
           end /\
  on_event example_env two_decisions_and_event open_listeners 2%nat
  = event_loop example_env two_decisions_and_event open_listeners
      (VDatetime 2000000) (VInt 3) /\
  Forall2 (fun e e' => fst e' = fst e /\
             snd e' = List.filter
                        (fun l => negb (expired example_env two_decisions_and_event
                                          2000000 l)) (snd e))
    open_listeners (snd (fst event_merged)) /\
  (forall l, credit example_env (VInt 3)
               (count_occ Nat.eq_dec (concat (map snd (snd (fst event_merged)))) l)
               (two_decisions_and_event l)
             = Ok (fst (fst event_merged) l)) /\
  (forall h0, update_listeners example_env h0 [] (VDatetime 2000000) (VInt 3)
              = (h0, [], None)).
Proof.
  apply (event_fans_out example_env two_decisions_and_event _ open_listeners _
           2%nat 2000000 (VInt 3)).
  - reflexivity.
  - reflexivity.
  - reflexivity.
  - exact event_merged_eq.
Defined.

Lemma one_decision_merged_eq :
  merge_pass example_env one_decision [] [0%nat]
  = (fst (fst one_decision_merged), snd (fst one_decision_merged), None).
Proof. reflexivity. Defined.

Lemma reward_pair_unseen_key_witness :
  map_get (snd (fst one_decision_merged)) (KStr "other") = None /\
  on_reward_pair example_env (fst (fst one_decision_merged))
    (snd (fst one_decision_merged)) (VDatetime 105000000) "other" (VInt 2)
  = (fst (fst one_decision_merged), snd (fst one_decision_merged), None).
Proof.
  apply (reward_pair_unseen_key example_env one_decision _ _ [0%nat] 105000000
           "other" (VInt 2)).
  - exact one_decision_merged_eq.
  - intros r [<-|[]] _. vm_compute. congruence.
  - reflexivity.
Defined.

(** C9, the claim as stated fails: a pair whose reward is a string raises
    [TypeError], also for a key that no decision has. *)
Lemma string_reward_for_unseen_key :
  ~ (forall (E : env) (h h1 : heap) (m1 : listener_map) (seen : list loc) (t : Z)
            (reward_key : string) (reward : val),
        merge_pass E h [] seen = (h1, m1, None) ->
        (forall r, In r seen -> has_type (h r) "decision" = true ->
                   decision_key E (h r) <> Ok (KStr reward_key)) ->
        on_reward_pair E h1 m1 (VDatetime t) reward_key reward = (h1, m1, None)).
Proof.
  intros H.
  specialize (H example_env one_decision _ _ [0%nat] 105000000 "other"%string
                (VStr "2") one_decision_merged_eq).
  assert (Hraise : snd (on_reward_pair example_env (fst (fst one_decision_merged))
                          (snd (fst one_decision_merged)) (VDatetime 105000000)
                          "other" (VStr "2"))
                   = Some TypeError) by reflexivity.
  rewrite H in Hraise; [discriminate|].
  intros r [<-|[]] _. vm_compute. congruence.
Qed.

(** In a whole call: the one listener expires at the reward, and the event
    then raises at the key that has no listener left. *)
Example assign_rewards_string_event :
  snd (assign_rewards_to_decisions example_env expired_then_string_event
         [0%nat] [1%nat] [2%nat])
  = Raise TypeError.
Proof. reflexivity. Qed.

(** In a whole call: no decision has the key [other]. *)
Example assign_rewards_string_reward_for_other :
  snd (assign_rewards_to_decisions example_env string_reward_for_other
         [0%nat] [1%nat] [])
  = Raise TypeError.
Proof. reflexivity. Qed.

(** Properties that are not a [dict] have no [get]. *)
Example event_null_properties :
  on_event example_env null_properties_event no_listeners 0%nat
  = (null_properties_event, no_listeners, Some AttributeError).
Proof. reflexivity. Qed.

Example event_string_value_raises :
  on_event example_env string_event no_listeners 0%nat
  = (string_event, no_listeners, Some TypeError).
Proof. reflexivity. Qed.

(** C7, the claim as stated fails: an event whose value is a string raises
    [TypeError] at a key whose list is empty. *)
Lemma event_string_value_empty_list :
  ~ (forall (E : env) (h : heap) (m : listener_map) (r : loc) (t : Z) (reward : val),
        event_value E (h r) = Ok reward ->
        strptime E (h r) = Ok t ->
        List.Forall (fun e => snd e = []) m ->
        on_event E h m r = (h, m, None)).
Proof.
  intros H.
  specialize (H example_env string_event no_listeners 0%nat 2000000 (VStr "3")
                eq_refl eq_refl).
  rewrite event_string_value_raises in H.
  assert (Hm : List.Forall (fun e : key * list loc => snd e = []) no_listeners)
    by (repeat constructor).
  specialize (H Hm). discriminate.
Qed.

End MergeFacts.

(** ** Properties of the ingest orchestrator *)

Module IngestFacts.
Import IngestFirehose.

(** *** The groups *)

Lemma leb_trans (a b c : string) :
  String.leb a b = true -> String.leb b c = true -> String.leb a c = true.
Proof.
  unfold String.leb. intros Hab Hbc.
  destruct (String.compare a b) eqn:Eab; [| |discriminate].
  - apply String.compare_eq_iff in Eab. now subst.
  - destruct (String.compare b c) eqn:Ebc; [| |discriminate].
    + apply String.compare_eq_iff in Ebc. subst. now rewrite Eab.
    + apply OrderedTypeEx.String_as_OT.cmp_lt in Eab, Ebc.
      assert (Hac := OrderedTypeEx.String_as_OT.lt_trans _ _ _ Eab Ebc).
      apply OrderedTypeEx.String_as_OT.cmp_lt in Hac.
      unfold OrderedTypeEx.String_as_OT.cmp in Hac. now rewrite Hac.
Qed.

Lemma insert_by_name_In (p q : partition) (l : list partition) :
  In q (insert_by_name p l) <-> q = p \/ In q l.
Proof.
  induction l as [|x l IH]; simpl; [intuition|].
  destruct (String.leb (model_name p) (model_name x)); simpl; [intuition|].
  rewrite IH. intuition.
Qed.

Lemma insert_by_name_sorted (p : partition) (l : list partition) :
  StronglySorted name_le l -> StronglySorted name_le (insert_by_name p l).
Proof.
  induction 1 as [|x l Hl IH Hx]; simpl.
  - repeat constructor.
  - destruct (String.leb (model_name p) (model_name x)) eqn:Epx.
    + constructor; [now constructor|]. constructor; [exact Epx|].
      eapply List.Forall_impl; [|exact Hx].
      intros q Hq. exact (leb_trans _ _ _ Epx Hq).
    + constructor; [exact IH|].
      apply List.Forall_forall. intros q Hq.
      apply insert_by_name_In in Hq as [->|Hq].
      * destruct (String.leb_total (model_name p) (model_name x)) as [H|H];
          [congruence | exact H].
      * exact (proj1 (List.Forall_forall _ _) Hx q Hq).
Qed.

Lemma sorted_sorted (ps : list partition) : StronglySorted name_le (sorted ps).
Proof.
  induction ps as [|p ps IH]; simpl; [constructor|].
  now apply insert_by_name_sorted.
Qed.

Lemma sorted_In (ps : list partition) (q : partition) : In q (sorted ps) <-> In q ps.
Proof.
  induction ps as [|p ps IH]; simpl; [tauto|].
  rewrite insert_by_name_In, IH. intuition.
Qed.

(** The first group is the group of the first partition. *)
Lemma groupby_head (p : partition) (rest : list partition) :
  exists g gs, groupby (p :: rest) = (model_name p, g) :: gs.
Proof.
  simpl. destruct (groupby rest) as [|[name g] gs]; [eauto|].
  destruct (String.eqb (model_name p) name) eqn:En; [|eauto].
  apply String.eqb_eq in En. subst. eauto.
Qed.

(** The names of the groups are the model names of the partitions. *)
Lemma groupby_names (ps : list partition) (name : string) :
  In name (map fst (groupby ps)) <-> exists p, In p ps /\ model_name p = name.
Proof.
  induction ps as [|p rest IH]; simpl.
  - split; [tauto | intros (p & [] & _)].
  - assert (Hrest : In name (map fst (groupby rest)) \/ model_name p = name
                    <-> exists q, (p = q \/ In q rest) /\ model_name q = name).
    { rewrite IH. split.
      - intros [(q & Hq & Hn)|Hn]; [exists q | exists p]; auto.
      - intros (q & [<-|Hq] & Hn); [now right | left; eauto]. }
    rewrite <- Hrest. clear Hrest IH.
    destruct (groupby rest) as [|[n g] gs]; simpl; [intuition|].
    destruct (String.eqb (model_name p) n) eqn:En; simpl.
    + apply String.eqb_eq in En. subst. intuition.
    + intuition.
Qed.

(** In a list sorted by model name, a model name has one group. *)
Lemma groupby_NoDup (ps : list partition) :
  StronglySorted name_le ps -> List.NoDup (map fst (groupby ps)).
Proof.
  induction 1 as [|p rest Hrest IH Hp]; [constructor|].
  simpl. destruct (groupby rest) as [|[n g] gs] eqn:Eg; simpl.
  - repeat constructor. intros [].
  - destruct (String.eqb (model_name p) n) eqn:En; [exact IH|].
    simpl. constructor; [|exact IH].
    intros Hin. apply String.eqb_neq in En. apply En.
    assert (Hin' : In (model_name p) (map fst (groupby rest)))
      by (rewrite Eg; exact Hin).
    apply groupby_names in Hin' as (q & Hq & Hname).
    destruct rest as [|q0 rest']; [destruct Hq|].
    destruct (groupby_head q0 rest') as (g0 & gs0 & Eh).
    rewrite Eh in Eg. injection Eg as <- _ _.
    apply String.leb_antisym.
    + exact (proj1 (List.Forall_forall _ _) Hp q0 (or_introl eq_refl)).
    + rewrite <- Hname. destruct Hq as [<-|Hq].
      * now destruct (String.leb_total (model_name q0) (model_name q0)).
      * apply StronglySorted_inv in Hrest as [_ Hq0].
        exact (proj1 (List.Forall_forall _ _) Hq0 q Hq).
Qed.

(** [repair_overlapping_keys] has one group for each model name. *)
Lemma groups_names (ps : list partition) :
  List.NoDup (map fst (groups ps)) /\
  forall name, In name (map fst (groups ps)) <->
               exists p, In p ps /\ model_name p = name.
Proof.
  unfold groups. split.
  - apply groupby_NoDup, sorted_sorted.
  - intros name. rewrite groupby_names. split.
    + intros (p & Hp & Hn). exists p. split; [now apply sorted_In | exact Hn].
    + intros (p & Hp & Hn). exists p. split; [now apply sorted_In | exact Hn].
Qed.

(** *** The invariant of the run *)

Lemma repairs_app (a b : list event) : repairs (a ++ b) = repairs a ++ repairs b.
Proof.
  induction a as [|e a IH]; simpl; [reflexivity|].
  destruct e; simpl; now rewrite ?IH.
Qed.

Lemma repairs_repair_events (gs : list (string * list partition)) :
  repairs (repair_events gs) = gs.
Proof. induction gs as [|[name g] gs IH]; simpl; [reflexivity | now f_equal]. Qed.

Lemma repair_events_In (gs : list (string * list partition)) (e : event) :
  In e (repair_events gs) -> exists name g, e = Repair name g.
Proof.
  unfold repair_events. rewrite in_map_iff. intros ([name g] & <- & _). simpl. eauto.
Qed.

Lemma cancel_pending_lookup (us : list unit_state) (u : nat) (st : unit_state) :
  cancel_pending us !! u = Some st ->
  st <> Pending /\ (st = Cancelled \/ us !! u = Some st).
Proof.
  unfold cancel_pending. rewrite list_lookup_fmap.
  destruct (us !! u) as [[]|]; simpl; intros [= <-]; split; auto; discriminate.
Qed.

Lemma lookup_cancel_pending (us : list unit_state) (u : nat) (st : unit_state) :
  us !! u = Some st -> st <> Pending -> cancel_pending us !! u = Some st.
Proof.
  intros H Hne. unfold cancel_pending. rewrite list_lookup_fmap, H.
  now destruct st.
Qed.

Section WithCount.

Variable THREAD_WORKER_COUNT : nat.
Variable ps : list partition.

Lemma invariant_init : invariant ps init.
Proof.
  constructor; simpl.
  - intros u H. discriminate.
  - intros u [].
  - now split.
Qed.

(** A unit that is not processed keeps the main thread before the phase of
    the repairs. *)
Lemma invariant_not_processed (s : state) (u : nat) (st : unit_state) :
  invariant ps s -> units s !! u = Some st -> st <> Processed ->
  repairs (trace s) = [] /\
  match main s with
  | Mapping i =>
      length (units s) = length ps /\ forall v, (v < i)%nat -> v <> u
  | Entering | Leaving | Repairing _ | Finished => False
  | Unwinding _ | Terminated _ => True
  end.
Proof.
  intros [_ _ Hm] Hu Hst.
  assert (Hlt : (u < length (units s))%nat) by (eapply lookup_lt_Some; eauto).
  assert (Hall : all_processed (units s) -> False).
  { intros Hall. specialize (Hall u Hlt). congruence. }
  destruct (main s) as [|i| |e|rest| |e].
  - destruct Hm as [Hm _]. rewrite Hm in Hu. discriminate.
  - destruct Hm as (Hlen & Hr & Hp). split; [exact Hr|]. split; [exact Hlen|].
    intros v Hv ->. specialize (Hp u Hv). congruence.
  - destruct Hm as (_ & _ & Hm). destruct (Hall Hm).
  - now split.
  - destruct Hm as (_ & Hm & _). destruct (Hall Hm).
  - destruct Hm as (_ & Hm & _). destruct (Hall Hm).
  - now split.
Qed.

(** A step of a unit that was not processed. *)
Lemma invariant_unit_step (s : state) (u : nat) (st st' : unit_state)
    (ev : list event) :
  invariant ps s ->
  units s !! u = Some st -> st <> Processed -> st <> Exited ->
  repairs ev = [] ->
  (st' = Processed -> In (ProcessReturn u) ev) ->
  (forall v, In (SysExit v) ev -> v = u /\ st' = Exited /\ SIGTERM s = true) ->
  invariant ps {| SIGTERM := SIGTERM s; units := <[u := st']> (units s);
               main := main s; trace := trace s ++ ev |}.
Proof.
  intros Hinv Hu Hst Hst2 Hev Hret Hexit.
  assert (Hlt : (u < length (units s))%nat) by (eapply lookup_lt_Some; eauto).
  destruct (invariant_not_processed s u st Hinv Hu Hst) as [Hrep Hmain].
  destruct Hinv as [Hr He Hm].
  constructor; simpl.
  - intros v Hv. apply in_or_app. destruct (Nat.eq_dec v u) as [->|Hne].
    + rewrite list_lookup_insert_eq in Hv by exact Hlt.
      right. apply Hret. congruence.
    + rewrite list_lookup_insert_ne in Hv by congruence. left. now apply Hr.
  - intros v Hv. apply in_app_or in Hv as [Hv|Hv].
    + destruct (He v Hv) as [Hx Hf]. split; [|exact Hf].
      rewrite list_lookup_insert_ne; [exact Hx|]. intros ->. congruence.
    + destruct (Hexit v Hv) as (-> & -> & Hf). split; [|exact Hf].
      now apply list_lookup_insert_eq.
  - rewrite repairs_app, Hrep, Hev.
    destruct (main s) as [|i| |e|rest| |e]; try contradiction; try reflexivity.
    destruct Hmain as [Hlen Hne]. destruct Hm as (_ & _ & Hm).
    split; [now rewrite length_insert|]. split; [reflexivity|].
    intros v Hv.
    rewrite list_lookup_insert_ne by (apply not_eq_sym; now apply Hne).
    now apply Hm.
Qed.

Lemma invariant_step (a : action) (s s' : state) :
  invariant ps s -> step THREAD_WORKER_COUNT ps a s = Some s' -> invariant ps s'.
Proof.
  intros Hinv Hstep.
  destruct a; unfold step, worker, process_decisions, signal_handler in Hstep.
  - (* Signal *)
    injection Hstep as <-. destruct Hinv as [Hr He Hm].
    constructor; simpl; auto. intros v Hv. split; [now apply He | reflexivity].
  - (* Enter *)
    destruct Hinv as [Hr He Hm].
    destruct (main s) as [|i| |e|rest| |e]; try discriminate.
    destruct Hm as [Hu Ht].
    destruct (THREAD_WORKER_COUNT =? 0)%nat; injection Hstep as <-;
      constructor; simpl; rewrite ?Hu, ?Ht.
    + intros u H. discriminate.
    + intros u [].
    + reflexivity.
    + intros u H. apply lookup_replicate in H as [H _]. discriminate.
    + intros u [].
    + split; [apply length_replicate|]. split; [reflexivity|]. intros u Hlt. lia.
  - (* Start *)
    destruct (units s !! u) as [[]|] eqn:Hu; try discriminate.
    destruct (running (units s) <? THREAD_WORKER_COUNT)%nat; [|discriminate].
    destruct (SIGTERM s) eqn:Hf; injection Hstep as <-.
    + rewrite <- Hf.
      apply (invariant_unit_step s u Pending Exited [SysExit u]); auto;
        try discriminate.
      intros v [[= <-]|[]]. auto.
    + rewrite <- Hf, <- (app_nil_r (trace s)).
      apply (invariant_unit_step s u Pending Checked []); auto; try discriminate.
      intros v [].
  - (* Call *)
    destruct (units s !! u) as [[]|] eqn:Hu; try discriminate.
    injection Hstep as <-. unfold call_process.
    apply (invariant_unit_step s u Checked Running [Process u]); auto;
      try discriminate.
    intros v [[=]|[]].
  - (* Return *)
    destruct (units s !! u) as [[]|] eqn:Hu; try discriminate.
    injection Hstep as <-.
    apply (invariant_unit_step s u Running Processed [ProcessReturn u]); auto;
      try discriminate.
    + intros _. now left.
    + intros v [[=]|[]].
  - (* Fail *)
    destruct (units s !! u) as [[]|] eqn:Hu; try discriminate.
    injection Hstep as <-.
    rewrite <- (app_nil_r (trace s)).
    apply (invariant_unit_step s u Running Failed []); auto; try discriminate.
    intros v [].
  - (* Collect *)
    destruct Hinv as [Hr He Hm].
    destruct (main s) as [|i| |e|rest| |e]; try discriminate.
    destruct Hm as (Hlen & Hrep & Hp).
    destruct (units s !! i) as [[]|] eqn:Hi; try discriminate;
      injection Hstep as <-; constructor; simpl; auto.
    + split; [exact Hlen|]. split; [exact Hrep|]. intros v Hv.
      destruct (Nat.eq_dec v i) as [->|Hne]; [exact Hi | apply Hp; lia].
    + intros v Hv. apply cancel_pending_lookup in Hv as [_ [Hv|Hv]];
        [discriminate | now apply Hr].
    + intros v Hv. destruct (He v Hv) as [Hx Hf]. split; [|exact Hf].
      apply lookup_cancel_pending; [exact Hx | discriminate].
    + intros v Hv. apply cancel_pending_lookup in Hv as [_ [Hv|Hv]];
        [discriminate | now apply Hr].
    + intros v Hv. destruct (He v Hv) as [Hx Hf]. split; [|exact Hf].
      apply lookup_cancel_pending; [exact Hx | discriminate].
    + split; [exact Hlen|]. split; [exact Hrep|]. intros v Hv. apply Hp.
      apply lookup_ge_None in Hi. lia.
  - (* Join *)
    destruct (running (units s) =? 0)%nat; [|discriminate].
    destruct Hinv as [Hr He Hm].
    destruct (main s) as [|i| |e|rest| |e]; try discriminate;
      injection Hstep as <-; constructor; simpl; auto.
    destruct Hm as (Hlen & Hrep & Hall). split; [exact Hlen|]. split; [exact Hall|].
    exists [], (trace s). simpl. now rewrite app_nil_r.
  - (* RepairNext *)
    destruct Hinv as [Hr He Hm].
    destruct (main s) as [|i| |e|[|[name g] rest]| |e]; try discriminate.
    injection Hstep as <-.
    destruct Hm as (Hlen & Hall & done & before & Hg & Ht & Hb).
    constructor; simpl; auto.
    + intros v Hv. apply in_or_app. left. now apply Hr.
    + intros v Hv. apply in_app_or in Hv as [Hv|[[=]|[]]]. now apply He.
    + split; [exact Hlen|]. split; [exact Hall|].
      exists (done ++ [(name, g)]), before.
      split; [now rewrite <- app_assoc|]. split; [|exact Hb].
      rewrite Ht. unfold repair_events. rewrite map_app, <- app_assoc. reflexivity.
  - (* Finish *)
    destruct Hinv as [Hr He Hm].
    destruct (main s) as [|i| |e|[|g rest]| |e]; try discriminate.
    injection Hstep as <-.
    destruct Hm as (Hlen & Hall & done & before & Hg & Ht & Hb).
    constructor; simpl; auto.
    split; [exact Hlen|]. split; [exact Hall|]. exists before.
    rewrite app_nil_r in Hg. now rewrite Hg.
Qed.

Lemma invariant_run (schedule : list action) :
  forall s s', invariant ps s -> run THREAD_WORKER_COUNT ps schedule s = Some s' ->
               invariant ps s'.
Proof.
  induction schedule as [|a rest IH]; intros s s' Hinv Hrun; simpl in Hrun.
  - now injection Hrun as <-.
  - destruct (step THREAD_WORKER_COUNT ps a s) as [s1|] eqn:Hstep; [|discriminate].
    exact (IH s1 s' (invariant_step a s s1 Hinv Hstep) Hrun).
Qed.

(** *** A run that finishes *)

Lemma run_app (a b : list action) :
  forall s, run THREAD_WORKER_COUNT ps (a ++ b) s
            = match run THREAD_WORKER_COUNT ps a s with
              | Some s' => run THREAD_WORKER_COUNT ps b s'
              | None => None
              end.
Proof.
  induction a as [|x a IH]; intros s; simpl; [reflexivity|].
  destruct (step THREAD_WORKER_COUNT ps x s); [apply IH | reflexivity].
Qed.

Lemma running_idle (a b : nat) :
  running (replicate a Processed ++ replicate b Pending) = 0%nat.
Proof.
  unfold running. rewrite List.filter_app, length_app.
  assert (H : forall st n, is_running st = false ->
                length (List.filter is_running (replicate n st)) = 0%nat).
  { intros st n Hst. induction n as [|n IH]; simpl; [reflexivity|].
    now rewrite Hst. }
  now rewrite !H.
Qed.

(** One unit, from its start to the main thread's taking its result. *)
Lemma run_unit (u m : nat) (tr : list event) :
  (0 < THREAD_WORKER_COUNT)%nat ->
  run THREAD_WORKER_COUNT ps [Start u; Call u; Return u; Collect]
    {| SIGTERM := false;
       units := replicate u Processed ++ replicate (S m) Pending;
       main := Mapping u; trace := tr |}
  = Some {| SIGTERM := false;
            units := replicate (S u) Processed ++ replicate m Pending;
            main := Mapping (S u);
            trace := (tr ++ [Process u]) ++ [ProcessReturn u] |}.
Proof.
  intros HK. apply Nat.ltb_lt in HK.
  assert (Hlen : length (replicate u Processed) = u) by apply length_replicate.
  assert (Hat : forall st rest,
             (replicate u Processed ++ st :: rest) !! u = Some st).
  { intros st rest. rewrite lookup_app_r by lia. now rewrite Hlen, Nat.sub_diag. }
  assert (Hins : forall st st' rest,
             <[u := st']> (replicate u Processed ++ st :: rest)
             = replicate u Processed ++ st' :: rest).
  { intros st st' rest. rewrite insert_app_r_alt by lia.
    now rewrite Hlen, Nat.sub_diag. }
  cbn [replicate]. cbn [run step worker process_decisions units SIGTERM main trace].
  rewrite Hat.
  change (Pending :: replicate m Pending) with (replicate (S m) Pending).
  rewrite running_idle, HK. cbn [replicate].
  cbn [run step worker process_decisions units SIGTERM main trace].
  rewrite Hins, Hat.
  cbn [run step worker call_process units SIGTERM main trace].
  rewrite Hins, Hat. cbn [run step worker process_decisions units SIGTERM main trace].
  rewrite Hins, Hat. cbn [run step worker process_decisions units SIGTERM main trace].
  do 2 f_equal.
  change (Processed :: replicate u Processed) with (replicate (S u) Processed).
  rewrite replicate_S_end, <- app_assoc. reflexivity.
Qed.

(** The units [u .. u+k-1], one after the other. *)
Lemma run_units (k : nat) :
  forall (u b : nat) (tr : list event),
    (0 < THREAD_WORKER_COUNT)%nat ->
    exists tr',
      run THREAD_WORKER_COUNT ps
        (concat (map (fun u => [Start u; Call u; Return u; Collect]) (seq u k)))
        {| SIGTERM := false;
           units := replicate u Processed ++ replicate (k + b) Pending;
           main := Mapping u; trace := tr |}
      = Some {| SIGTERM := false;
                units := replicate (u + k) Processed ++ replicate b Pending;
                main := Mapping (u + k); trace := tr' |}.
Proof.
  induction k as [|k IH]; intros u b tr HK.
  - exists tr. simpl. now rewrite Nat.add_0_r.
  - cbn [seq map concat]. rewrite run_app.
    change (S k + b)%nat with (S (k + b)).
    rewrite (run_unit u (k + b) tr HK).
    destruct (IH (S u) b ((tr ++ [Process u]) ++ [ProcessReturn u]) HK)
      as [tr' Hrun].
    exists tr'. rewrite Hrun.
    now replace (S u + k)%nat with (u + S k)%nat by lia.
Qed.

Lemma run_repairs (gs : list (string * list partition)) :
  forall (flag : bool) (us : list unit_state) (tr : list event),
    run THREAD_WORKER_COUNT ps (replicate (length gs) RepairNext)
      {| SIGTERM := flag; units := us; main := Repairing gs; trace := tr |}
    = Some {| SIGTERM := flag; units := us; main := Repairing [];
              trace := tr ++ repair_events gs |}.
Proof.
  induction gs as [|[name g] gs IH]; intros flag us tr; simpl.
  - now rewrite app_nil_r.
  - rewrite IH. now rewrite <- app_assoc.
Qed.

(** With a thread in the pool there is a run of [worker] that finishes. *)
Lemma worker_finishes :
  (0 < THREAD_WORKER_COUNT)%nat ->
  exists s,
    run THREAD_WORKER_COUNT ps (sequential_schedule (length ps) (groups ps)) init
    = Some s /\ main s = Finished.
Proof.
  intros HK. unfold sequential_schedule.
  assert (Hz : (THREAD_WORKER_COUNT =? 0)%nat = false) by (apply Nat.eqb_neq; lia).
  assert (Henter : run THREAD_WORKER_COUNT ps [Enter] init
                   = Some {| SIGTERM := false;
                             units := replicate (length ps) Pending;
                             main := Mapping 0; trace := [] |}).
  { cbn [run step worker init main units SIGTERM trace]. now rewrite Hz. }
  assert (Hunits : exists tr,
             run THREAD_WORKER_COUNT ps
               (concat (map (fun u => [Start u; Call u; Return u; Collect])
                          (seq 0 (length ps))))
               {| SIGTERM := false; units := replicate (length ps) Pending;
                  main := Mapping 0; trace := [] |}
             = Some {| SIGTERM := false; units := replicate (length ps) Processed;
                       main := Mapping (length ps); trace := tr |}).
  { destruct (run_units (length ps) 0 0 [] HK) as [tr Hrun].
    exists tr. rewrite Nat.add_0_r in Hrun. cbn [replicate app Nat.add] in Hrun.
    now rewrite app_nil_r in Hrun. }
  destruct Hunits as [tr Hunits].
  assert (Hidle : running (replicate (length ps) Processed) = 0%nat).
  { rewrite <- (app_nil_r (replicate _ _)). apply (running_idle _ 0). }
  assert (Hleave : run THREAD_WORKER_COUNT ps [Collect; Join]
                     {| SIGTERM := false; units := replicate (length ps) Processed;
                        main := Mapping (length ps); trace := tr |}
                   = Some {| SIGTERM := false;
                             units := replicate (length ps) Processed;
                             main := Repairing (groups ps); trace := tr |}).
  { assert (Hnone : replicate (length ps) Processed !! length ps = None)
      by (apply lookup_replicate_None; lia).
    cbn [run step worker main units SIGTERM trace]. rewrite Hnone.
    cbn [run step worker main units SIGTERM trace]. now rewrite Hidle. }
  rewrite run_app, Henter, run_app, Hunits, run_app, Hleave, run_app, run_repairs.
  cbn [run step worker main units SIGTERM trace]. eauto.
Qed.

(** C8.  In every run of [worker]: when it has finished, the calls of
    [repair_overlapping_keys] are those of the groups, one call for each
    model name of the partitions and no two for one name, made one after
    the other after every unit has returned from [process]; and when a
    unit has read the signal flag and raised [SystemExit], the flag was
    set, there is no call of [repair_overlapping_keys], and the main thread
    is not in the repairs nor finished. *)
Theorem worker_repairs (schedule : list action) (s : state) :
  run THREAD_WORKER_COUNT ps schedule init = Some s ->
  (main s = Finished ->
     repairs (trace s) = groups ps /\
     List.NoDup (map fst (groups ps)) /\
     (forall name, In name (map fst (groups ps)) <->
                   exists p, In p ps /\ model_name p = name) /\
     exists before,
       trace s = before ++ repair_events (groups ps) /\
       repairs before = [] /\
       forall u, (u < length ps)%nat -> In (ProcessReturn u) before) /\
  ((exists u, In (SysExit u) (trace s)) ->
     SIGTERM s = true /\
     repairs (trace s) = [] /\
     main s <> Finished /\ forall rest, main s <> Repairing rest).
Proof.
  intros Hrun.
  assert (Hinv := invariant_run schedule _ _ (invariant_init) Hrun).
  split.
  - intros Hfin. destruct Hinv as [Hr He Hm]. rewrite Hfin in Hm.
    destruct Hm as (Hlen & Hall & before & Ht & Hb).
    destruct (groups_names ps) as [Hnd Hnames].
    split; [now rewrite Ht, repairs_app, Hb, repairs_repair_events|].
    split; [exact Hnd|]. split; [exact Hnames|].
    exists before. split; [exact Ht|]. split; [exact Hb|].
    intros u Hu. rewrite <- Hlen in Hu.
    assert (Hin := Hr u (Hall u Hu)). rewrite Ht in Hin.
    apply in_app_or in Hin as [Hin|Hin]; [exact Hin|].
    apply repair_events_In in Hin as (name & g & [=]).
  - intros (u & Hu).
    destruct (inv_exited ps s Hinv u Hu) as [Hx Hf].
    destruct (invariant_not_processed s u Exited Hinv Hx ltac:(discriminate))
      as [Hrep Hmain].
    split; [exact Hf|]. split; [exact Hrep|].
    destruct (main s); try contradiction; split; intros; discriminate.
Qed.

End WithCount.

Lemma worker_repairs_witness :
  (main finished_state = Finished ->
     repairs (trace finished_state) = groups three_partitions /\
     List.NoDup (map fst (groups three_partitions)) /\
     (forall name, In name (map fst (groups three_partitions)) <->
                   exists p, In p three_partitions /\ model_name p = name) /\
     exists before,
       trace finished_state = before ++ repair_events (groups three_partitions) /\
       repairs before = [] /\
       forall u, (u < length three_partitions)%nat -> In (ProcessReturn u) before) /\
  ((exists u, In (SysExit u) (trace finished_state)) ->
     SIGTERM finished_state = true /\
     repairs (trace finished_state) = [] /\
     main finished_state <> Finished /\
     forall rest, main finished_state <> Repairing rest).
Proof.
  apply (worker_repairs 2 three_partitions full_schedule finished_state).
  reflexivity.
Defined.

(** A run that the signal cancels: the last unit reads the flag. *)
Example cancelled_run :
  run 2 three_partitions cancelled_schedule init = Some cancelled_state.
Proof. reflexivity. Qed.

End IngestFacts.

(** ** More on the shard assigner *)

Module ShardMore.
Import Shard ShardFacts.

Lemma filter_sublist {A : Type} (p : A -> bool) (l : list A) :
  sublist (List.filter p l) l.
Proof.
  induction l as [|x l IH]; simpl; [constructor|].
  destruct (p x); [now apply sublist_skip | now apply sublist_cons].
Qed.

Lemma int16_raises (s : string) (e : Py.exn) : int16 s = Raise e -> e = ValueError.
Proof. unfold int16. destruct (hex_signed_number _); [discriminate | congruence]. Qed.

(** A loop that returns has read a shard off every file. *)
Lemma identify_loop_returns (files : list string) (node_id node_count : Z) :
  forall acc r,
    identify_loop files node_id node_count acc = Ok r ->
    forall f, In f files -> exists k, shard_of node_count f = Ok k.
Proof.
  induction files as [|g rest IH]; intros acc r H f Hf; [destruct Hf|].
  simpl in H. unfold shard_of.
  destruct (int16 (name_prefix g)) as [v|e] eqn:Ev; simpl in H; [|discriminate].
  destruct (py_mod v node_count) as [k|e] eqn:Ek; simpl in H; [|discriminate].
  destruct Hf as [<-|Hf].
  - rewrite Ev. simpl. rewrite Ek. eauto.
  - destruct (k =? node_id); exact (IH _ _ H f Hf).
Qed.

(** X1.  When [identify_files_to_process] returns, the name of every file
    of the glob has been read as a hexadecimal number, the node count is
    not 0 unless no file matches the glob, and the files returned are those
    of the glob whose shard is [node_id], in the order of the listing, each
    with a name that ends in [.jsonl.gz]. *)
Theorem identify_returns (input_dir : directory) (node_id node_count : Z)
    (files_to_process : list string) :
  identify_files_to_process input_dir node_id node_count = Ok files_to_process ->
  files_to_process = List.filter (owned_by node_count node_id) (glob input_dir) /\
  sublist files_to_process input_dir /\
  (forall f, In f files_to_process -> has_suffix ".jsonl.gz" f = true) /\
  (forall f, In f (glob input_dir) -> exists v, int16 (name_prefix f) = Ok v) /\
  (glob input_dir <> [] -> node_count <> 0).
Proof.
  unfold identify_files_to_process. intros H.
  assert (Hall := identify_loop_returns _ _ _ _ _ H).
  rewrite identify_loop_filter in H by exact Hall. injection H as <-.
  split; [reflexivity|]. split; [|split; [|split]].
  - transitivity (glob input_dir); apply filter_sublist.
  - intros f Hf. apply filter_In in Hf as [Hf _].
    apply filter_In in Hf as [_ Hf]. exact Hf.
  - intros f Hf. destruct (Hall f Hf) as [k Hk]. unfold shard_of in Hk.
    destruct (int16 (name_prefix f)) as [v|e]; [eauto | discriminate].
  - intros Hne ->. destruct (glob input_dir) as [|f rest]; [congruence|].
    destruct (Hall f (or_introl eq_refl)) as [k Hk]. unfold shard_of, py_mod in Hk.
    destruct (int16 (name_prefix f)); simpl in Hk; discriminate.
Qed.

Lemma identify_returns_witness :
  ["0000000000000001b.jsonl.gz"; "0000000000000004e.jsonl.gz"]%string
  = List.filter (owned_by 3 1) (glob six_files) /\
  sublist ["0000000000000001b.jsonl.gz"; "0000000000000004e.jsonl.gz"]%string
    six_files /\
  (forall f, In f ["0000000000000001b.jsonl.gz"; "0000000000000004e.jsonl.gz"]%string ->
             has_suffix ".jsonl.gz" f = true) /\
  (forall f, In f (glob six_files) -> exists v, int16 (name_prefix f) = Ok v) /\
  (glob six_files <> [] -> 3 <> 0).
Proof.
  apply (identify_returns six_files 1 3). reflexivity.
Defined.

(** X2.  One file of the glob whose name begins with 16 ASCII characters
    that do not read as a hexadecimal number makes the call raise
    [ValueError] for every node id, when the node count is not 0. *)
Theorem identify_bad_name (input_dir : directory) (node_id node_count : Z)
    (f : string) :
  node_count <> 0 ->
  In f (glob input_dir) ->
  ascii_prefixed f = true ->
  (forall v, int16 (name_prefix f) <> Ok v) ->
  identify_files_to_process input_dir node_id node_count = Raise ValueError.
Proof.
  intros HC Hf _ Hbad. unfold identify_files_to_process.
  generalize (@nil string) as acc.
  induction (glob input_dir) as [|g rest IH]; intros acc; [destruct Hf|].
  simpl. destruct (int16 (name_prefix g)) as [v|e] eqn:Ev; simpl.
  - unfold py_mod. destruct (node_count =? 0) eqn:E0;
      [apply Z.eqb_eq in E0; contradiction|].
    simpl. destruct Hf as [->|Hf]; [destruct (Hbad v Ev)|].
    destruct (v mod node_count =? node_id); now apply IH.
  - now rewrite (int16_raises _ _ Ev).
Qed.

Lemma identify_bad_name_witness :
  identify_files_to_process six_files_and_notes 2 3 = Raise ValueError.
Proof.
  apply (identify_bad_name six_files_and_notes 2 3 "notes.jsonl.gz").
  - lia.
  - vm_compute. tauto.
  - reflexivity.
  - intros v H. vm_compute in H. discriminate.
Defined.

(** X3.  With a node count above 0 and names that begin with 16
    hexadecimal characters, a node id outside [0 .. node_count-1] is given
    no file, and nothing is raised. *)
Theorem identify_foreign_node (input_dir : directory) (node_id node_count : Z) :
  0 < node_count ->
  (forall f, In f (glob input_dir) -> hex_prefixed f = true) ->
  node_id < 0 \/ node_count <= node_id ->
  identify_files_to_process input_dir node_id node_count = Ok [].
Proof.
  intros HC Hhex Hout. unfold identify_files_to_process.
  rewrite identify_loop_filter.
  - f_equal. simpl.
    induction (glob input_dir) as [|f rest IH]; [reflexivity|].
    simpl. destruct (owned_by node_count node_id f) eqn:Eo.
    + apply owned_by_spec in Eo as (v & _ & Hv); [|lia].
      pose proof (Z.mod_pos_bound v node_count HC). lia.
    + apply IH. intros g Hg. apply Hhex. now right.
  - intros f Hf.
    destruct (shard_of_hex_prefixed node_count f ltac:(lia) (Hhex f Hf))
      as (v & _ & Hv).
    eauto.
Qed.

Lemma identify_foreign_node_witness :
  identify_files_to_process six_files 3 3 = Ok [].
Proof.
  apply (identify_foreign_node six_files 3 3).
  - lia.
  - intros f Hf. vm_compute in Hf.
    repeat (destruct Hf as [<-|Hf]; [reflexivity|]). destruct Hf.
  - right. lia.
Defined.

Lemma hex_digit_range (c : ascii) (d : Z) : hex_digit c = Some d -> 0 <= d < 16.
Proof.
  destruct c as [[] [] [] [] [] [] [] []]; intros H; vm_compute in H;
    first [discriminate | injection H as <-; lia].
Qed.

Lemma hex_digits_bound (s : list ascii) :
  all_hex s ->
  forall acc v, 0 <= acc -> hex_digits false acc s = Some v ->
    acc * 16 ^ Z.of_nat (length s) <= v < (acc + 1) * 16 ^ Z.of_nat (length s).
Proof.
  induction 1 as [|c s Hc _ IH]; intros acc v Hacc H.
  - simpl in H. injection H as <-. simpl. lia.
  - simpl in H. rewrite (is_hex_not_underscore c Hc) in H.
    destruct (hex_digit c) as [d|] eqn:Ed; [|discriminate].
    apply hex_digit_range in Ed.
    apply IH in H; [|lia].
    change (length (c :: s)) with (S (length s)).
    rewrite Nat2Z.inj_succ, Z.pow_succ_r by lia.
    assert (0 < 16 ^ Z.of_nat (length s)) by (apply Z.pow_pos_nonneg; lia).
    nia.
Qed.

Lemma hex_signed_number_digits (s : list ascii) :
  all_hex s -> s <> [] -> hex_signed_number s = hex_digits false 0 s.
Proof.
  intros H Hne. destruct H as [|c s Hc Hs]; [congruence|].
  assert (Hpre : hex_prefixed_number (c :: s) = hex_number (c :: s)).
  { unfold hex_prefixed_number. destruct Hs as [|x s' Hx _]; [reflexivity|].
    rewrite (is_hex_not_x x Hx), andb_false_r. reflexivity. }
  unfold hex_signed_number.
  destruct (is_hex_not_sign c Hc) as [-> ->]. rewrite Hpre.
  unfold hex_number. now rewrite (is_hex_not_underscore c Hc).
Qed.

(** X4.  The number read off a name that begins with 16 hexadecimal
    characters is a 64 bit number: it lies in [0 .. 2^64 - 1], so the
    shard of the file is the remainder of an unsigned 64 bit number. *)
Theorem int16_sixty_four_bits (f : string) :
  hex_prefixed f = true ->
  exists v, int16 (name_prefix f) = Ok v /\ 0 <= v < 2 ^ 64.
Proof.
  unfold hex_prefixed, int16. intros H.
  apply andb_prop in H as [Hlen Hall].
  apply Nat.eqb_eq in Hlen.
  assert (Hhex : all_hex (list_ascii_of_string (name_prefix f))).
  { apply List.Forall_forall. exact (proj1 (List.forallb_forall _ _) Hall). }
  rewrite (strip_hex _ Hhex).
  rewrite hex_signed_number_digits;
    [|exact Hhex | intros E; rewrite E in Hlen; discriminate].
  destruct (hex_digits_hex _ Hhex 0) as [v Hv]. rewrite Hv.
  exists v. split; [reflexivity|].
  apply (hex_digits_bound _ Hhex) in Hv; [|lia].
  rewrite Hlen in Hv. change (16 ^ Z.of_nat 16) with (2 ^ 64) in Hv. lia.
Qed.

Lemma int16_sixty_four_bits_witness :
  exists v, int16 (name_prefix "ffffffffffffffffa.jsonl.gz") = Ok v /\ 0 <= v < 2 ^ 64.
Proof.
  apply (int16_sixty_four_bits "ffffffffffffffffa.jsonl.gz"). reflexivity.
Defined.

(** X5.  Listings compose: when the call returns on two listings, it
    returns on the two put together, with the files of the first followed
    by the files of the second. *)
Theorem identify_listings_compose (dir1 dir2 : directory) (node_id node_count : Z)
    (files1 files2 : list string) :
  identify_files_to_process dir1 node_id node_count = Ok files1 ->
  identify_files_to_process dir2 node_id node_count = Ok files2 ->
  identify_files_to_process (dir1 ++ dir2) node_id node_count
  = Ok (files1 ++ files2).
Proof.
  unfold identify_files_to_process. intros H1 H2.
  assert (Hall1 := identify_loop_returns _ _ _ _ _ H1).
  assert (Hall2 := identify_loop_returns _ _ _ _ _ H2).
  rewrite identify_loop_filter in H1 by exact Hall1.
  rewrite identify_loop_filter in H2 by exact Hall2.
  injection H1 as <-. injection H2 as <-.
  unfold glob. rewrite List.filter_app. fold (glob dir1) (glob dir2).
  rewrite identify_loop_filter.
  - now rewrite List.filter_app.
  - intros f Hf. apply in_app_or in Hf as [Hf|Hf]; eauto.
Qed.

Lemma identify_listings_compose_witness :
  identify_files_to_process (six_files ++ two_more_files) 1 3
  = Ok ["0000000000000001b.jsonl.gz"; "0000000000000004e.jsonl.gz";
        "0000000000000007g.jsonl.gz"; "000000000000000ah.jsonl.gz"]%string.
Proof.
  apply (identify_listings_compose six_files two_more_files 1 3
           ["0000000000000001b.jsonl.gz"; "0000000000000004e.jsonl.gz"]%string
           ["0000000000000007g.jsonl.gz"; "000000000000000ah.jsonl.gz"]%string);
    reflexivity.
Defined.

End ShardMore.

(** ** More on [update_listeners] *)

Module UpdateMore.
Import JoinRewards UpdateFacts MergeFacts.

Lemma filter_filter_narrow {A : Type} (p q : A -> bool) (l : list A) :
  (forall x, p x = true -> q x = true) ->
  List.filter p (List.filter q l) = List.filter p l.
Proof.
  intros H. induction l as [|x l IH]; simpl; [reflexivity|].
  destruct (q x) eqn:Eq; simpl.
  - now rewrite IH.
  - destruct (p x) eqn:Ep; [|exact IH]. rewrite (H x Ep) in Eq. discriminate.
Qed.

Lemma filter_filter_wide {A : Type} (p q : A -> bool) (l : list A) :
  (forall x, q x = true -> p x = true) ->
  List.filter p (List.filter q l) = List.filter q l.
Proof.
  intros H. induction l as [|x l IH]; simpl; [reflexivity|].
  destruct (q x) eqn:Eq; simpl; [|exact IH].
  now rewrite (H x Eq), IH.
Qed.

Section WithEnv.

Variable E : env.

Lemma expired_later (h : heap) (t1 t2 : Z) (l : loc) :
  t1 <= t2 -> expired E h t1 l = true -> expired E h t2 l = true.
Proof.
  unfold expired. intros Hle. destruct (strptime E (h l)); [|trivial].
  rewrite !Z.ltb_lt. lia.
Qed.

(** The window update never writes to a listener whose window is over. *)
Lemma window_update_expired (t : Z) (reward : val) (l : loc) :
  forall (ls : list loc) (h h' : heap) (ls' : list loc) (out : outcome),
    window_update E h ls t reward = (h', ls', out) ->
    expired E h t l = true -> h' l = h l.
Proof.
  induction ls as [|x rest IH]; intros h h' ls' out H Hexp; simpl in H.
  - now injection H as <- <- <-.
  - destruct (window_update E h rest t reward) as [[h1 rest'] out1] eqn:E1.
    assert (IHl := IH _ _ _ _ E1 Hexp).
    destruct out1 as [e|]; [injection H as <- <- <-; exact IHl|].
    destruct (strptime E (h1 x)) as [lt|e] eqn:Et;
      [|injection H as <- <- <-; exact IHl].
    destruct (lt + window E <? t) eqn:Ew; [injection H as <- <- <-; exact IHl|].
    destruct (add_reward E (h1 x) reward) as [d|e];
      injection H as <- <- <-; [|exact IHl].
    destruct (Nat.eq_dec l x) as [->|Hne].
    + unfold expired in Hexp. rewrite <- IHl, Et, Ew in Hexp. discriminate.
    + now rewrite heap_set_other.
Qed.

Lemma add_reward_float (d d' : record) (reward : val) :
  add_reward E d reward = Ok d' -> exists a, d' !! "reward" = Some (VFloat a).
Proof.
  unfold add_reward. intros Ed.
  destruct (to_float reward) as [f|]; simpl in Ed; [|discriminate].
  destruct (default _ (d !! "reward")) as [|b|z|a| | | |]; simpl in Ed;
    try discriminate.
  - injection Ed as <-. rewrite lookup_insert_eq. eauto.
  - destruct (float_of_int z); simpl in Ed; [|discriminate].
    injection Ed as <-. rewrite lookup_insert_eq. eauto.
  - injection Ed as <-. rewrite lookup_insert_eq. eauto.
Qed.


(** X7.  However the call ends, a record it has written to is a listener
    of the list whose window was not over at the timestamp of the
    contribution, and the contribution was a number: an expired listener
    and a record outside the list are as before, also when the call
    raises. *)
Theorem update_listeners_writes (h h' : heap) (ls ls' : list loc)
    (ts reward : val) (out : outcome) (l : loc) :
  update_listeners E h ls ts reward = (h', ls', out) ->
  h' l <> h l ->
  In l ls /\ is_number reward = true /\
  exists t, ts = VDatetime t /\ expired E h t l = false.
Proof.
  intros H Hne.
  destruct (update_listeners_frame E _ _ _ _ _ _ _ H) as (_ & Hout & _).
  split.
  { destruct (in_dec Nat.eq_dec l ls) as [Hin|Hnin]; [exact Hin|].
    destruct (Hne (Hout l Hnin)). }
  destruct (update_listeners_cases E h ls ts reward)
    as [(t & -> & Hnum & Hw)|[_ Hraise]].
  - split; [exact Hnum|]. exists t. split; [reflexivity|].
    destruct (expired E h t l) eqn:Eexp; [|reflexivity].
    destruct (window_update E h ls t reward) as [[h1 ls1] o1] eqn:E1.
    assert (Hsame := window_update_expired _ _ _ _ _ _ _ _ E1 Eexp).
    destruct o1; rewrite Hw in H; injection H as <- _ _; contradiction.
  - rewrite Hraise in H. injection H as <- _ _. contradiction.
Qed.

(** X8.  Two calls that return, one after the other on the same list: when
    the second contribution is not earlier than the first, the list left
    is the list given without the listeners whose window is over at the
    second timestamp; when it is not later, the second call removes no
    listener. *)
Theorem update_listeners_twice (h h1 h2 : heap) (ls ls1 ls2 : list loc)
    (t1 t2 : Z) (reward1 reward2 : val) :
  update_listeners E h ls (VDatetime t1) reward1 = (h1, ls1, None) ->
  update_listeners E h1 ls1 (VDatetime t2) reward2 = (h2, ls2, None) ->
  (t1 <= t2 -> ls2 = List.filter (fun l => negb (expired E h t2 l)) ls) /\
  (t2 <= t1 -> ls2 = ls1).
Proof.
  intros H1 H2.
  destruct (update_listeners_frame E _ _ _ _ _ _ _ H1) as (Hsame & _ & _).
  apply update_listeners_returns in H1 as (t & [= <-] & _ & Hw1).
  apply update_listeners_returns in H2 as (t & [= <-] & _ & Hw2).
  apply window_update_returns in Hw1 as [-> _].
  apply window_update_returns in Hw2 as [-> _].
  assert (Hext : forall ls0,
             List.filter (fun l => negb (expired E h1 t2 l)) ls0
             = List.filter (fun l => negb (expired E h t2 l)) ls0).
  { intros ls0. apply List.filter_ext. intros l.
    now rewrite (same_fields_expired E h h1 t2 l Hsame). }
  rewrite Hext. split; intros Hle.
  - apply filter_filter_narrow. intros l Hl.
    destruct (expired E h t1 l) eqn:E1; [|reflexivity].
    rewrite (expired_later h t1 t2 l Hle E1) in Hl. discriminate.
  - apply filter_filter_wide. intros l Hl.
    destruct (expired E h t2 l) eqn:E2; [|reflexivity].
    rewrite (expired_later h t2 t1 l Hle E2) in Hl. discriminate.
Qed.

(** X9.  After a call that returns, the reward of every listener left in
    the list is a float, whatever it was before: an [int], a [bool], a
    float or absent. *)
Theorem update_listeners_float_rewards (h h' : heap) (ls ls' : list loc)
    (ts reward : val) (l : loc) :
  update_listeners E h ls ts reward = (h', ls', None) ->
  In l ls' ->
  exists a, h' l !! "reward" = Some (VFloat a).
Proof.
  intros H Hin.
  apply update_listeners_returns in H as (t & -> & _ & Hw).
  apply window_update_returns in Hw as [_ Hcredit].
  specialize (Hcredit l).
  apply (count_occ_In Nat.eq_dec) in Hin.
  destruct (count_occ Nat.eq_dec ls' l) as [|n]; [lia|].
  simpl in Hcredit.
  destruct (credit E reward n (h l)) as [d|e]; simpl in Hcredit; [|discriminate].
  exact (add_reward_float _ _ _ Hcredit).
Qed.

(** X10.  When the window of every listener is over, the call empties the
    list, writes to no record and returns, for any number: [float(reward)]
    is not evaluated, so that a number too large for a float raises
    nothing. *)
Theorem update_listeners_all_expired (h : heap) (ls : list loc) (t : Z)
    (reward : val) :
  is_number reward = true ->
  (forall l, In l ls -> exists t0, strptime E (h l) = Ok t0 /\ t0 + window E < t) ->
  update_listeners E h ls (VDatetime t) reward = (h, [], None).
Proof.
  intros Hn Hall. unfold update_listeners. rewrite Hn, update_loop_window.
  assert (Hw : window_update E h ls t reward = (h, [], None)).
  { induction ls as [|x rest IH]; [reflexivity|]. simpl.
    rewrite IH by (intros l Hl; apply Hall; now right).
    destruct (Hall x (or_introl eq_refl)) as (t0 & -> & Ht0).
    now rewrite (proj2 (Z.ltb_lt _ _) Ht0). }
  now rewrite Hw.
Qed.

End WithEnv.


Lemma update_listeners_writes_witness :
  In 1%nat [0; 1]%nat /\ is_number (VInt 2) = true /\
  exists t, VDatetime 110500000 = VDatetime t /\
            expired example_env two_listeners t 1%nat = false.
Proof.
  apply (update_listeners_writes example_env two_listeners
           (fst (fst two_listeners_updated)) [0; 1]%nat
           (snd (fst two_listeners_updated)) (VDatetime 110500000) (VInt 2) None).
  - reflexivity.
  - intros Heq.
    apply (f_equal (fun d : record =>
                      match d !! "reward" with Some _ => true | None => false end))
      in Heq.
    vm_compute in Heq. discriminate.
Defined.

Lemma update_listeners_twice_witness :
  (105000000 <= 110500000 ->
   snd (fst two_listeners_second)
   = List.filter (fun l => negb (expired example_env two_listeners 110500000 l))
       [0; 1]%nat) /\
  (110500000 <= 105000000 ->
   snd (fst two_listeners_second) = snd (fst two_listeners_first)).
Proof.
  apply (update_listeners_twice example_env two_listeners
           (fst (fst two_listeners_first)) (fst (fst two_listeners_second))
           [0; 1]%nat (snd (fst two_listeners_first)) (snd (fst two_listeners_second))
           105000000 110500000 (VInt 1) (VInt 2)); reflexivity.
Defined.

Lemma update_listeners_float_rewards_witness :
  exists a, fst (fst two_listeners_updated) 1%nat !! "reward" = Some (VFloat a).
Proof.
  apply (update_listeners_float_rewards example_env two_listeners
           (fst (fst two_listeners_updated)) [0; 1]%nat
           (snd (fst two_listeners_updated)) (VDatetime 110500000) (VInt 2) 1%nat).
  - reflexivity.
  - vm_compute. tauto.
Defined.

Lemma update_listeners_all_expired_witness :
  update_listeners example_env two_listeners [0; 1]%nat (VDatetime 200000000)
    huge_reward
  = (two_listeners, [], None).
Proof.
  apply (update_listeners_all_expired example_env two_listeners [0; 1]%nat
           200000000 huge_reward).
  - reflexivity.
  - intros l [<-|[<-|[]]]; eexists; (split; [reflexivity | vm_compute; reflexivity]).
Defined.

(** The same number, while a window is open, makes the call raise. *)
Example update_listeners_overflow :
  snd (update_listeners example_env two_listeners [0; 1]%nat (VDatetime 105000000)
         huge_reward)
  = Some UpdateListenersError.
Proof. vm_compute. reflexivity. Qed.

End UpdateMore.

(** ** More on [assign_rewards_to_decisions] *)

Module MergeMore.
Import JoinRewards UpdateFacts MergeFacts UpdateMore.

Lemma key_eqb_str_l (k : key) (s : string) : key_eqb (KStr s) k = true -> k = KStr s.
Proof.
  destruct k; simpl; try discriminate.
  rewrite String.eqb_eq. congruence.
Qed.

Lemma map_keyed_impl (P Q : key -> loc -> Prop) (m : listener_map) :
  (forall k l, P k l -> Q k l) -> map_keyed P m -> map_keyed Q m.
Proof.
  intros H. unfold map_keyed. apply List.Forall_impl. intros e.
  apply List.Forall_impl. apply H.
Qed.

Lemma map_keyed_get (P : key -> loc -> Prop) (k : key) (l : loc) :
  forall m : listener_map,
    map_keyed P m -> In l (default [] (map_get m k)) ->
    exists k', key_eqb k' k = true /\ P k' l.
Proof.
  induction m as [|[k1 l1] m IH]; intros Hm Hin; simpl in Hin; [destruct Hin|].
  apply List.Forall_cons_iff in Hm as [H1 Hm].
  destruct (key_eqb k1 k) eqn:Ek.
  - exists k1. split; [exact Ek|].
    exact (proj1 (List.Forall_forall _ _) H1 l Hin).
  - now apply IH.
Qed.

(** A list of the map shrinks in place. *)
Lemma map_keyed_shrink (P : key -> loc -> Prop) (k : key) (ls' : list loc) :
  forall m : listener_map,
    map_keyed P m -> sublist ls' (default [] (map_get m k)) ->
    map_keyed P match map_get m k with
                | Some _ => map_set m k ls'
                | None => m
                end.
Proof.
  induction m as [|[k1 l1] m IH]; intros Hm Hs; simpl in *; [exact Hm|].
  apply List.Forall_cons_iff in Hm as [H1 Hm].
  destruct (key_eqb k1 k) eqn:Ek.
  - constructor; [|exact Hm]. simpl in *.
    apply List.Forall_forall. intros l Hl.
    apply (proj1 (List.Forall_forall _ _) H1). exact (sublist_In _ _ _ Hs Hl).
  - specialize (IH Hm Hs). destruct (map_get m k); constructor; assumption.
Qed.

(** A decision joins the list of its key. *)
Lemma map_keyed_append (P : key -> loc -> Prop) (k : key) (r : loc) :
  (forall k', k' = k \/ key_eqb k' k = true -> P k' r) ->
  forall m : listener_map,
    map_keyed P m ->
    map_keyed P (map_set m k (default [] (map_get m k) ++ [r])).
Proof.
  intros Hr. induction m as [|[k1 l1] m IH]; intros Hm; simpl.
  - constructor; [|constructor]. simpl. constructor; [|constructor].
    apply Hr. now left.
  - apply List.Forall_cons_iff in Hm as [H1 Hm].
    destruct (key_eqb k1 k) eqn:Ek; constructor; try assumption.
    + simpl in *. apply List.Forall_app. split; [exact H1|].
      constructor; [|constructor]. apply Hr. now right.
    + now apply IH.
Qed.

Section WithEnv.

Variable E : env.

(** What one call writes to, however it ends. *)
Lemma update_listeners_touch (h h' : heap) (ls ls' : list loc) (ts reward : val)
    (out : outcome) :
  update_listeners E h ls ts reward = (h', ls', out) ->
  forall l, h' l = h l \/
            (In l ls /\ exists t, ts = VDatetime t /\ expired E h t l = false).
Proof.
  intros H l.
  destruct (update_listeners_frame E _ _ _ _ _ _ _ H) as (_ & Hout & _).
  destruct (in_dec Nat.eq_dec l ls) as [Hin|Hnin]; [|left; now apply Hout].
  destruct (update_listeners_cases E h ls ts reward)
    as [(t & -> & Hnum & Hw)|[_ Hraise]].
  - destruct (expired E h t l) eqn:Eexp; [left | right; eauto].
    destruct (window_update E h ls t reward) as [[h1 ls1] o1] eqn:E1.
    assert (Hsame := window_update_expired E _ _ _ _ _ _ _ _ E1 Eexp).
    destruct o1; rewrite Hw in H; injection H as <- _ _; exact Hsame.
  - rewrite Hraise in H. injection H as <- _ _. now left.
Qed.

Lemma on_reward_pair_touch (P : key -> loc -> Prop) (h h' : heap)
    (m m' : listener_map) (ts : val) (reward_key : string) (reward : val)
    (out : outcome) :
  map_keyed P m ->
  on_reward_pair E h m ts reward_key reward = (h', m', out) ->
  map_keyed P m' /\
  forall l, h' l = h l \/
            (P (KStr reward_key) l /\
             exists t, ts = VDatetime t /\ expired E h t l = false).
Proof.
  intros Hm H. unfold on_reward_pair in H.
  destruct (update_listeners E h (default [] (map_get m (KStr reward_key))) ts reward)
    as [[h1 ls1] o1] eqn:E1.
  injection H as <- <- <-.
  destruct (update_listeners_frame E _ _ _ _ _ _ _ E1) as (_ & _ & Hsub).
  split; [now apply map_keyed_shrink|].
  intros l. destruct (update_listeners_touch _ _ _ _ _ _ _ E1 l) as [Heq|[Hin Ht]];
    [now left | right].
  split; [|exact Ht].
  destruct (map_keyed_get P _ l m Hm Hin) as (k' & Hk' & HP).
  apply key_eqb_str in Hk'. now subst k'.
Qed.

Lemma rewards_loop_touch (P : key -> loc -> Prop) (ts : val) :
  forall (items : list (string * val)) (h h' : heap) (m m' : listener_map)
         (out : outcome),
    map_keyed P m ->
    rewards_loop E h m ts items = (h', m', out) ->
    map_keyed P m' /\
    forall l, h' l = h l \/
              ((exists k v, In (k, v) items /\ P (KStr k) l) /\
               exists t, ts = VDatetime t /\ expired E h t l = false).
Proof.
  induction items as [|[k v] rest IH]; intros h h' m m' out Hm H; simpl in H.
  - injection H as <- <- <-. split; [exact Hm | now left].
  - destruct (on_reward_pair E h m ts k v) as [[h1 m1] o1] eqn:E1.
    destruct (on_reward_pair_touch P _ _ _ _ _ _ _ _ Hm E1) as [Hm1 Ht1].
    destruct (on_reward_pair_frame E _ _ _ _ _ _ _ _ E1) as [Hsame _].
    assert (Hfirst : forall l, h1 l = h l \/
              ((exists k0 v0, In (k0, v0) ((k, v) :: rest) /\ P (KStr k0) l) /\
               exists t, ts = VDatetime t /\ expired E h t l = false)).
    { intros l. destruct (Ht1 l) as [Heq|[HP Ht]]; [now left | right].
      split; [|exact Ht]. exists k, v. split; [now left | exact HP]. }
    destruct o1 as [e|]; [injection H as <- <- <-; now split|].
    destruct (IH _ _ _ _ _ Hm1 H) as [Hm' Ht']. split; [exact Hm'|].
    intros l. destruct (Ht' l) as [Heq|[(k0 & v0 & Hin & HP) (t & -> & Hexp)]].
    + rewrite Heq. apply Hfirst.
    + right. split; [exists k0, v0; split; [now right | exact HP]|].
      exists t. split; [reflexivity|].
      now rewrite <- (same_fields_expired E h h1 t l Hsame).
Qed.

Lemma event_loop_touch (P : key -> loc -> Prop) (ts reward : val) :
  forall (m : listener_map) (h h' : heap) (m' : listener_map) (out : outcome),
    map_keyed P m ->
    event_loop E h m ts reward = (h', m', out) ->
    map_keyed P m' /\
    forall l, h' l = h l \/
              ((exists k, P k l) /\
               exists t, ts = VDatetime t /\ expired E h t l = false).
Proof.
  induction m as [|[k ls] rest IH]; intros h h' m' out Hm H; simpl in H.
  - injection H as <- <- <-. split; [exact Hm | now left].
  - apply List.Forall_cons_iff in Hm as [Hk Hrest]. simpl in Hk.
    destruct (update_listeners E h ls ts reward) as [[h1 ls1] o1] eqn:E1.
    destruct (update_listeners_frame E _ _ _ _ _ _ _ E1) as (Hsame & _ & Hsub).
    assert (Hk1 : List.Forall (P k) ls1).
    { apply List.Forall_forall. intros l Hl.
      apply (proj1 (List.Forall_forall _ _) Hk). exact (sublist_In _ _ _ Hsub Hl). }
    assert (Hfirst : forall l, h1 l = h l \/
              ((exists k0, P k0 l) /\
               exists t, ts = VDatetime t /\ expired E h t l = false)).
    { intros l. destruct (update_listeners_touch _ _ _ _ _ _ _ E1 l) as [Heq|[Hin Ht]];
        [now left | right].
      split; [|exact Ht]. exists k. exact (proj1 (List.Forall_forall _ _) Hk l Hin). }
    destruct o1 as [e|].
    + injection H as <- <- <-. split; [|exact Hfirst].
      constructor; assumption.
    + destruct (event_loop E h1 rest ts reward) as [[h2 rest'] o2] eqn:E2.
      injection H as <- <- <-.
      destruct (IH _ _ _ _ Hrest E2) as [Hm' Ht']. split; [now constructor|].
      intros l. destruct (Ht' l) as [Heq|[HP (t & -> & Hexp)]].
      * rewrite Heq. apply Hfirst.
      * right. split; [exact HP|]. exists t. split; [reflexivity|].
        now rewrite <- (same_fields_expired E h h1 t l Hsame).
Qed.

Lemma joined_more (h : heap) (seen : list loc) (r : loc) (k : key) (l : loc) :
  joined E h seen k l -> joined E h (seen ++ [r]) k l.
Proof.
  intros (Hin & Ht & Hk). split; [|now split]. apply in_or_app. now left.
Qed.

Lemma joined_str (h : heap) (seen : list loc) (s : string) (l : loc) :
  joined E h seen (KStr s) l ->
  In l seen /\ has_type (h l) "decision" = true /\ decision_key E (h l) = Ok (KStr s).
Proof.
  intros (Hin & Ht & k0 & Hk & Heq). split; [exact Hin|]. split; [exact Ht|].
  destruct Heq as [<-|Heq]; [exact Hk|]. now rewrite <- (key_eqb_str_l _ _ Heq).
Qed.

(** One record of the pass: the map holds decisions seen so far under
    their keys, and what the record writes to is a decision seen before it
    that it can contribute to. *)
Lemma on_record_touch (h0 h1 h2 : heap) (m1 m2 : listener_map) (seen : list loc)
    (r : loc) (out : outcome) :
  same_fields h0 h1 ->
  map_keyed (joined E h0 seen) m1 ->
  on_record E h1 m1 r = (h2, m2, out) ->
  map_keyed (joined E h0 (seen ++ [r])) m2 /\
  forall l, h2 l = h1 l \/
            (has_type (h0 l) "decision" = true /\ In l seen /\ rewarded_by E h0 r l).
Proof.
  intros Hsame Hm H.
  assert (Hmore : forall m, map_keyed (joined E h0 seen) m ->
                            map_keyed (joined E h0 (seen ++ [r])) m).
  { intros m. apply map_keyed_impl. intros k l. apply joined_more. }
  unfold on_record in H.
  rewrite !(same_fields_has_type h0 h1 r _ Hsame) in H.
  destruct (has_type (h0 r) "decision") eqn:Td.
  - unfold on_decision in H.
    rewrite (same_fields_decision_key E h0 h1 r Hsame) in H.
    destruct (decision_key E (h0 r)) as [k|e] eqn:Ek; injection H as <- <- <-;
      (split; [|now left]); [|now apply Hmore].
    apply map_keyed_append; [|now apply Hmore].
    intros k' Hk'. split; [apply in_or_app; right; now left|].
    split; [exact Td|]. exists k. split; [exact Ek|]. destruct Hk'; auto.
  - destruct (has_type (h0 r) "rewards") eqn:Tr.
    + unfold on_rewards in H.
      rewrite (same_fields_strptime E h0 h1 r Hsame) in H.
      destruct (strptime E (h0 r)) as [t|e] eqn:Et;
        [|injection H as <- <- <-; split; [now apply Hmore | now left]].
      rewrite (Hsame r "rewards"%string ltac:(discriminate)) in H.
      destruct (h0 r !! "rewards") as [[| | | | | |items|]|] eqn:Ei;
        try (injection H as <- <- <-; split; [now apply Hmore | now left]).
      destruct (rewards_loop_touch _ _ _ _ _ _ _ _ Hm H) as [Hm2 Ht2].
      split; [now apply Hmore|].
      intros l. destruct (Ht2 l) as [Heq|[(k & v & Hin & HP) (t' & [= <-] & Hexp)]];
        [now left | right].
      apply joined_str in HP as (Hseen & Htl & Hkl).
      split; [exact Htl|]. split; [exact Hseen|].
      exists t. split; [exact Et|].
      split; [now rewrite <- (same_fields_expired E h0 h1 t l Hsame)|].
      left. split; [exact Tr|]. exists items, k, v. auto.
    + destruct (has_type (h0 r) "event") eqn:Te;
        [|injection H as <- <- <-; split; [now apply Hmore | now left]].
      unfold on_event in H.
      destruct (event_value E (h1 r)) as [v|e];
        [|injection H as <- <- <-; split; [now apply Hmore | now left]].
      rewrite (same_fields_strptime E h0 h1 r Hsame) in H.
      destruct (strptime E (h0 r)) as [t|e] eqn:Et;
        [|injection H as <- <- <-; split; [now apply Hmore | now left]].
      destruct (event_loop_touch _ _ _ _ _ _ _ _ Hm H) as [Hm2 Ht2].
      split; [now apply Hmore|].
      intros l. destruct (Ht2 l) as [Heq|[(k & HP) (t' & [= <-] & Hexp)]];
        [now left | right].
      destruct HP as (Hseen & Htl & _).
      split; [exact Htl|]. split; [exact Hseen|].
      exists t. split; [exact Et|].
      split; [now rewrite <- (same_fields_expired E h0 h1 t l Hsame)|].
      now right.
Qed.

Lemma merge_pass_touch (h0 : heap) :
  forall (records seen : list loc) (h1 h' : heap) (m1 m' : listener_map)
         (out : outcome),
    same_fields h0 h1 ->
    map_keyed (joined E h0 seen) m1 ->
    merge_pass E h1 m1 records = (h', m', out) ->
    forall l, h' l = h1 l \/
              (has_type (h0 l) "decision" = true /\
               exists pre r post, records = pre ++ r :: post /\
                                  In l (seen ++ pre) /\ rewarded_by E h0 r l).
Proof.
  induction records as [|r rest IH]; intros seen h1 h' m1 m' out Hsame Hm H l;
    simpl in H.
  - injection H as <- <- <-. now left.
  - destruct (on_record E h1 m1 r) as [[h2 m2] o2] eqn:E2.
    destruct (on_record_touch _ _ _ _ _ _ _ _ Hsame Hm E2) as [Hm2 Ht2].
    destruct (on_record_frame E _ _ _ _ _ _ E2) as [Hsame2 _].
    assert (Hfirst : h2 l = h1 l \/
              (has_type (h0 l) "decision" = true /\
               exists pre r0 post, r :: rest = pre ++ r0 :: post /\
                                   In l (seen ++ pre) /\ rewarded_by E h0 r0 l)).
    { destruct (Ht2 l) as [Heq|(Htl & Hseen & Hrew)]; [now left | right].
      split; [exact Htl|]. exists [], r, rest. rewrite app_nil_r. auto. }
    destruct o2 as [e|]; [injection H as <- <- <-; exact Hfirst|].
    destruct (IH _ _ _ _ _ _ (same_fields_trans _ _ _ Hsame Hsame2) Hm2 H l)
      as [Heq|(Htl & pre & r0 & post & -> & Hin & Hrew)].
    + rewrite Heq. exact Hfirst.
    + right. split; [exact Htl|]. exists (r :: pre), r0, post.
      split; [reflexivity|]. split; [|exact Hrew].
      now rewrite <- app_assoc in Hin.
Qed.

(** X11.  In a pass over records in their order, however it ends, a record
    that has been written to is of type [decision], and some record after
    it in the order can contribute to it: a record with a timestamp at
    which the window of the decision is not over, that is an event, or a
    rewards record with the reward key of the decision among its keys. *)
Theorem merge_pass_writes (h h' : heap) (m' : listener_map) (records : list loc)
    (out : outcome) (l : loc) :
  merge_pass E h [] records = (h', m', out) ->
  h' l <> h l ->
  has_type (h l) "decision" = true /\
  exists pre r post, records = pre ++ r :: post /\ In l pre /\ rewarded_by E h r l.
Proof.
  intros H Hne.
  destruct (merge_pass_touch h records [] h h' [] m' out (same_fields_refl h)
              (List.Forall_nil _) H l) as [Heq|Hw]; [contradiction | exact Hw].
Qed.

(** X12.  However [assign_rewards_to_decisions] ends, a record it has
    written to is one of the records given, of type [decision], with a
    record among those given that can contribute to it; and every field of
    every record but [reward] is as before. *)
Theorem assign_rewards_writes (h : heap)
    (decision_records reward_records event_records : list loc) (l : loc) :
  (forall field, field <> "reward"%string ->
     fst (assign_rewards_to_decisions E h decision_records reward_records
            event_records) l !! field = h l !! field) /\
  (fst (assign_rewards_to_decisions E h decision_records reward_records
          event_records) l <> h l ->
   In l (decision_records ++ reward_records ++ event_records) /\
   has_type (h l) "decision" = true /\
   exists r, In r (decision_records ++ reward_records ++ event_records) /\
             rewarded_by E h r l).
Proof.
  unfold assign_rewards_to_decisions.
  destruct (sort_records_by_timestamp E h _) as [sorted|e] eqn:Es;
    [|split; [reflexivity | intros Hne; now destruct Hne]].
  apply sort_records_perm in Es.
  destruct (merge_pass E h [] sorted) as [[h' m'] out] eqn:Em.
  assert (Hfst : fst (match out with
                      | Some e => (h', @Raise (list loc) e)
                      | None => (h', Ok decision_records)
                      end) = h') by now destruct out.
  rewrite Hfst. split.
  - intros field Hf. destruct (merge_pass_frame E _ _ _ _ _ _ Em) as [Hsame _].
    now apply Hsame.
  - intros Hne.
    destruct (merge_pass_touch h sorted [] h h' [] m' out (same_fields_refl h)
                (List.Forall_nil _) Em l)
      as [Heq|(Htl & pre & r & post & -> & Hin & Hrew)]; [contradiction|].
    split; [|split; [exact Htl|]].
    + apply (Permutation_in _ Es). apply in_or_app. now left.
    + exists r. split; [|exact Hrew].
      apply (Permutation_in _ Es). apply in_or_app. right. now left.
Qed.

End WithEnv.

Lemma first_run_rewards :
  fst first_run 0%nat <> decision_and_reward 0%nat.
Proof.
  intros Heq.
  apply (f_equal (fun d : record =>
                    match d !! "reward" with Some _ => true | None => false end))
    in Heq.
  vm_compute in Heq. discriminate.
Qed.

Lemma merge_pass_writes_witness :
  has_type (decision_and_reward 0%nat) "decision" = true /\
  exists pre r post, [0; 1]%nat = pre ++ r :: post /\ In 0%nat pre /\
                     rewarded_by example_env decision_and_reward r 0%nat.
Proof.
  apply (merge_pass_writes example_env decision_and_reward
           (fst (fst decision_and_reward_merged))
           (snd (fst decision_and_reward_merged)) [0; 1]%nat
           (snd decision_and_reward_merged) 0%nat).
  - reflexivity.
  - exact first_run_rewards.
Defined.

Lemma assign_rewards_writes_witness :
  (forall field, field <> "reward"%string ->
     fst first_run 0%nat !! field = decision_and_reward 0%nat !! field) /\
  (fst first_run 0%nat <> decision_and_reward 0%nat ->
   In 0%nat ([0%nat] ++ [1%nat] ++ []) /\
   has_type (decision_and_reward 0%nat) "decision" = true /\
   exists r, In r ([0%nat] ++ [1%nat] ++ []) /\
             rewarded_by example_env decision_and_reward r 0%nat).
Proof.
  exact (assign_rewards_writes example_env decision_and_reward [0%nat] [1%nat] []
           0%nat).
Defined.

End MergeMore.

(** ** More on the ingest orchestrator *)

Module IngestMore.
Import IngestFirehose IngestFacts.

(** *** The groups *)

Lemma insert_by_name_perm (p : partition) (l : list partition) :
  Permutation (insert_by_name p l) (p :: l).
Proof.
  induction l as [|x l IH]; simpl; [reflexivity|].
  destruct (String.leb (model_name p) (model_name x)); [reflexivity|].
  rewrite IH. apply perm_swap.
Qed.

Lemma sorted_perm (ps : list partition) : Permutation (sorted ps) ps.
Proof.
  induction ps as [|p ps IH]; simpl; [reflexivity|].
  rewrite insert_by_name_perm. now constructor.
Qed.

Lemma groupby_concat (l : list partition) : concat (map snd (groupby l)) = l.
Proof.
  induction l as [|p rest IH]; simpl; [reflexivity|].
  destruct (groupby rest) as [|[name g] gs]; simpl in *.
  - now rewrite <- IH.
  - destruct (String.eqb (model_name p) name); simpl; now rewrite <- IH.
Qed.

Lemma groupby_group (l : list partition) (name : string) (g : list partition) :
  In (name, g) (groupby l) ->
  g <> [] /\ List.Forall (fun p => model_name p = name) g.
Proof.
  revert name g. induction l as [|p rest IH]; intros name g Hin; simpl in Hin;
    [destruct Hin|].
  destruct (groupby rest) as [|[n1 g1] gs].
  - destruct Hin as [[= <- <-]|[]]. split; [discriminate|]. now repeat constructor.
  - destruct (String.eqb (model_name p) n1) eqn:En.
    + apply String.eqb_eq in En. destruct Hin as [[= <- <-]|Hin].
      * split; [discriminate|]. constructor; [exact En|].
        apply (IH n1 g1). now left.
      * apply IH. now right.
    + destruct Hin as [[= <- <-]|Hin]; [|now apply IH].
      split; [discriminate|]. now repeat constructor.
Qed.

Lemma filter_all {A : Type} (q : A -> bool) (l : list A) :
  List.Forall (fun x => q x = true) l -> List.filter q l = l.
Proof. induction 1 as [|x l Hx _ IH]; simpl; [reflexivity|]. now rewrite Hx, IH. Qed.

Lemma filter_none {A : Type} (q : A -> bool) (l : list A) :
  List.Forall (fun x => q x = false) l -> List.filter q l = [].
Proof. induction 1 as [|x l Hx _ IH]; simpl; [reflexivity|]. now rewrite Hx. Qed.

(** In groups of distinct names, the partitions of one name are one
    group. *)
Lemma filter_groups (name : string) (g : list partition) :
  forall gs : list (string * list partition),
    List.NoDup (map fst gs) ->
    (forall n g', In (n, g') gs -> List.Forall (fun p => model_name p = n) g') ->
    In (name, g) gs ->
    List.filter (fun p => String.eqb (model_name p) name) (concat (map snd gs)) = g.
Proof.
  induction gs as [|[n1 g1] gs IH]; intros Hnd Hall Hin; [destruct Hin|].
  simpl. rewrite List.filter_app.
  apply List.NoDup_cons_iff in Hnd as [Hn1 Hnd].
  assert (Hall' : forall n g', In (n, g') gs ->
                               List.Forall (fun p => model_name p = n) g').
  { intros n g' H. apply Hall. now right. }
  destruct Hin as [[= <- <-]|Hin].
  - rewrite filter_all.
    + rewrite filter_none; [apply app_nil_r|].
      apply List.Forall_forall. intros p Hp.
      apply in_concat in Hp as (g' & Hg' & Hp).
      apply in_map_iff in Hg' as ([n g''] & <- & Hg'). simpl in Hp.
      apply String.eqb_neq. intros Heq. apply Hn1.
      apply in_map_iff. exists (n, g''). split; [|exact Hg']. simpl.
      rewrite <- Heq. symmetry.
      exact (proj1 (List.Forall_forall _ _) (Hall' n g'' Hg') p Hp).
    + apply List.Forall_forall. intros p Hp. apply String.eqb_eq.
      exact (proj1 (List.Forall_forall _ _) (Hall n1 g1 (or_introl eq_refl)) p Hp).
  - rewrite filter_none; [now apply IH|].
    apply List.Forall_forall. intros p Hp. apply String.eqb_neq. intros Heq.
    apply Hn1. apply in_map_iff. exists (name, g). split; [|exact Hin]. simpl.
    rewrite <- Heq.
    exact (proj1 (List.Forall_forall _ _) (Hall n1 g1 (or_introl eq_refl)) p Hp).
Qed.

(** The sort is stable: it keeps the order of the partitions of one
    name. *)
Lemma filter_insert_by_name (name : string) (p : partition) (l : list partition) :
  List.filter (fun x => String.eqb (model_name x) name) (insert_by_name p l)
  = List.filter (fun x => String.eqb (model_name x) name) (p :: l).
Proof.
  induction l as [|x l IH]; [reflexivity|].
  simpl insert_by_name.
  destruct (String.leb (model_name p) (model_name x)) eqn:Ele; [reflexivity|].
  simpl in *. rewrite IH.
  destruct (String.eqb (model_name p) name) eqn:Ep; [|reflexivity].
  destruct (String.eqb (model_name x) name) eqn:Ex; [|reflexivity].
  apply String.eqb_eq in Ep, Ex. rewrite Ep, Ex in Ele.
  destruct (String.leb_total name name); congruence.
Qed.

Lemma filter_sorted (name : string) (ps : list partition) :
  List.filter (fun x => String.eqb (model_name x) name) (sorted ps)
  = List.filter (fun x => String.eqb (model_name x) name) ps.
Proof.
  induction ps as [|p ps IH]; [reflexivity|].
  simpl sorted. rewrite filter_insert_by_name. simpl. now rewrite IH.
Qed.

(** X13.  The groups that [worker] repairs split the partitions by model
    name: a group is not empty and holds the partitions of its name, all
    of them, in the order of [decision_partitions], and the groups put
    together are the partitions. *)
Theorem groups_split (ps : list partition) :
  (forall name g, In (name, g) (groups ps) ->
     g <> [] /\
     g = List.filter (fun p => String.eqb (model_name p) name) ps) /\
  Permutation (concat (map snd (groups ps))) ps.
Proof.
  unfold groups. split.
  - intros name g Hin. split; [exact (proj1 (groupby_group _ _ _ Hin))|].
    rewrite <- (filter_sorted name ps).
    rewrite <- (groupby_concat (sorted ps)) at 1.
    symmetry. apply filter_groups.
    + apply groupby_NoDup, sorted_sorted.
    + intros n g' H. exact (proj2 (groupby_group _ _ _ H)).
    + exact Hin.
  - rewrite groupby_concat. apply sorted_perm.
Qed.

(** *** The units *)

Lemma processes_app (a b : list event) (u : nat) :
  processes (a ++ b) u = (processes a u + processes b u)%nat.
Proof.
  induction a as [|e a IH]; [reflexivity|].
  destruct e; simpl; rewrite IH; lia.
Qed.

Lemma started_insert (us : list unit_state) (u v : nat) (st st' : unit_state) :
  us !! u = Some st ->
  started (<[u := st']> us !! v)
  = if Nat.eqb u v then started (Some st') else started (us !! v).
Proof.
  intros Hu. destruct (Nat.eqb u v) eqn:Euv.
  - apply Nat.eqb_eq in Euv. subst v.
    rewrite list_lookup_insert_eq; [reflexivity|].
    exact (lookup_lt_Some _ _ _ Hu).
  - apply Nat.eqb_neq in Euv. now rewrite list_lookup_insert_ne.
Qed.

Lemma started_cancel_pending (us : list unit_state) (v : nat) :
  started (cancel_pending us !! v) = started (us !! v).
Proof.
  unfold cancel_pending. rewrite list_lookup_fmap.
  destruct (us !! v) as [[]|]; reflexivity.
Qed.

(** A unit that changes its state leaves the units past the test as they
    were, unless it is now past the test itself. *)
Lemma checked_insert (us : list unit_state) (u v : nat) (st' : unit_state) :
  st' <> Checked ->
  <[u := st']> us !! v = Some Checked -> us !! v = Some Checked.
Proof.
  intros Hst Hv. destruct (Nat.eq_dec u v) as [<-|Hne].
  - destruct (us !! u) as [st|] eqn:Eu.
    + rewrite list_lookup_insert_eq in Hv by exact (lookup_lt_Some _ _ _ Eu).
      congruence.
    + apply lookup_ge_None in Eu.
      rewrite list_insert_ge in Hv by exact Eu.
      apply lookup_ge_None in Eu. congruence.
  - now rewrite list_lookup_insert_ne in Hv.
Qed.

Section WithCount.

Variable THREAD_WORKER_COUNT : nat.
Variable ps : list partition.

(** One step after the signal: the flag stays, and [process] is called on
    a unit only if the unit was past the test when the signal came. *)
Lemma signalled_step (s0 : state) (a : action) (s s' : state) :
  SIGTERM s = true ->
  (forall u, units s !! u = Some Checked -> units s0 !! u = Some Checked) ->
  step THREAD_WORKER_COUNT ps a s = Some s' ->
  SIGTERM s' = true /\
  (forall u, units s' !! u = Some Checked -> units s0 !! u = Some Checked) /\
  exists ext, trace s' = trace s ++ ext /\
              forall u, In (Process u) ext -> units s0 !! u = Some Checked.
Proof.
  intros Hflag Hck H.
  assert (Hnil : exists ext, trace s = trace s ++ ext /\
                   forall u, In (Process u) ext -> units s0 !! u = Some Checked).
  { exists []. split; [now rewrite app_nil_r | intros u []]. }
  destruct a; simpl in H.
  - injection H as <-. simpl. auto.
  - destruct (main s); try discriminate.
    destruct (THREAD_WORKER_COUNT =? 0)%nat; injection H as <-; simpl;
      (split; [exact Hflag|]); (split; [|exact Hnil]); [exact Hck|].
    intros u Hu. apply lookup_replicate in Hu as [[=] _].
  - destruct (units s !! u) as [[]|] eqn:Eu; try discriminate.
    destruct (running (units s) <? THREAD_WORKER_COUNT)%nat; [|discriminate].
    injection H as <-. unfold process_decisions. rewrite Hflag. simpl.
    split; [reflexivity|]. split.
    + intros v Hv. apply Hck. revert Hv. now apply checked_insert.
    + exists [SysExit u]. split; [reflexivity|]. intros v [Hv|[]]. discriminate.
  - destruct (units s !! u) as [[]|] eqn:Eu; try discriminate.
    injection H as <-. simpl. split; [exact Hflag|]. split.
    + intros v Hv. apply Hck. revert Hv. now apply checked_insert.
    + exists [Process u]. split; [reflexivity|].
      intros v [[= <-]|[]]. now apply Hck.
  - destruct (units s !! u) as [[]|] eqn:Eu; try discriminate.
    injection H as <-. simpl. split; [exact Hflag|]. split.
    + intros v Hv. apply Hck. revert Hv. now apply checked_insert.
    + exists [ProcessReturn u]. split; [reflexivity|]. intros v [Hv|[]]. discriminate.
  - destruct (units s !! u) as [[]|] eqn:Eu; try discriminate.
    injection H as <-. simpl. split; [exact Hflag|]. split; [|exact Hnil].
    intros v Hv. apply Hck. revert Hv. now apply checked_insert.
  - destruct (main s); try discriminate.
    destruct (units s !! i) as [[]|]; try discriminate; injection H as <-; simpl;
      (split; [exact Hflag|]); (split; [|exact Hnil]); try exact Hck;
      intros v Hv; apply Hck;
      apply cancel_pending_lookup in Hv as [_ [Hv|Hv]];
      [discriminate | exact Hv | discriminate | exact Hv].
  - destruct (running (units s) =? 0)%nat; [|discriminate].
    destruct (main s); try discriminate; injection H as <-; simpl; auto.
  - destruct (main s) as [| | | |[|[name g] rest]| |]; try discriminate.
    injection H as <-. simpl. split; [exact Hflag|]. split; [exact Hck|].
    exists [Repair name g]. split; [reflexivity|]. intros v [Hv|[]]. discriminate.
  - destruct (main s) as [| | | |[|[name g] rest]| |]; try discriminate.
    injection H as <-. simpl. auto.
Qed.

(** X15.  Once [SIGTERM] is set it stays set, and from then on [process]
    is called only on partitions whose unit was already past the test of
    the flag, between [if SIGTERM] and the call, when the flag was set: a
    partition whose unit had not reached the test is never processed. *)
Theorem worker_after_signal (schedule : list action) (s s' : state) :
  SIGTERM s = true ->
  run THREAD_WORKER_COUNT ps schedule s = Some s' ->
  SIGTERM s' = true /\
  exists ext, trace s' = trace s ++ ext /\
              forall u, In (Process u) ext -> units s !! u = Some Checked.
Proof.
  intros Hflag H.
  assert (Hgen : forall s1,
             SIGTERM s1 = true ->
             (forall u, units s1 !! u = Some Checked -> units s !! u = Some Checked) ->
             run THREAD_WORKER_COUNT ps schedule s1 = Some s' ->
             SIGTERM s' = true /\
             exists ext, trace s' = trace s1 ++ ext /\
                         forall u, In (Process u) ext -> units s !! u = Some Checked).
  { clear H. induction schedule as [|a rest IH]; intros s1 Hf1 Hck1 H; simpl in H.
    - injection H as <-. split; [exact Hf1|].
      exists []. split; [now rewrite app_nil_r | intros u []].
    - destruct (step THREAD_WORKER_COUNT ps a s1) as [s2|] eqn:E2; [|discriminate].
      destruct (signalled_step s _ _ _ Hf1 Hck1 E2) as (Hf2 & Hck2 & ext1 & Htr1 & Hp1).
      destruct (IH s2 Hf2 Hck2 H) as (Hf' & ext2 & Htr2 & Hp2).
      split; [exact Hf'|]. exists (ext1 ++ ext2).
      split; [now rewrite Htr2, Htr1, app_assoc|].
      intros u Hu. apply in_app_or in Hu as [Hu|Hu]; auto. }
  apply (Hgen s Hflag); [auto | exact H].
Qed.

Lemma processes_step (a : action) (s s' : state) :
  invariant ps s ->
  (forall u, processes (trace s) u = started (units s !! u)) ->
  step THREAD_WORKER_COUNT ps a s = Some s' ->
  forall u, processes (trace s') u = started (units s' !! u).
Proof.
  intros Hinv Hs H v. specialize (Hs v). destruct a; simpl in H.
  - injection H as <-. exact Hs.
  - pose proof (inv_main _ _ Hinv) as Hmain.
    destruct (main s); try discriminate. destruct Hmain as [Hu Htr].
    destruct (THREAD_WORKER_COUNT =? 0)%nat; injection H as <-; simpl; [exact Hs|].
    rewrite Htr. simpl.
    destruct (replicate (length ps) Pending !! v) as [st|] eqn:Ev; [|reflexivity].
    apply lookup_replicate in Ev as [-> _]. reflexivity.
  - destruct (units s !! u) as [[]|] eqn:Eu; try discriminate.
    destruct (running (units s) <? THREAD_WORKER_COUNT)%nat; [|discriminate].
    injection H as <-. unfold process_decisions.
    destruct (SIGTERM s); simpl; rewrite ?processes_app, (started_insert _ _ _ _ _ Eu);
      simpl; destruct (Nat.eqb u v) eqn:Euv; try lia.
    + apply Nat.eqb_eq in Euv. subst v. rewrite Eu in Hs. simpl in Hs. lia.
    + apply Nat.eqb_eq in Euv. subst v. rewrite Eu in Hs. simpl in Hs. lia.
  - destruct (units s !! u) as [[]|] eqn:Eu; try discriminate.
    injection H as <-. simpl. rewrite processes_app, (started_insert _ _ _ _ _ Eu).
    simpl. destruct (Nat.eqb u v) eqn:Euv; [|lia].
    apply Nat.eqb_eq in Euv. subst v. rewrite Eu in Hs. simpl in Hs. lia.
  - destruct (units s !! u) as [[]|] eqn:Eu; try discriminate.
    injection H as <-. simpl. rewrite processes_app, (started_insert _ _ _ _ _ Eu).
    simpl. destruct (Nat.eqb u v) eqn:Euv; [|lia].
    apply Nat.eqb_eq in Euv. subst v. rewrite Eu in Hs. simpl in Hs. lia.
  - destruct (units s !! u) as [[]|] eqn:Eu; try discriminate.
    injection H as <-. simpl. rewrite (started_insert _ _ _ _ _ Eu).
    simpl. destruct (Nat.eqb u v) eqn:Euv; [|lia].
    apply Nat.eqb_eq in Euv. subst v. rewrite Eu in Hs. simpl in Hs. lia.
  - destruct (main s); try discriminate.
    destruct (units s !! i) as [[]|]; try discriminate; injection H as <-; simpl;
      rewrite ?started_cancel_pending; exact Hs.
  - destruct (running (units s) =? 0)%nat; [|discriminate].
    destruct (main s); try discriminate; injection H as <-; exact Hs.
  - destruct (main s) as [| | | |[|[name g] rest]| |]; try discriminate.
    injection H as <-. simpl. rewrite processes_app. simpl. lia.
  - destruct (main s) as [| | | |[|[name g] rest]| |]; try discriminate.
    injection H as <-. exact Hs.
Qed.

Lemma exited_step (a : action) (s s' : state) :
  (forall u, units s !! u = Some Exited ->
             In (SysExit u) (trace s) /\ SIGTERM s = true) ->
  (main s = Unwinding true \/ main s = Terminated true ->
   exists u, units s !! u = Some Exited) ->
  step THREAD_WORKER_COUNT ps a s = Some s' ->
  (forall u, units s' !! u = Some Exited ->
             In (SysExit u) (trace s') /\ SIGTERM s' = true) /\
  (main s' = Unwinding true \/ main s' = Terminated true ->
   exists u, units s' !! u = Some Exited).
Proof.
  intros Hex Hmain H.
  assert (Hins : forall u st st' tr' flag,
             units s !! u = Some st -> st <> Exited ->
             (st' = Exited -> In (SysExit u) tr' /\ flag = true) ->
             (forall e, In e (trace s) -> In e tr') ->
             (SIGTERM s = true -> flag = true) ->
             (forall v, <[u := st']> (units s) !! v = Some Exited ->
                        In (SysExit v) tr' /\ flag = true) /\
             (main s = Unwinding true \/ main s = Terminated true ->
              exists v, <[u := st']> (units s) !! v = Some Exited)).
  { intros u st st' tr' flag Eu Hst Hst' Htr Hflag. split.
    - intros v Hv. destruct (Nat.eq_dec u v) as [<-|Hne].
      + rewrite list_lookup_insert_eq in Hv by exact (lookup_lt_Some _ _ _ Eu).
        injection Hv as ->. now apply Hst'.
      + rewrite list_lookup_insert_ne in Hv by exact Hne.
        destruct (Hex v Hv) as [Hin Hf]. split; [now apply Htr | now apply Hflag].
    - intros Hm. destruct (Hmain Hm) as [v Hv]. exists v.
      rewrite list_lookup_insert_ne; [exact Hv|].
      intros <-. rewrite Eu in Hv. injection Hv as ->. now apply Hst. }
  destruct a; simpl in H.
  - injection H as <-. simpl. split; [|exact Hmain].
    intros u Hu. split; [exact (proj1 (Hex u Hu)) | reflexivity].
  - destruct (main s); try discriminate.
    destruct (THREAD_WORKER_COUNT =? 0)%nat; injection H as <-; simpl.
    + split; [exact Hex|]. intros [|]; discriminate.
    + split; [|intros [|]; discriminate].
      intros u Hu. apply lookup_replicate in Hu as [[=] _].
  - destruct (units s !! u) as [[]|] eqn:Eu; try discriminate.
    destruct (running (units s) <? THREAD_WORKER_COUNT)%nat; [|discriminate].
    injection H as <-. unfold process_decisions.
    destruct (SIGTERM s) eqn:Eflag; simpl.
    + apply (Hins u Pending Exited _ true Eu); try discriminate; auto.
      * intros _. split; [apply in_or_app; right; now left | reflexivity].
      * intros e He. apply in_or_app. now left.
    + apply (Hins u Pending Checked _ false Eu); try discriminate; auto.
  - destruct (units s !! u) as [[]|] eqn:Eu; try discriminate.
    injection H as <-. simpl.
    apply (Hins u Checked Running _ (SIGTERM s) Eu); try discriminate; auto.
    intros e He. apply in_or_app. now left.
  - destruct (units s !! u) as [[]|] eqn:Eu; try discriminate.
    injection H as <-. simpl.
    apply (Hins u Running Processed _ (SIGTERM s) Eu); try discriminate; auto.
    intros e He. apply in_or_app. now left.
  - destruct (units s !! u) as [[]|] eqn:Eu; try discriminate.
    injection H as <-. simpl.
    apply (Hins u Running Failed _ (SIGTERM s) Eu); try discriminate; auto.
  - destruct (main s) eqn:Em; try discriminate.
    destruct (units s !! i) as [[]|] eqn:Ei; try discriminate; injection H as <-; simpl;
      try (split; [exact Hex | intros [|]; discriminate]).
    + split.
      * intros u Hu. apply cancel_pending_lookup in Hu as [_ [|Hu]]; [discriminate|].
        exact (Hex u Hu).
      * intros _. exists i. apply lookup_cancel_pending; [exact Ei | discriminate].
    + split; [|intros [|]; discriminate].
      intros u Hu. apply cancel_pending_lookup in Hu as [_ [|Hu]]; [discriminate|].
      exact (Hex u Hu).
  - destruct (running (units s) =? 0)%nat; [|discriminate].
    destruct (main s) eqn:Em; try discriminate; injection H as <-; simpl;
      (split; [exact Hex|]); [intros [|]; discriminate|].
    intros [|[= ->]]; [discriminate|]. apply Hmain. now left.
  - destruct (main s) as [| | | |[|[name g] rest]| |]; try discriminate.
    injection H as <-. simpl. split; [|intros [|]; discriminate].
    intros u Hu. destruct (Hex u Hu) as [Hin Hf].
    split; [apply in_or_app; now left | exact Hf].
  - destruct (main s) as [| | | |[|[name g] rest]| |]; try discriminate.
    injection H as <-. simpl. split; [exact Hex | intros [|]; discriminate].
Qed.

(** X17.  [worker] is left by [SystemExit] only after a signal: when the
    main thread raises [SystemExit], inside the [with] block or out of it,
    [SIGTERM] is set and some unit has read it and called [sys.exit()]
    without a call of [process]. *)
Theorem worker_system_exit (schedule : list action) (s : state) :
  run THREAD_WORKER_COUNT ps schedule init = Some s ->
  main s = Unwinding true \/ main s = Terminated true ->
  SIGTERM s = true /\
  exists u, units s !! u = Some Exited /\ In (SysExit u) (trace s) /\
            processes (trace s) u = 0%nat.
Proof.
  intros H Hm.
  assert (Hgen : forall s0,
             (forall u, units s0 !! u = Some Exited ->
                        In (SysExit u) (trace s0) /\ SIGTERM s0 = true) ->
             (main s0 = Unwinding true \/ main s0 = Terminated true ->
              exists u, units s0 !! u = Some Exited) ->
             run THREAD_WORKER_COUNT ps schedule s0 = Some s ->
             (forall u, units s !! u = Some Exited ->
                        In (SysExit u) (trace s) /\ SIGTERM s = true) /\
             (main s = Unwinding true \/ main s = Terminated true ->
              exists u, units s !! u = Some Exited)).
  { clear H Hm. induction schedule as [|a rest IH]; intros s0 Hex Hmain H; simpl in H.
    - injection H as <-. now split.
    - destruct (step THREAD_WORKER_COUNT ps a s0) as [s1|] eqn:E1; [|discriminate].
      destruct (exited_step _ _ _ Hex Hmain E1) as [Hex1 Hmain1].
      exact (IH s1 Hex1 Hmain1 H). }
  destruct (Hgen init) as [Hex Hmain]; [discriminate | intros [|]; discriminate | exact H |].
  destruct (Hmain Hm) as [u Hu]. destruct (Hex u Hu) as [Hin Hflag].
  split; [exact Hflag|]. exists u. split; [exact Hu|]. split; [exact Hin|].
  assert (Hgen2 : forall s0,
             invariant ps s0 ->
             (forall v, processes (trace s0) v = started (units s0 !! v)) ->
             run THREAD_WORKER_COUNT ps schedule s0 = Some s ->
             forall v, processes (trace s) v = started (units s !! v)).
  { clear. induction schedule as [|a rest IH]; intros s0 Hinv Hs H; simpl in H.
    - now injection H as <-.
    - destruct (step THREAD_WORKER_COUNT ps a s0) as [s1|] eqn:E1; [|discriminate].
      exact (IH s1 (invariant_step _ _ _ _ _ Hinv E1)
               (processes_step _ _ _ Hinv Hs E1) H). }
  rewrite (Hgen2 init (invariant_init ps) (fun v => eq_refl) H u), Hu. reflexivity.
Qed.

(** X19.  With at least one thread, no signal and no failure, [worker]
    runs to its end: the schedule of one thread that takes the partitions
    in their order ends in the state in which [worker] has returned, every
    partition has been processed, and the groups have been repaired in
    their order. *)
Theorem worker_runs_to_end :
  (0 < THREAD_WORKER_COUNT)%nat ->
  exists s,
    run THREAD_WORKER_COUNT ps (sequential_schedule (length ps) (groups ps)) init
    = Some s /\
    main s = Finished /\
    repairs (trace s) = groups ps /\
    length (units s) = length ps /\ all_processed (units s).
Proof.
  intros HK. destruct (worker_finishes THREAD_WORKER_COUNT ps HK) as (s & Hrun & Hm).
  exists s. split; [exact Hrun|]. split; [exact Hm|].
  pose proof (inv_main _ _ (invariant_run _ _ _ _ _ (invariant_init ps) Hrun)) as Hinv.
  rewrite Hm in Hinv. destruct Hinv as (Hlen & Hall & before & Htr & Hb).
  split; [|now split].
  now rewrite Htr, repairs_app, Hb, repairs_repair_events.
Qed.

(** X21.  In every run of [worker], while a partition is not processed,
    because its unit waits, runs, has failed, has left by [sys.exit()] or
    has been cancelled, no group has been repaired and [worker] is neither
    in the loop of the repairs nor returned: one failure of [process] is
    enough for no repair to be made. *)
Theorem worker_unprocessed_no_repair (schedule : list action) (s : state) (u : nat)
    (st : unit_state) :
  run THREAD_WORKER_COUNT ps schedule init = Some s ->
  units s !! u = Some st ->
  st <> Processed ->
  repairs (trace s) = [] /\ main s <> Finished /\ forall rest, main s <> Repairing rest.
Proof.
  intros H Hu Hst.
  pose proof (invariant_run _ _ _ _ _ (invariant_init ps) H) as Hinv.
  destruct (invariant_not_processed _ _ _ _ Hinv Hu Hst) as [Hrep Hmain].
  split; [exact Hrep|].
  destruct (main s); try contradiction; split; try discriminate; intros rest0;
    discriminate.
Qed.

End WithCount.

Lemma worker_unprocessed_no_repair_witness :
  repairs (trace cancelled_state) = [] /\ main cancelled_state <> Finished /\
  forall rest, main cancelled_state <> Repairing rest.
Proof.
  apply (worker_unprocessed_no_repair 2 three_partitions cancelled_schedule
           cancelled_state 2%nat Exited).
  - reflexivity.
  - reflexivity.
  - discriminate.
Defined.

Lemma groups_split_witness :
  (forall name g, In (name, g) (groups three_partitions) ->
     g <> [] /\
     g = List.filter (fun p => String.eqb (model_name p) name) three_partitions) /\
  Permutation (concat (map snd (groups three_partitions))) three_partitions.
Proof. exact (groups_split three_partitions). Defined.

(** The signal between the test of the flag and the call of [process]:
    unit 1 is processed although the flag is set, unit 2 is not. *)
Example late_signal_run :
  run 2 three_partitions late_signal_schedule init = Some signalled_state /\
  run 2 three_partitions signalled_schedule signalled_state = Some signalled_end.
Proof. split; reflexivity. Qed.

Lemma worker_after_signal_witness :
  SIGTERM signalled_end = true /\
  exists ext, trace signalled_end = trace signalled_state ++ ext /\
              forall u, In (Process u) ext ->
                        units signalled_state !! u = Some Checked.
Proof.
  apply (worker_after_signal 2 three_partitions signalled_schedule).
  - reflexivity.
  - reflexivity.
Defined.

Lemma worker_system_exit_witness :
  SIGTERM cancelled_state = true /\
  exists u, units cancelled_state !! u = Some Exited /\
            In (SysExit u) (trace cancelled_state) /\
            processes (trace cancelled_state) u = 0%nat.
Proof.
  apply (worker_system_exit 2 three_partitions cancelled_schedule).
  - reflexivity.
  - right. reflexivity.
Defined.

Lemma worker_runs_to_end_witness :
  exists s,
    run 2 three_partitions
      (sequential_schedule (length three_partitions) (groups three_partitions)) init
    = Some s /\
    main s = Finished /\
    repairs (trace s) = groups three_partitions /\
    length (units s) = length three_partitions /\ all_processed (units s).
Proof.
  apply (worker_runs_to_end 2 three_partitions). lia.
Defined.

End IngestMore.

(** ** The pass, decision by decision *)

Module CreditFacts.
Import JoinRewards UpdateFacts MergeFacts UpdateMore MergeMore.

Lemma after_snoc (l r : loc) (pre : list loc) :
  after l (pre ++ [r]) = if in_dec Nat.eq_dec l pre then after l pre ++ [r] else [].
Proof.
  induction pre as [|x pre IH]; simpl.
  - now destruct (Nat.eqb r l).
  - destruct (Nat.eqb x l) eqn:Ex.
    + apply Nat.eqb_eq in Ex. destruct (Nat.eq_dec x l); [|contradiction].
      reflexivity.
    + apply Nat.eqb_neq in Ex. destruct (Nat.eq_dec x l); [contradiction|].
      rewrite IH. now destruct (in_dec Nat.eq_dec l pre).
Qed.

Lemma members_In (m : listener_map) (l : loc) :
  In l (members m) <-> exists k ls, In (k, ls) m /\ In l ls.
Proof.
  unfold members. rewrite in_concat. split.
  - intros (ls & Hls & Hl). apply in_map_iff in Hls as ([k ls'] & <- & Hin). eauto.
  - intros (k & ls & Hin & Hl). exists ls. split; [|exact Hl].
    apply in_map_iff. now exists (k, ls).
Qed.

Lemma map_keyed_In (P : key -> loc -> Prop) (m : listener_map) (k : key)
    (ls : list loc) (l : loc) :
  map_keyed P m -> In (k, ls) m -> In l ls -> P k l.
Proof.
  intros Hm Hin Hl.
  exact (proj1 (List.Forall_forall _ _)
           (proj1 (List.Forall_forall _ _) Hm (k, ls) Hin) l Hl).
Qed.

(** A string key is found where it is. *)
Lemma map_get_distinct (s : string) (ls : list loc) :
  forall m : listener_map,
    keys_distinct m -> In (KStr s, ls) m -> map_get m (KStr s) = Some ls.
Proof.
  unfold keys_distinct.
  induction m as [|[k1 l1] m IH]; intros Hd Hin; [destruct Hin|].
  simpl in Hd. inversion Hd as [|? ? Hk1 Hd']; subst. simpl.
  destruct Hin as [[= -> ->]|Hin].
  - simpl. now rewrite String.eqb_refl.
  - destruct (key_eqb k1 (KStr s)) eqn:Ek; [|now apply IH].
    assert (Hk : In (KStr s) (keys m)).
    { apply in_map_iff. now exists (KStr s, ls). }
    rewrite (proj1 (List.Forall_forall _ _) Hk1 _ Hk) in Ek. discriminate.
Qed.

Lemma keys_set_Forall (Q : key -> Prop) (k : key) (ls : list loc) :
  forall m : listener_map,
    List.Forall Q (keys m) -> Q k -> List.Forall Q (keys (map_set m k ls)).
Proof.
  induction m as [|[k1 l1] m IH]; intros Hall Hk; simpl.
  - now repeat constructor.
  - simpl in Hall. apply List.Forall_cons_iff in Hall as [H1 Hall].
    destruct (key_eqb k1 k); simpl; constructor; auto.
Qed.

Lemma keys_distinct_set (k : key) (ls : list loc) :
  forall m : listener_map, keys_distinct m -> keys_distinct (map_set m k ls).
Proof.
  unfold keys_distinct.
  induction m as [|[k1 l1] m IH]; intros Hd; simpl.
  - repeat constructor.
  - simpl in Hd. inversion Hd as [|? ? Hk1 Hd']; subst.
    destruct (key_eqb k1 k) eqn:Ek; simpl; [now constructor|].
    constructor; [|now apply IH].
    now apply keys_set_Forall.
Qed.

(** A list of the map that shrinks leaves the other lists as they are. *)
Lemma members_shrink (k : key) (ls ls' : list loc) :
  forall m : listener_map,
    map_get m k = Some ls ->
    exists a b, members m = a ++ ls ++ b /\
                members (map_set m k ls') = a ++ ls' ++ b.
Proof.
  unfold members.
  induction m as [|[k1 l1] m IH]; intros Hget; [discriminate|].
  simpl in Hget. simpl. destruct (key_eqb k1 k).
  - injection Hget as ->. exists [], (concat (map snd m)). now split.
  - destruct (IH Hget) as (a & b & Ha & Hb). exists (l1 ++ a), b.
    simpl. rewrite Ha, Hb, <- !app_assoc. now split.
Qed.

(** A decision that joins is one more listener. *)
Lemma members_append (k : key) (r : loc) :
  forall m : listener_map,
    Permutation (members (map_set m k (default [] (map_get m k) ++ [r])))
                (r :: members m).
Proof.
  unfold members.
  induction m as [|[k1 l1] m IH]; simpl; [reflexivity|].
  destruct (key_eqb k1 k); simpl.
  - rewrite <- app_assoc. simpl.
    symmetry. apply Permutation_middle.
  - rewrite IH. symmetry. apply Permutation_middle.
Qed.

Lemma members_filter (p : loc -> bool) :
  forall m m' : listener_map,
    Forall2 (fun e e' => fst e' = fst e /\ snd e' = List.filter p (snd e)) m m' ->
    members m' = List.filter p (members m).
Proof.
  unfold members. induction 1 as [|[k ls] [k' ls'] m m' [_ Hls] _ IH]; [reflexivity|].
  simpl in *. now rewrite List.filter_app, Hls, IH.
Qed.

Section WithEnv.

Variable E : env.

Lemma credit_all_app (a b : list val) :
  forall d, credit_all E (a ++ b) d
            = match credit_all E a d with
              | Ok d' => credit_all E b d'
              | Raise e => Raise e
              end.
Proof.
  induction a as [|v a IH]; intros d; simpl; [reflexivity|].
  destruct (add_reward E d v) as [d'|e]; simpl; [apply IH | reflexivity].
Qed.

Lemma credit_count (reward : val) (ls : list loc) (l : loc) (d d' : record) :
  List.NoDup ls ->
  credit E reward (count_occ Nat.eq_dec ls l) d = Ok d' ->
  (In l ls /\ credit_all E [reward] d = Ok d') \/ (~ In l ls /\ d' = d).
Proof.
  intros Hnd H. destruct (in_dec Nat.eq_dec l ls) as [Hin|Hnin].
  - left. split; [exact Hin|].
    rewrite (proj1 (NoDup_count_occ' Nat.eq_dec ls) Hnd l Hin) in H.
    rewrite credit_once in H. simpl. now rewrite H.
  - right. split; [exact Hnin|].
    rewrite (proj1 (count_occ_not_In Nat.eq_dec ls l) Hnin) in H.
    simpl in H. congruence.
Qed.

Lemma settled_expired (h : heap) (rest : list loc) (r : loc) (t t0 : Z) (l : loc) :
  In r rest -> strptime E (h r) = Ok t ->
  settled E h rest t0 -> expired E h t0 l = true -> expired E h t l = true.
Proof.
  intros Hr Ht Hs Hexp. apply (expired_later E h t0 t l); [|exact Hexp].
  exact (Hs r t Hr Ht).
Qed.

(** The listeners of a string key are the decisions of that key. *)
Lemma listeners_key (h : heap) (seen : list loc) (m : listener_map) (k : string)
    (l : loc) :
  map_keyed (joined E h seen) m ->
  In l (default [] (map_get m (KStr k))) ->
  In l seen /\ has_type (h l) "decision" = true /\
  decision_key E (h l) = Ok (KStr k).
Proof.
  intros Hm Hin.
  destruct (map_keyed_get _ _ l m Hm Hin) as (k' & Hk' & HP).
  apply key_eqb_str in Hk'. subst k'. now apply joined_str.
Qed.

(** A decision of a string key that is a listener is in the list of its
    key. *)
Lemma member_listener (h : heap) (seen : list loc) (m : listener_map) (k : string)
    (l : loc) :
  keys_distinct m ->
  map_keyed (joined E h seen) m ->
  In l (members m) ->
  decision_key E (h l) = Ok (KStr k) ->
  In l (default [] (map_get m (KStr k))).
Proof.
  intros Hd Hm Hin Hk.
  apply members_In in Hin as (k' & ls & Hentry & Hl).
  destruct (map_keyed_In _ _ _ _ _ Hm Hentry Hl) as (_ & _ & k0 & Hk0 & Heq).
  rewrite Hk in Hk0. injection Hk0 as <-.
  assert (k' = KStr k) as ->.
  { destruct Heq as [->|Heq]; [reflexivity | now apply key_eqb_str]. }
  now rewrite (map_get_distinct _ _ _ Hd Hentry).
Qed.

(** One pair of a rewards record. *)
Lemma on_reward_pair_credit (h : heap) (seen rest : list loc) (r : loc) (t : Z)
    (h1 h2 : heap) (m1 m2 : listener_map) (k : string) (reward : val) :
  pass_invariant E h seen rest h1 m1 ->
  In r rest -> strptime E (h r) = Ok t -> settled E h rest t ->
  on_reward_pair E h1 m1 (VDatetime t) k reward = (h2, m2, None) ->
  pass_invariant E h seen rest h2 m2 /\
  forall l, In l seen -> has_type (h l) "decision" = true ->
            credit_all E (pair_contribution E h t l (k, reward)) (h1 l) = Ok (h2 l).
Proof.
  intros [Hf Hk Hj Ho Hop] Hr Ht Hset H.
  destruct (on_reward_pair_frame E _ _ _ _ _ _ _ _ H) as [Hf12 Hkeys].
  destruct (on_reward_pair_touch E _ _ _ _ _ _ _ _ _ Hj H) as [Hj2 _].
  unfold on_reward_pair in H.
  destruct (update_listeners E h1 (default [] (map_get m1 (KStr k))) (VDatetime t) reward)
    as [[h' ls'] out'] eqn:Eu.
  injection H as -> Hm2 ->.
  apply update_listeners_returns in Eu as (t' & [= <-] & _ & Hw).
  apply window_update_returns in Hw as [Hls' Hcredit].
  assert (Hfilter : ls' = List.filter (fun l => negb (expired E h t l))
                            (default [] (map_get m1 (KStr k)))).
  { rewrite Hls'. apply List.filter_ext. intros l.
    now rewrite (same_fields_expired E h h1 t l Hf). }
  clear Hls'.
  assert (Hparts : exists a b,
             members m1 = a ++ default [] (map_get m1 (KStr k)) ++ b /\
             members m2 = a ++ ls' ++ b).
  { destruct (map_get m1 (KStr k)) as [ls|] eqn:Eg.
    - subst m2. exact (members_shrink _ _ _ _ Eg).
    - subst m2. simpl in *. subst ls'. exists [], (members m1). now split. }
  destruct Hparts as (a & b & Hm1 & Hm2').
  assert (Hsub : sublist (members m2) (members m1)).
  { rewrite Hm1, Hm2'. apply sublist_app; [reflexivity|].
    apply sublist_app; [|reflexivity]. rewrite Hfilter. apply ShardMore.filter_sublist. }
  assert (Hnd : List.NoDup ls').
  { rewrite Hfilter. apply List.NoDup_filter.
    rewrite Hm1 in Ho. apply NoDup_app_remove_l in Ho.
    now apply NoDup_app_remove_r in Ho. }
  split.
  - constructor.
    + exact (same_fields_trans _ _ _ Hf Hf12).
    + unfold keys_distinct. now rewrite Hkeys.
    + exact Hj2.
    + apply NoDup_ListNoDup. apply NoDup_ListNoDup in Ho.
      exact (sublist_NoDup _ _ Ho Hsub).
    + intros l Hl Htl. destruct (Hop l Hl Htl) as [Hin|Hgone]; [|now right].
      rewrite Hm1 in Hin. rewrite Hm2'.
      apply in_app_or in Hin as [Hin|Hin]; [left; apply in_or_app; now left|].
      apply in_app_or in Hin as [Hin|Hin];
        [|left; apply in_or_app; right; apply in_or_app; now right].
      destruct (expired E h t l) eqn:Eexp; [right; eauto|].
      left. apply in_or_app. right. apply in_or_app. left.
      rewrite Hfilter. apply filter_In. split; [exact Hin|]. now rewrite Eexp.
  - intros l Hl Htl.
    destruct (credit_count _ _ _ _ _ Hnd (Hcredit l)) as [[Hin Hc]|[Hnin Heq]].
    + rewrite Hfilter in Hin. apply filter_In in Hin as [Hin Hexp].
      destruct (listeners_key _ _ _ _ _ Hj Hin) as (_ & _ & Hkey).
      unfold pair_contribution. apply negb_true_iff in Hexp.
      rewrite Hexp, Hkey. simpl fst. now rewrite String.eqb_refl.
    + assert (Hnone : pair_contribution E h t l (k, reward) = []).
      { unfold pair_contribution.
        destruct (expired E h t l) eqn:Eexp; [reflexivity|].
        destruct (decision_key E (h l)) as [[| | |s|]|] eqn:Ekey; try reflexivity.
        simpl. destruct (String.eqb k s) eqn:Eks; [|reflexivity].
        apply String.eqb_eq in Eks. subst s. exfalso.
        destruct (Hop l Hl Htl) as [Hmem|(t0 & Hexp0 & Hset0)].
        - apply Hnin. rewrite Hfilter. apply filter_In.
          split; [|now rewrite Eexp].
          exact (member_listener _ _ _ _ _ Hk Hj Hmem Ekey).
        - rewrite (settled_expired _ _ _ _ _ _ Hr Ht Hset0 Hexp0) in Eexp.
          discriminate. }
      rewrite Hnone. simpl. now rewrite Heq.
Qed.

Lemma rewards_loop_credit (h : heap) (seen rest : list loc) (r : loc) (t : Z) :
  In r rest -> strptime E (h r) = Ok t -> settled E h rest t ->
  forall (items : list (string * val)) (h1 h2 : heap) (m1 m2 : listener_map),
    pass_invariant E h seen rest h1 m1 ->
    rewards_loop E h1 m1 (VDatetime t) items = (h2, m2, None) ->
    pass_invariant E h seen rest h2 m2 /\
    forall l, In l seen -> has_type (h l) "decision" = true ->
              credit_all E (flat_map (pair_contribution E h t l) items) (h1 l)
              = Ok (h2 l).
Proof.
  intros Hr Ht Hset.
  induction items as [|[k v] items IH]; intros h1 h2 m1 m2 Hinv H; simpl in H.
  - injection H as <- <-. split; [exact Hinv | reflexivity].
  - destruct (on_reward_pair E h1 m1 (VDatetime t) k v) as [[h' m'] [e|]] eqn:Ep;
      [discriminate|].
    destruct (on_reward_pair_credit _ _ _ _ _ _ _ _ _ _ _ Hinv Hr Ht Hset Ep)
      as [Hinv' Hc'].
    destruct (IH _ _ _ _ Hinv' H) as [Hinv2 Hc2].
    split; [exact Hinv2|].
    intros l Hl Htl. simpl. rewrite credit_all_app, (Hc' l Hl Htl).
    exact (Hc2 l Hl Htl).
Qed.

Lemma event_loop_credit (h : heap) (seen rest : list loc) (r : loc) (t : Z)
    (h1 h2 : heap) (m1 m2 : listener_map) (reward : val) :
  pass_invariant E h seen rest h1 m1 ->
  In r rest -> strptime E (h r) = Ok t -> settled E h rest t ->
  event_loop E h1 m1 (VDatetime t) reward = (h2, m2, None) ->
  pass_invariant E h seen rest h2 m2 /\
  forall l, In l seen -> has_type (h l) "decision" = true ->
            credit_all E (if expired E h t l then [] else [reward]) (h1 l)
            = Ok (h2 l).
Proof.
  intros [Hf Hk Hj Ho Hop] Hr Ht Hset H.
  destruct (event_loop_frame E _ _ _ _ _ _ _ H) as [Hf12 Hkeys].
  destruct (event_loop_touch E _ _ _ _ _ _ _ _ Hj H) as [Hj2 _].
  apply event_loop_returns in H as [Hall Hcredit].
  apply members_filter in Hall.
  assert (Hm2 : members m2
                = List.filter (fun l => negb (expired E h t l)) (members m1)).
  { rewrite Hall. apply List.filter_ext. intros l.
    now rewrite (same_fields_expired E h h1 t l Hf). }
  assert (Hnd : List.NoDup (members m2)).
  { rewrite Hm2. now apply List.NoDup_filter. }
  split.
  - constructor.
    + exact (same_fields_trans _ _ _ Hf Hf12).
    + unfold keys_distinct. now rewrite Hkeys.
    + exact Hj2.
    + exact Hnd.
    + intros l Hl Htl. destruct (Hop l Hl Htl) as [Hin|Hgone]; [|now right].
      destruct (expired E h t l) eqn:Eexp; [right; eauto|].
      left. rewrite Hm2. apply filter_In. split; [exact Hin|]. now rewrite Eexp.
  - intros l Hl Htl.
    destruct (credit_count _ _ _ _ _ Hnd (Hcredit l)) as [[Hin Hc]|[Hnin Heq]].
    + rewrite Hm2 in Hin. apply filter_In in Hin as [_ Hexp].
      apply negb_true_iff in Hexp. now rewrite Hexp.
    + destruct (expired E h t l) eqn:Eexp; [simpl; now rewrite Heq|].
      exfalso. destruct (Hop l Hl Htl) as [Hmem|(t0 & Hexp0 & Hset0)].
      * apply Hnin. rewrite Hm2. apply filter_In. split; [exact Hmem|].
        now rewrite Eexp.
      * rewrite (settled_expired _ _ _ _ _ _ Hr Ht Hset0 Hexp0) in Eexp.
        discriminate.
Qed.

Lemma pass_invariant_next (h : heap) (seen rest : list loc) (r : loc) (h1 : heap)
    (m1 : listener_map) :
  has_type (h r) "decision" = false ->
  pass_invariant E h seen (r :: rest) h1 m1 ->
  pass_invariant E h (seen ++ [r]) rest h1 m1.
Proof.
  intros Htr [Hf Hk Hj Ho Hop]. constructor; try assumption.
  - revert Hj. apply map_keyed_impl. intros k l. apply joined_more.
  - intros l Hl Htl. apply in_app_or in Hl as [Hl|[<-|[]]]; [|congruence].
    destruct (Hop l Hl Htl) as [Hin|(t0 & Hexp & Hset)]; [now left | right].
    exists t0. split; [exact Hexp|]. intros r' t' Hr'. apply Hset. now right.
Qed.

(** One record of the pass. *)
Lemma on_record_credit (h : heap) (seen rest : list loc) (r : loc) (h1 h2 : heap)
    (m1 m2 : listener_map) :
  pass_invariant E h seen (r :: rest) h1 m1 ->
  ~ In r seen ->
  List.Forall (not_later E h r) rest ->
  on_record E h1 m1 r = (h2, m2, None) ->
  pass_invariant E h (seen ++ [r]) rest h2 m2 /\
  forall l, In l seen -> has_type (h l) "decision" = true ->
            credit_all E (contribution E h r l) (h1 l) = Ok (h2 l).
Proof.
  intros Hinv Hnew Hord H.
  pose proof (inv_fields _ _ _ _ _ _ Hinv) as Hf.
  assert (Hset : forall t, strptime E (h r) = Ok t -> settled E h (r :: rest) t).
  { intros t Ht r' t' [<-|Hr'] Ht'; [rewrite Ht in Ht'; injection Ht' as <-; lia|].
    exact (proj1 (List.Forall_forall _ _) Hord r' Hr' t t' Ht Ht'). }
  destruct (on_record_touch E _ _ _ _ _ _ _ _ Hf (inv_joined _ _ _ _ _ _ Hinv) H)
    as [Hj2 _].
  unfold on_record in H. unfold contribution.
  rewrite !(same_fields_has_type h h1 r _ Hf) in H.
  destruct (has_type (h r) "decision") eqn:Td.
  - unfold on_decision in H.
    destruct (decision_key E (h1 r)) as [k|e] eqn:Ek; injection H as <- <-;
      [|discriminate].
    destruct Hinv as [_ Hk Hj Ho Hop].
    pose proof (members_append k r m1) as Hperm.
    split; [|reflexivity]. constructor.
    + exact Hf.
    + now apply keys_distinct_set.
    + exact Hj2.
    + apply (Permutation_NoDup (Permutation_sym Hperm)). constructor; [|exact Ho].
      intros Hin. apply Hnew.
      apply members_In in Hin as (k' & ls & Hentry & Hl).
      exact (proj1 (map_keyed_In _ _ _ _ _ Hj Hentry Hl)).
    + intros l Hl Htl. apply in_app_or in Hl as [Hl|[<-|[]]].
      * destruct (Hop l Hl Htl) as [Hin|(t0 & Hexp & Hset0)].
        -- left. apply (Permutation_in _ (Permutation_sym Hperm)). now right.
        -- right. exists t0. split; [exact Hexp|].
           intros r' t' Hr'. apply Hset0. now right.
      * left. apply (Permutation_in _ (Permutation_sym Hperm)). now left.
  - destruct (has_type (h r) "rewards") eqn:Tr.
    + unfold on_rewards in H.
      rewrite (same_fields_strptime E h h1 r Hf) in H.
      destruct (strptime E (h r)) as [t|e] eqn:Et; [|discriminate].
      rewrite (Hf r "rewards"%string ltac:(discriminate)) in H.
      destruct (h r !! "rewards") as [[| | | | | |items|]|]; try discriminate.
      destruct (rewards_loop_credit h seen (r :: rest) r t (or_introl eq_refl) Et
                  (Hset t eq_refl) _ _ _ _ _ Hinv H) as [Hinv2 Hc].
      split; [now apply pass_invariant_next | exact Hc].
    + destruct (has_type (h r) "event") eqn:Te; [|discriminate].
      unfold on_event in H.
      assert (Hev : event_value E (h1 r) = event_value E (h r)).
      { unfold event_value. now rewrite (Hf r "properties"%string ltac:(discriminate)). }
      rewrite Hev in H.
      destruct (event_value E (h r)) as [v|e]; [|discriminate].
      rewrite (same_fields_strptime E h h1 r Hf) in H.
      destruct (strptime E (h r)) as [t|e] eqn:Et; [|discriminate].
      destruct (event_loop_credit h seen (r :: rest) r t _ _ _ _ _ Hinv
                  (or_introl eq_refl) Et (Hset t eq_refl) H) as [Hinv2 Hc].
      split; [now apply pass_invariant_next | exact Hc].
Qed.

Lemma after_absent (l : loc) (records : list loc) :
  ~ In l records -> after l records = [].
Proof.
  induction records as [|x records IH]; intros Hnin; [reflexivity|].
  simpl. destruct (Nat.eqb x l) eqn:Ex.
  - apply Nat.eqb_eq in Ex. destruct Hnin. now left.
  - apply IH. intros Hin. apply Hnin. now right.
Qed.

Lemma merge_pass_credit (h : heap) :
  forall (rest seen : list loc) (h1 h' : heap) (m1 m' : listener_map),
    pass_invariant E h seen rest h1 m1 ->
    List.NoDup (seen ++ rest) ->
    StronglySorted (not_later E h) rest ->
    merge_pass E h1 m1 rest = (h', m', None) ->
    (forall l, has_type (h l) "decision" = true ->
               credit_all E (contributions E h seen l) (h l) = Ok (h1 l)) ->
    forall l, has_type (h l) "decision" = true ->
              credit_all E (contributions E h (seen ++ rest) l) (h l) = Ok (h' l).
Proof.
  induction rest as [|r rest IH]; intros seen h1 h' m1 m' Hinv Hnd Hord H Hc l Htl;
    simpl in H.
  - injection H as <- <-. rewrite app_nil_r. now apply Hc.
  - destruct (on_record E h1 m1 r) as [[h2 m2] [e|]] eqn:Er; [discriminate|].
    apply StronglySorted_inv in Hord as [Hord Hr].
    assert (Hnew : ~ In r seen).
    { intros Hin. apply (NoDup_remove_2 _ _ _ Hnd). apply in_or_app. now left. }
    destruct (on_record_credit _ _ _ _ _ _ _ _ Hinv Hnew Hr Er) as [Hinv2 Hc2].
    destruct (on_record_touch E _ _ _ _ _ _ _ _ (inv_fields _ _ _ _ _ _ Hinv)
                (inv_joined _ _ _ _ _ _ Hinv) Er) as [_ Htouch].
    replace (seen ++ r :: rest) with ((seen ++ [r]) ++ rest)
      by now rewrite <- app_assoc.
    apply (IH (seen ++ [r]) h2 h' m2 m'); try assumption.
    + now rewrite <- app_assoc.
    + clear l Htl. intros l Htl. unfold contributions. rewrite after_snoc.
      destruct (in_dec Nat.eq_dec l seen) as [Hin|Hnin].
      * rewrite flat_map_app, credit_all_app. fold (contributions E h seen l).
        rewrite (Hc l Htl). simpl. rewrite app_nil_r. exact (Hc2 l Hin Htl).
      * simpl. f_equal.
        destruct (Htouch l) as [Heq|(_ & Hin & _)]; [|contradiction].
        rewrite Heq. specialize (Hc l Htl). unfold contributions in Hc.
        rewrite (after_absent _ _ Hnin) in Hc. simpl in Hc. congruence.
Qed.

(** X20.  A pass that returns, over records that are in the order of their
    timestamps, each of them once: the record of a decision is the record
    it was with, added to its reward one after the other, what the records
    after it are worth to it; those are the values of the rewards records
    for the reward key of the decision and the values of the events, of
    the records at whose timestamp the window of the decision is not
    over. *)
Theorem merge_pass_rewards (h h' : heap) (m' : listener_map) (records : list loc)
    (l : loc) :
  merge_pass E h [] records = (h', m', None) ->
  List.NoDup records ->
  StronglySorted (not_later E h) records ->
  has_type (h l) "decision" = true ->
  credit_all E (contributions E h records l) (h l) = Ok (h' l).
Proof.
  intros H Hnd Hord Htl.
  apply (merge_pass_credit h records [] h h' [] m'); try assumption.
  - constructor.
    + apply same_fields_refl.
    + constructor.
    + constructor.
    + constructor.
    + intros l0 [].
  - reflexivity.
Qed.

End WithEnv.

Lemma merge_pass_rewards_witness :
  credit_all example_env
    (contributions example_env decision_and_reward [0; 1]%nat 0%nat)
    (decision_and_reward 0%nat)
  = Ok (fst (fst decision_and_reward_merged) 0%nat).
Proof.
  apply (merge_pass_rewards example_env decision_and_reward
           (fst (fst decision_and_reward_merged))
           (snd (fst decision_and_reward_merged)) [0; 1]%nat 0%nat).
  - reflexivity.
  - repeat constructor; simpl; intuition lia.
  - repeat constructor. intros t t' H1 H2.
    vm_compute in H1, H2. injection H1 as <-. injection H2 as <-. lia.
  - reflexivity.
Defined.

(** The decision of the example is worth the reward of 2. *)
Example contributions_example :
  contributions example_env decision_and_reward [0; 1]%nat 0%nat = [VInt 2].
Proof. reflexivity. Qed.

End CreditFacts.
